(** * yep/models: field registry, dependency graph and bootstrap checks

    A shallow embedding of [yep/models/fields.go] (package [models]):
    the [Field] and [FieldsCollection] descriptors, field validation
    ([checkFieldInfo]), registration ([add], [register]), lookup ([get],
    [MustGet]), the junction model of many2many relations
    ([createM2MRelModelInfo]), the dependency graph ([processDepends]),
    the bootstrap check of compute methods
    ([checkComputeMethodsSignature]) and the listings of a collection;
    and of the bootstrap of window actions in [yep/actions/init.go]
    ([bootStrapWindowAction], [fixViewModes]).

    Go values that the code shares through pointers ([*Field], [*Model],
    [*FieldsCollection]) live in explicit heaps; a function of the source
    becomes a computation over the program state that either returns or
    panics. *)

From Stdlib Require Import Ascii String.
From stdpp Require Import base option list strings gmap fin_maps.

Local Open Scope string_scope.

(** ** Go runtime: pointers, panics, state *)

(** A pointer is an address; an address that is not allocated in the heap
    it is dereferenced in stands for Go's [nil]. Struct members of pointer
    type are [option Ptr], with [None] for [nil]. *)
Definition Ptr := positive.

Inductive outcome (S A : Type) : Type :=
| Returned (a : A) (s : S)
| Panicked (msg : string) (s : S).

Arguments Returned {S A} a s.
Arguments Panicked {S A} msg s.

Definition returns {S A} (o : outcome S A) : Prop :=
  match o with Returned _ _ => True | Panicked _ _ => False end.

Definition panics {S A} (o : outcome S A) : Prop :=
  match o with Returned _ _ => False | Panicked _ _ => True end.

Definition final {S A} (o : outcome S A) : S :=
  match o with Returned _ s => s | Panicked _ s => s end.

(** The runtime panic of a nil pointer dereference. *)
Definition nilDereference : string :=
  "runtime error: invalid memory address or nil pointer dereference".

(** The runtime panic of an index or slice bound out of range. *)
Definition indexOutOfRange : string :=
  "runtime error: index out of range".

(** ** Package fieldtype *)

Module fieldtype.

(** Modelled from the spec: package [fieldtype] is not part of the source
    files. The type enumerates the storage kinds the documentation lists
    ([one2one], [many2one], [one2many], [many2many], [text], [html],
    [binary], [selection]) next to the plain Go types;
    [IsReverseRelationType] and [IsFKRelationType] follow the messages of
    [checkFieldInfo]: "'one2many' and 'rev2one' fields must define an
    'ReverseFK' parameter" and "'Embed' should be set only on many2one or
    one2one fields". *)
Inductive FieldType : Type :=
| NoType | Binary | Boolean | Char | Date | DateTime | Float | HTML
| Integer | Many2Many | Many2One | One2Many | One2One | Rev2One
| Selection | Text.

Definition IsReverseRelationType (t : FieldType) : bool :=
  match t with One2Many | Rev2One => true | _ => false end.

Definition IsFKRelationType (t : FieldType) : bool :=
  match t with Many2One | One2One => true | _ => false end.

End fieldtype.

Abbreviation FieldType := fieldtype.FieldType.

(** ** Package reflect *)

Module reflect.

(** The Go types the source inspects by reflection: [int64], the
    [RecordCollection] struct, [[]FieldNamer], and any other type, known
    by its name. *)
Inductive rtype : Type :=
| Int64
| RecordCollection
| FieldNamerSlice
| Named (n : string).

(** [reflect.StructField], with the two members the source sets; the zero
    value has a nil [Type]. *)
Record StructField := mkStructField {
  Name : string;
  Type_ : option rtype }.

(** A function type: [NumIn] and [NumOut] are the lengths, [Out i] the
    [i]-th result. *)
Record funcType := mkFuncType {
  ins : list rtype;
  outs : list rtype }.

Definition NumIn (t : funcType) : nat := length (ins t).
Definition NumOut (t : funcType) : nat := length (outs t).
Definition Out (t : funcType) (i : nat) : option rtype := outs t !! i.

End reflect.

#[global] Instance rtype_eq_dec : EqDecision reflect.rtype.
Proof. solve_decision. Defined.

(** ** Descriptors *)

(** [OnDeleteAction] is a string type. *)
Definition OnDeleteAction := string.
Definition SetNull : OnDeleteAction := "set null".
Definition Restrict : OnDeleteAction := "restrict".
Definition Cascade : OnDeleteAction := "cascade".

(** [computeData] holds data to recompute another field. *)
Record computeData := mkComputeData {
  modelInfo : Ptr;
  cd_compute : string;
  path : string }.

#[global] Instance computeData_eq_dec : EqDecision computeData.
Proof. solve_decision. Defined.

Module Field.

(** [Field] holds the meta information about a field. The members [acl],
    [selection], [digits] and [defaultFunc] belong to packages outside the
    source files and are read by none of the functions below. *)
Record t := mk {
  model : option Ptr;
  name : string;
  json : string;
  description : string;
  help : string;
  stored : bool;
  required : bool;
  unique : bool;
  index : bool;
  compute : string;
  depends : list string;
  relatedModelName : string;
  relatedModel : option Ptr;
  reverseFK : string;
  m2mRelModel : option Ptr;
  m2mOurField : option Ptr;
  m2mTheirField : option Ptr;
  fieldType : FieldType;
  groupOperator : string;
  size : Z;
  structField : reflect.StructField;
  relatedPath : string;
  dependencies : list computeData;
  embed : bool;
  noCopy : bool;
  onDelete : OnDeleteAction;
  translate : bool }.

(** Assignments to single members: [fi.stored = b], [fi.embed = b],
    [fi.dependencies = l]. *)
Definition set_stored (b : bool) (f : t) : t :=
  mk (model f) (name f) (json f) (description f) (help f) b (required f)
     (unique f) (index f) (compute f) (depends f) (relatedModelName f)
     (relatedModel f) (reverseFK f) (m2mRelModel f) (m2mOurField f)
     (m2mTheirField f) (fieldType f) (groupOperator f) (size f)
     (structField f) (relatedPath f) (dependencies f) (embed f) (noCopy f)
     (onDelete f) (translate f).

Definition set_embed (b : bool) (f : t) : t :=
  mk (model f) (name f) (json f) (description f) (help f) (stored f)
     (required f) (unique f) (index f) (compute f) (depends f)
     (relatedModelName f) (relatedModel f) (reverseFK f) (m2mRelModel f)
     (m2mOurField f) (m2mTheirField f) (fieldType f) (groupOperator f)
     (size f) (structField f) (relatedPath f) (dependencies f) b (noCopy f)
     (onDelete f) (translate f).

Definition set_dependencies (l : list computeData) (f : t) : t :=
  mk (model f) (name f) (json f) (description f) (help f) (stored f)
     (required f) (unique f) (index f) (compute f) (depends f)
     (relatedModelName f) (relatedModel f) (reverseFK f) (m2mRelModel f)
     (m2mOurField f) (m2mTheirField f) (fieldType f) (groupOperator f)
     (size f) (structField f) (relatedPath f) l (embed f) (noCopy f)
     (onDelete f) (translate f).

(** [isComputedField] returns true if this field is computed. *)
Definition isComputedField (f : t) : bool :=
  negb (bool_decide (compute f = "")).

(** [isRelatedField] returns true if this field is related. *)
Definition isRelatedField (f : t) : bool :=
  negb (bool_decide (relatedPath f = "")).

(** [isRelationField] returns true if this field points to another
    model. *)
Definition isRelationField (f : t) : bool :=
  negb (bool_decide (relatedModelName f = "")).

End Field.

Abbreviation Field := Field.t.

Module FieldsCollection.

(** [FieldsCollection] is a collection of [Field] instances in a model.
    The embedded [sync.RWMutex] has no counterpart: the functions are
    modelled one call at a time. *)
Record t := mk {
  model : option Ptr;
  registryByName : gmap string Ptr;
  registryByJSON : gmap string Ptr;
  computedFields : list Ptr;
  computedStoredFields : list Ptr;
  relatedFields : list Ptr;
  bootstrapped : bool }.

End FieldsCollection.

Abbreviation FieldsCollection := FieldsCollection.t.

Module Method.

(** Modelled from the spec: the [Method] type is not part of the source
    files; [checkComputeMethodsSignature] reads its members [name],
    [model] and [methodType]. *)
Record t := mk {
  name : string;
  model : option Ptr;
  methodType : reflect.funcType }.

End Method.

Abbreviation Method := Method.t.

Module Model.

(** Modelled from the spec: the [Model] type is not part of the source
    files. The members are those [createM2MRelModelInfo] sets, without
    [acl]; [methods] is the registry of the model's methods by name and
    [options] the option bits. *)
Record t := mk {
  name : string;
  tableName : string;
  fields : Ptr;
  methods : gmap string Method;
  options : Z }.

End Model.

Abbreviation Model := Model.t.

Module modelCollection.

(** Modelled from the spec: the type of the global [Registry] is not part
    of the source files, which go through its two maps
    [registryByName] and [registryByTableName]. *)
Record t := mk {
  registryByName : gmap string Ptr;
  registryByTableName : gmap string Ptr }.

End modelCollection.

(** The program state: the three heaps and the global [Registry]. *)
Record State := mkState {
  fieldHeap : gmap Ptr Field;
  collHeap : gmap Ptr FieldsCollection;
  modelHeap : gmap Ptr Model;
  Registry : modelCollection.t }.

Definition set_fieldHeap (h : gmap Ptr Field) (s : State) : State :=
  mkState h (collHeap s) (modelHeap s) (Registry s).

Definition set_collHeap (h : gmap Ptr FieldsCollection) (s : State) : State :=
  mkState (fieldHeap s) h (modelHeap s) (Registry s).

Definition set_modelHeap (h : gmap Ptr Model) (s : State) : State :=
  mkState (fieldHeap s) (collHeap s) h (Registry s).

Definition set_Registry (r : modelCollection.t) (s : State) : State :=
  mkState (fieldHeap s) (collHeap s) (modelHeap s) r.

(** ** The monad of computations that may panic *)

Definition M (A : Type) : Type := State → outcome State A.

#[global] Instance M_ret : MRet M := λ A a s, Returned a s.

#[global] Instance M_bind : MBind M := λ A B k c s,
  match c s with
  | Returned a s' => k a s'
  | Panicked msg s' => Panicked msg s'
  end.

Definition panic {A} (msg : string) : M A := λ s, Panicked msg s.

Definition when (b : bool) (c : M unit) : M unit :=
  if b then c else mret tt.

(** [for _, x := range l { body x }] over a slice. *)
Fixpoint forEach {A} (l : list A) (body : A → M unit) : M unit :=
  match l with
  | [] => mret tt
  | x :: l' => body x ;; forEach l' body
  end.

Definition loadField (p : Ptr) : M Field :=
  λ s, match fieldHeap s !! p with
       | Some f => Returned f s
       | None => Panicked nilDereference s
       end.

Definition storeField (p : Ptr) (f : Field) : M unit :=
  λ s, Returned tt (set_fieldHeap (<[p := f]> (fieldHeap s)) s).

Definition loadColl (p : Ptr) : M FieldsCollection :=
  λ s, match collHeap s !! p with
       | Some c => Returned c s
       | None => Panicked nilDereference s
       end.

Definition storeColl (p : Ptr) (c : FieldsCollection) : M unit :=
  λ s, Returned tt (set_collHeap (<[p := c]> (collHeap s)) s).

Definition loadModel (p : Ptr) : M Model :=
  λ s, match modelHeap s !! p with
       | Some m => Returned m s
       | None => Panicked nilDereference s
       end.

Definition storeModel (p : Ptr) (m : Model) : M unit :=
  λ s, Returned tt (set_modelHeap (<[p := m]> (modelHeap s)) s).

(** [&Field{...}], [&FieldsCollection{...}], [&Model{...}]: allocation at
    an address the heap does not use yet. *)
Definition newField (f : Field) : M Ptr :=
  λ s, let p := fresh (dom (fieldHeap s)) in
       Returned p (set_fieldHeap (<[p := f]> (fieldHeap s)) s).

Definition newColl (c : FieldsCollection) : M Ptr :=
  λ s, let p := fresh (dom (collHeap s)) in
       Returned p (set_collHeap (<[p := c]> (collHeap s)) s).

Definition newModel (m : Model) : M Ptr :=
  λ s, let p := fresh (dom (modelHeap s)) in
       Returned p (set_modelHeap (<[p := m]> (modelHeap s)) s).

(** [mp.name] for a member [mp] of type [*Model]. *)
Definition modelName (mp : option Ptr) : M string :=
  match mp with
  | None => panic nilDereference
  | Some p => m ← loadModel p; mret (Model.name m)
  end.

(** ** FieldsCollection: lookup *)

(** [get] returns the [Field] of the field with the given name, which can
    be either the name of the field or its JSON name. *)
Definition get_ (c : FieldsCollection) (name : string) : option Ptr :=
  match FieldsCollection.registryByName c !! name with
  | Some fi => Some fi
  | None => FieldsCollection.registryByJSON c !! name
  end.

Definition get (fc : Ptr) (name : string) : M (option Ptr) :=
  c ← loadColl fc; mret (get_ c name).

Definition unknownField : string := "Unknown field in model".

(** [MustGet] returns the [Field] of the field with the given name or
    panics. *)
Definition MustGet (fc : Ptr) (name : string) : M Ptr :=
  r ← get fc name;
  match r with
  | Some fi => mret fi
  | None => panic unknownField
  end.

(** The empty collection, with all maps initialized. *)
Definition emptyFieldsCollection : FieldsCollection :=
  FieldsCollection.mk None ∅ ∅ [] [] [] false.

(** [newFieldsCollection] returns a pointer to a new empty
    [FieldsCollection] with all maps initialized. *)
Definition newFieldsCollection : M Ptr := newColl emptyFieldsCollection.

(** ** Field validation *)

Definition missingReverseFK : string :=
  "'one2many' and 'rev2one' fields must define an 'ReverseFK' parameter".

Definition undefinedRelationModel : string :=
  "Undefined relation model on related field".

(** [log.Warn] logs and returns, [log.Panic] logs and panics; both
    evaluate their arguments first, among them [fi.model.name]. *)
Definition logWarn (f : Field) : M unit :=
  _ ← modelName (Field.model f); mret tt.

Definition logPanic {A} (msg : string) (f : Field) : M A :=
  _ ← modelName (Field.model f); panic msg.

(** [checkFieldInfo] makes sanity checks on the given [Field]. It panics
    in case of severe error and logs recoverable errors. *)
Definition checkFieldInfo (fi : Ptr) : M unit :=
  f ← loadField fi;
  when (fieldtype.IsReverseRelationType (Field.fieldType f)
        && bool_decide (Field.reverseFK f = ""))
       (logPanic missingReverseFK f);;
  when (Field.embed f && negb (fieldtype.IsFKRelationType (Field.fieldType f)))
       (logWarn f;; storeField fi (Field.set_embed false f));;
  f ← loadField fi;
  when (bool_decide (reflect.Type_ (Field.structField f)
                     = Some reflect.RecordCollection))
       (rn ← modelName (Field.relatedModel f);
        when (bool_decide (rn = "")) (logPanic undefinedRelationModel f));;
  when (Field.stored f && negb (Field.isComputedField f))
       (logWarn f;; storeField fi (Field.set_stored false f)).

(** ** FieldsCollection: registration *)

(** [register] adds the given [fInfo] in the collection. The first step
    stands for [fc.Lock()], which dereferences [fc]. *)
Definition register (fc : Ptr) (fInfo : Ptr) : M unit :=
  _ ← loadColl fc;
  checkFieldInfo fInfo;;
  f ← loadField fInfo;
  c ← loadColl fc;
  let name := Field.name f in
  let jsonName := Field.json f in
  let byName := <[name := fInfo]> (FieldsCollection.registryByName c) in
  let byJSON := <[jsonName := fInfo]> (FieldsCollection.registryByJSON c) in
  let computedStored :=
    if Field.isComputedField f && Field.stored f
    then (FieldsCollection.computedStoredFields c ++ [fInfo])%list
    else FieldsCollection.computedStoredFields c in
  let computed :=
    if Field.isComputedField f && negb (Field.stored f)
    then (FieldsCollection.computedFields c ++ [fInfo])%list
    else FieldsCollection.computedFields c in
  let related :=
    if Field.isRelatedField f
    then (FieldsCollection.relatedFields c ++ [fInfo])%list
    else FieldsCollection.relatedFields c in
  storeColl fc
    (FieldsCollection.mk (FieldsCollection.model c) byName byJSON computed
       computedStored related (FieldsCollection.bootstrapped c)).

Definition alreadyExistingField : string :=
  "Trying to add already existing field".

(** [add] the given [Field] to the [FieldsCollection]. *)
Definition add (fc : Ptr) (fInfo : Ptr) : M unit :=
  c ← loadColl fc;
  f ← loadField fInfo;
  match FieldsCollection.registryByName c !! Field.name f with
  | Some _ => logPanic alreadyExistingField f
  | None => register fc fInfo
  end.

(** ** Stored fields *)

Section Stored.

(** [fieldtype.Type.IsNonStoredRelationType] belongs to package
    [fieldtype], outside the source files: it is a parameter. *)
Variable IsNonStoredRelationType : FieldType → bool.

(** [isStored] returns true if this field is stored in database. *)
Definition isStored (f : Field) : bool :=
  if IsNonStoredRelationType (Field.fieldType f) then false
  else if (Field.isComputedField f || Field.isRelatedField f)
          && negb (Field.stored f) then false
  else true.

End Stored.

(** ** Iteration over maps *)

(** Go leaves the iteration order of [range] over a map unspecified. A
    loop over a map runs over the list of its entries in an order given by
    a parameter [rangeMap], of which the theorems know only that it
    enumerates the entries of the map. Go chooses the order anew at
    every [range] statement: where a result depends on the order, the
    theorems state it up to the order of the entries, which holds for
    every choice, and a statement about two runs takes one parameter for
    each run. *)
Definition mapOrder : Type := gmap string Ptr → list (string * Ptr).

Definition enumerates (rangeMap : mapOrder) : Prop :=
  ∀ m, rangeMap m ≡ₚ map_to_list m.

(** ** The model registry *)

Definition getRegistry : M modelCollection.t :=
  λ s, Returned (Registry s) s.

Definition putRegistry (r : modelCollection.t) : M unit :=
  λ s, Returned tt (set_Registry r s).

(** Modelled from the spec: [Registry.Get] is not part of the source
    files. The registry holds one model descriptor per name, and [Get]
    looks a model up by its name. *)
Definition Registry_Get (name : string) : M (option Ptr) :=
  r ← getRegistry;
  mret (modelCollection.registryByName r !! name).

(** Modelled from the spec: [Registry.add] is not part of the source
    files. It files the model under its name and under its table name,
    the keys of the two maps the source reads. *)
Definition Registry_add (mi : Ptr) : M unit :=
  m ← loadModel mi;
  r ← getRegistry;
  putRegistry
    (modelCollection.mk
       (<[Model.name m := mi]> (modelCollection.registryByName r))
       (<[Model.tableName m := mi]> (modelCollection.registryByTableName r))).

(** ** The junction model of a many2many relation *)

Section M2M.

(** [strutils.SnakeCaseString] and the model option [Many2ManyLinkModel]
    are declared outside the source files: they are parameters. *)
Variable SnakeCaseString : string → string.
Variable Many2ManyLinkModel : Z.
Variable rangeMap : mapOrder.

(** The loop of [createM2MRelModelInfo] over the fields of an existing
    junction model. *)
Definition findM2MFields (model1 model2 : string)
    (entries : list (string * Ptr)) : option Ptr * option Ptr :=
  foldl (λ (acc : option Ptr * option Ptr) (e : string * Ptr),
           if bool_decide (e.1 = model1) then (Some e.2, acc.2)
           else if bool_decide (e.1 = model2) then (acc.1, Some e.2)
           else acc)
        (None, None) entries.

(** The two foreign-key fields of a new junction model. *)
Definition m2mField (newMI : Ptr) (target : string) : Field :=
  {| Field.model := Some newMI;
     Field.name := target;
     Field.json := SnakeCaseString target ++ "_id";
     Field.description := "";
     Field.help := "";
     Field.stored := false;
     Field.required := true;
     Field.unique := false;
     Field.index := true;
     Field.compute := "";
     Field.depends := [];
     Field.relatedModelName := target;
     Field.relatedModel := None;
     Field.reverseFK := "";
     Field.m2mRelModel := None;
     Field.m2mOurField := None;
     Field.m2mTheirField := None;
     Field.fieldType := fieldtype.Many2One;
     Field.groupOperator := "";
     Field.size := 0;
     Field.structField := reflect.mkStructField target (Some reflect.Int64);
     Field.relatedPath := "";
     Field.dependencies := [];
     Field.embed := false;
     Field.noCopy := true;
     Field.onDelete := Cascade;
     Field.translate := false |}.

(** [createM2MRelModelInfo] creates a [Model] [relModelName] (if it does
    not exist) for the m2m relation defined between [model1] and [model2].
    It returns the [Model] of the intermediate model, the [Field] of that
    model pointing to our model, and the [Field] pointing to the other
    model. *)
Definition createM2MRelModelInfo (relModelName model1 model2 : string)
    : M (Ptr * option Ptr * option Ptr) :=
  r ← Registry_Get relModelName;
  match r with
  | Some relMI =>
      m ← loadModel relMI;
      c ← loadColl (Model.fields m);
      let found :=
        findM2MFields model1 model2
          (rangeMap (FieldsCollection.registryByName c)) in
      mret (relMI, found.1, found.2)
  | None =>
      fc ← newFieldsCollection;
      newMI ← newModel {| Model.name := relModelName;
                          Model.tableName := SnakeCaseString relModelName;
                          Model.fields := fc;
                          Model.methods := ∅;
                          Model.options := Many2ManyLinkModel |};
      ourField ← newField (m2mField newMI model1);
      add fc ourField;;
      theirField ← newField (m2mField newMI model2);
      add fc theirField;;
      Registry_add newMI;;
      mret (newMI, Some ourField, Some theirField)
  end.

End M2M.

(** ** Dependency graph *)

(** [ExprSep] is declared outside the source files; paths are
    dot-separated. *)
Definition ExprSep : ascii := "."%char.

(** [strings.Split] and [strings.Join] at a one-character separator. *)
Fixpoint Split (s : string) (sep : ascii) : list string :=
  match s with
  | EmptyString => [""]
  | String ch s' =>
      if Ascii.eqb ch sep then "" :: Split s' sep
      else match Split s' sep with
           | [] => [String ch ""]
           | w :: ws => String ch w :: ws
           end
  end.

Definition Join (l : list string) (sep : ascii) : string :=
  match l with
  | [] => ""
  | x :: l' => x ++ String.concat "" (map (String sep) l')
  end.

Section Depends.

(** [jsonizeExpr] and [Model.getRelatedModelInfo] are not part of the
    source files: they are parameters, functions that read the program
    state and return ([Some]) or panic ([None]). *)
Variable jsonizeExpr : State → Ptr → list string → option (list string).
Variable getRelatedModelInfo : State → Ptr → string → option Ptr.
Variable rangeMap : mapOrder.

Definition helperPanic : string := "panic in a helper of processDepends".

Definition call {A} (h : State → option A) : M A :=
  λ s, match h s with
       | Some a => Returned a s
       | None => Panicked helperPanic s
       end.

(** [tokens[len(tokens)-1]]. *)
Definition lastToken (tokens : list string) : M string :=
  match last tokens with
  | Some t => mret t
  | None => panic indexOutOfRange
  end.

(** The body of the loop over [fInfo.depends]. *)
Definition processDepString (mi fInfo : Ptr) (depString : string) : M unit :=
  when (negb (bool_decide (depString = "")))
    (tokens ← call (λ s, jsonizeExpr s mi (Split depString ExprSep));
     refName ← lastToken tokens;
     let path := Join (removelast tokens) ExprSep in
     f ← loadField fInfo;
     let targetComputeData := mkComputeData mi (Field.compute f) path in
     refModelInfo ← call (λ s, getRelatedModelInfo s mi path);
     m ← loadModel refModelInfo;
     refField ← MustGet (Model.fields m) refName;
     rf ← loadField refField;
     storeField refField
       (Field.set_dependencies
          (Field.dependencies rf ++ [targetComputeData])%list rf)).

Definition processDependsField (mi fInfo : Ptr) : M unit :=
  f ← loadField fInfo;
  forEach (Field.depends f) (processDepString mi fInfo).

Definition processDependsModel (mi : Ptr) : M unit :=
  m ← loadModel mi;
  c ← loadColl (Model.fields m);
  forEach (rangeMap (FieldsCollection.registryByJSON c))
    (λ e, processDependsField mi e.2).

(** [processDepends] populates the dependencies of each [Field] from the
    depends strings of each [Field] instances. *)
Definition processDepends : M unit :=
  r ← getRegistry;
  forEach (rangeMap (modelCollection.registryByTableName r))
    (λ e, processDependsModel e.2).

End Depends.

(** ** Compute methods *)

Section ComputeMethods.

(** Whether a Go type implements the interface [FieldMapper] is decided
    outside the source files: it is a parameter. *)
Variable implementsFieldMapper : reflect.rtype → bool.
Variable rangeMap : mapOrder.

Definition unknownMethod : string := "Unknown method in model".

(** Modelled from the spec: [MethodsCollection.MustGet] is not part of the
    source files; like [FieldsCollection.MustGet] it returns the method of
    the given name or panics. *)
Definition methodsMustGet (m : Model) (name : string) : M Method :=
  match Model.methods m !! name with
  | Some method => mret method
  | None => panic unknownMethod
  end.

(** The [switch] of [checkMethType]: the message of the first case that
    applies, the empty string when none does. *)
Definition checkMethTypeMsg (methType : reflect.funcType) (stored : bool)
    : string :=
  if negb (reflect.NumIn methType =? 1)%nat then
    "Compute methods should have no arguments"
  else if (reflect.NumOut methType =? 0)%nat then
    "Compute methods should return a value"
  else if negb (from_option implementsFieldMapper false
                  (reflect.Out methType 0)) then
    "First return argument must implement models.FieldMapper"
  else if (reflect.NumOut methType =? 1)%nat && stored then
    "Compute methods for stored field must return fields to unset as second value"
  else if (reflect.NumOut methType =? 2)%nat
          && negb (bool_decide (reflect.Out methType 1
                                = Some reflect.FieldNamerSlice)) then
    "Second return value of compute methods must be []models.FieldNamer"
  else if (2 <? reflect.NumOut methType)%nat then
    "Too many return values for compute method"
  else "".

Definition checkMethType (method : Method) (stored : bool) : M unit :=
  let msg := checkMethTypeMsg (Method.methodType method) stored in
  when (negb (bool_decide (msg = "")))
    (_ ← modelName (Method.model method); panic msg).

Definition checkComputeField (m : Model) (stored : bool) (fi : Ptr) : M unit :=
  f ← loadField fi;
  method ← methodsMustGet m (Field.compute f);
  checkMethType method stored.

Definition checkComputeModel (mi : Ptr) : M unit :=
  m ← loadModel mi;
  c ← loadColl (Model.fields m);
  forEach (FieldsCollection.computedFields c) (checkComputeField m false);;
  c ← loadColl (Model.fields m);
  forEach (FieldsCollection.computedStoredFields c) (checkComputeField m true).

(** [checkComputeMethodsSignature] checks all methods used in computed
    fields and check their signature. It panics if it is not the case. *)
Definition checkComputeMethodsSignature : M unit :=
  r ← getRegistry;
  forEach (rangeMap (modelCollection.registryByName r))
    (λ e, checkComputeModel e.2).

End ComputeMethods.

(** The compute method contract in the words of the specification: no
    argument beyond the receiver, a first result that implements
    [FieldMapper], for a stored field a second result, which is of type
    [[]FieldNamer] when there is one, and no third result. *)
Definition computeSignatureOk (implementsFieldMapper : reflect.rtype → bool)
    (methType : reflect.funcType) (stored : bool) : Prop :=
  length (reflect.ins methType) = 1 ∧
  match reflect.outs methType with
  | [first] => implementsFieldMapper first = true ∧ stored = false
  | [first; second] =>
      implementsFieldMapper first = true ∧ second = reflect.FieldNamerSlice
  | _ => False
  end.

(** ** Record rules *)

Module security.

(** The permission bitmask of the security documentation. *)
Definition Permission := Z.
Definition Read : Permission := 1%Z.
Definition Write : Permission := 2%Z.
Definition Unlink : Permission := 4%Z.
Definition All : Permission := Z.lor Read (Z.lor Write Unlink).

End security.

Section RecordRules.

(** Environments, records and conditions, and the evaluation of a
    condition on a record in an environment, belong to the query layer:
    they are parameters. *)
Variables Environment Record_ Condition : Type.
Variable satisfies : Environment → Condition → Record_ → bool.

(** The [RecordRule] struct of the security documentation; a group is
    known by its name. *)
Record RecordRule := mkRecordRule {
  Name : string;
  Global : bool;
  Group : option string;
  Condition_ : Condition;
  Perms : security.Permission }.

(** [AddRecordRule] registers the rule; if the rule's name already exists,
    the rule is overwritten. [RemoveRecordRule] removes the rule with the
    given name. *)
Definition AddRecordRule (rule : RecordRule)
    (registry : gmap string RecordRule) : gmap string RecordRule :=
  <[Name rule := rule]> registry.

Definition RemoveRecordRule (name : string)
    (registry : gmap string RecordRule) : gmap string RecordRule :=
  delete name registry.

(** A rule governs a permission when the permission is among its
    [Perms]. *)
Definition governs (perm : security.Permission) (r : RecordRule) : bool :=
  negb (Z.land perm (Perms r) =? 0)%Z.

(** The rules that apply to everyone, and the rules scoped to one of the
    acting user's groups. *)
Definition isGlobalRule (perm : security.Permission) (r : RecordRule) : bool :=
  Global r && governs perm r.

Definition isGroupRule (perm : security.Permission) (groups : gset string)
    (r : RecordRule) : bool :=
  negb (Global r) && governs perm r
  && match Group r with
     | Some g => bool_decide (g ∈ groups)
     | None => false
     end.

(** Modelled from the spec: the function that combines the record rules
    of a model is not part of the source files. Global rules are
    subtractive, they must all be matched; group rules are additive, if
    any of them matches (and all global rules match) the record is
    accessible; without an applicable group rule only the global rules
    count. *)
Definition accessible (env : Environment) (perm : security.Permission)
    (groups : gset string) (registry : gmap string RecordRule)
    (rec : Record_) : bool :=
  let rules := (map_to_list registry).*2 in
  forallb (λ r, satisfies env (Condition_ r) rec)
    (List.filter (isGlobalRule perm) rules)
  && match List.filter (isGroupRule perm groups) rules with
     | [] => true
     | applicable =>
         existsb (λ r, satisfies env (Condition_ r) rec) applicable
     end.

End RecordRules.

Arguments mkRecordRule {Condition} Name Global Group Condition_ Perms.
Arguments Name {Condition} r.
Arguments Global {Condition} r.
Arguments Group {Condition} r.
Arguments Condition_ {Condition} r.
Arguments Perms {Condition} r.
Arguments AddRecordRule {Condition} rule registry.
Arguments RemoveRecordRule {Condition} name registry.
Arguments governs {Condition} perm r.
Arguments isGlobalRule {Condition} perm r.
Arguments isGroupRule {Condition} perm groups r.
Arguments accessible {Environment Record_ Condition} satisfies env perm
  groups registry rec.

(** ** FieldsCollection: listings *)

(** A loop that accumulates a result: [for _, x := range l { acc = body
    acc x }]. *)
Fixpoint foldM {A B} (l : list A) (acc : B) (body : B → A → M B) : M B :=
  match l with
  | [] => mret acc
  | x :: l' => acc' ← body acc x; foldM l' acc' body
  end.

(** The inner loop of [storedFieldNames]: [keepField] becomes true at the
    first of [fieldNames] that equals [fName]. *)
Fixpoint nameIn (fName : string) (fieldNames : list string) : bool :=
  match fieldNames with
  | [] => false
  | f :: rest => if bool_decide (fName = f) then true else nameIn fName rest
  end.

Section Listings.

Variable IsNonStoredRelationType : FieldType → bool.
Variable rangeMap : mapOrder.

(** [storedFieldNames] returns a slice with the names of all the stored
    fields. If fields are given, return only names in the list. *)
Definition storedFieldNames (fc : Ptr) (fieldNames : list string)
    : M (list string) :=
  c ← loadColl fc;
  foldM (rangeMap (FieldsCollection.registryByName c)) []
    (λ res e,
       let keepField :=
         if (length fieldNames =? 0)%nat then true
         else nameIn e.1 fieldNames in
       fi ← loadField e.2;
       if isStored IsNonStoredRelationType fi && keepField
       then mret (res ++ [e.1])%list
       else mret res).

(** [relatedNonStoredFieldNames] returns a slice with all the related
    non-stored field names. *)
Definition relatedNonStoredFieldNames (fc : Ptr) : M (list string) :=
  c ← loadColl fc;
  foldM (FieldsCollection.relatedFields c) []
    (λ res fi,
       f ← loadField fi;
       if negb (Field.stored f) then mret (res ++ [Field.name f])%list
       else mret res).

(** [nonRelationFieldJSONNames] returns a slice with the JSON names of all
    the fields that are not relations. *)
Definition nonRelationFieldJSONNames (fc : Ptr) : M (list string) :=
  c ← loadColl fc;
  foldM (rangeMap (FieldsCollection.registryByJSON c)) []
    (λ res e,
       fi ← loadField e.2;
       match Field.relatedModel fi with
       | None => mret (res ++ [e.1])%list
       | Some _ => mret res
       end).

End Listings.

(** [getComputedFields] returns the slice of [Field] of the computed, but
    not stored fields of the given modelName. If fields are given, return
    only [Field] instances in the list. *)
Definition getComputedFields (fc : Ptr) (fields : list string)
    : M (list Ptr) :=
  c ← loadColl fc;
  let fInfos := FieldsCollection.computedFields c in
  if (0 <? length fields)%nat then
    foldM fields []
      (λ fil f,
         foldM fInfos fil
           (λ fil fInfo,
              fi ← loadField fInfo;
              if bool_decide (f = Field.name fi)
                 || bool_decide (f = Field.json fi)
              then mret (fil ++ [fInfo])%list
              else mret fil))
  else mret fInfos.

(** [getComputedStoredFields] returns the slice of [Field] of the computed
    and stored fields of the given modelName. *)
Definition getComputedStoredFields (fc : Ptr) : M (list Ptr) :=
  c ← loadColl fc;
  mret (FieldsCollection.computedStoredFields c).

(** ** Package actions: bootstrap of window actions *)

Module views.

(** [views.ViewType] is a string type; [ViewTuple] is the pair of a view
    id and a view type that the actions file builds. *)
Definition ViewType := string.

Record ViewTuple := mkViewTuple {
  ID : string;
  Type_ : ViewType }.

(** Modelled from the spec: the [View] type is not part of the source
    files; the actions file reads its members [ID] and [Type]. *)
Record View := mkView {
  view_ID : string;
  view_Type : ViewType }.

End views.

#[global] Instance ViewTuple_eq_dec : EqDecision views.ViewTuple.
Proof. solve_decision. Defined.

Module BaseAction.

(** Modelled from the spec: the [BaseAction] type is not part of the
    source files; the members are those that [bootStrapWindowAction] and
    [fixViewModes] read or write. [View] is indexed and measured with
    [len], it is a list of strings. *)
Record t := mk {
  Type_ : string;
  Model : string;
  Target : string;
  AutoSearch : bool;
  ManualSearch : bool;
  ActViewType : string;
  View : list string;
  Views : list views.ViewTuple;
  ViewMode : string }.

Definition set_Views (l : list views.ViewTuple) (a : t) : t :=
  mk (Type_ a) (Model a) (Target a) (AutoSearch a) (ManualSearch a)
     (ActViewType a) (View a) l (ViewMode a).

End BaseAction.

Abbreviation BaseAction := BaseAction.t.

Section Actions.

(** The constants [ActionViewTypeForm], [VIEW_TYPE_TREE] and
    [VIEW_TYPE_LIST], the lookups [views.Registry.GetByID] and
    [views.Registry.GetFirstViewForModel] (which return a pointer, nil
    here being [None]) and [strings.TrimSpace] are declared outside the
    source files: they are parameters. *)
Variable ActionViewTypeForm : string.
Variables VIEW_TYPE_TREE VIEW_TYPE_LIST : views.ViewType.
Variable GetByID : string → option views.View.
Variable GetFirstViewForModel : string → views.ViewType → option views.View.
Variable TrimSpace : string → string.

(** The body of the loop of [fixViewModes] on one view. *)
Definition fixViewMode (v : views.ViewTuple) : views.ViewTuple :=
  views.mkViewTuple (views.ID v)
    (if bool_decide (views.Type_ v = VIEW_TYPE_TREE) then VIEW_TYPE_LIST
     else views.Type_ v).

(** For OpenERP historical reasons, tree views are called 'list' when in
    ActionViewType 'form' and 'tree' when in ActionViewType 'tree'.
    [fixViewModes] makes the necessary changes to the given action. *)
Definition fixViewModes (a : BaseAction) : BaseAction :=
  if bool_decide (BaseAction.ActViewType a = ActionViewTypeForm)
  then BaseAction.set_Views (map fixViewMode (BaseAction.Views a)) a
  else a.

(** The first loop of [bootStrapWindowAction]: is the view [a.View[0]]
    present in [a.Views]? The loop stops at the first hit. *)
Fixpoint viewPresent (view : list string) (l : list views.ViewTuple) : bool :=
  match l with
  | [] => false
  | v :: l' =>
      if negb (bool_decide (views.ID v = "")) && (0 <? length view)%nat
         && bool_decide (Some (views.ID v) = head view)
      then true
      else viewPresent view l'
  end.

(** The inner loop of [modeLoop]: is there a view of type [mode]? *)
Fixpoint hasViewOfType (mode : views.ViewType) (l : list views.ViewTuple)
    : bool :=
  match l with
  | [] => false
  | vRef :: l' =>
      if bool_decide (views.Type_ vRef = mode) then true
      else hasViewOfType mode l'
  end.

(** [modeLoop]: for each mode without a view, the first view of the model
    for this mode is appended to [a.Views]; the lookup of a missing view
    is a nil dereference, which leaves [a.Views] as the earlier modes
    made it. The state is the value of [a.Views]. *)
Fixpoint addViewsOfModes (model : string) (modes : list views.ViewType)
    (l : list views.ViewTuple) : outcome (list views.ViewTuple) unit :=
  match modes with
  | [] => Returned tt l
  | mode :: modes' =>
      if hasViewOfType mode l then addViewsOfModes model modes' l
      else match GetFirstViewForModel model mode with
           | Some view =>
               addViewsOfModes model modes'
                 (l ++ [views.mkViewTuple (views.view_ID view)
                          (views.view_Type view)])
           | None => Panicked nilDereference l
           end
  end.

(** The modes of [a.ViewMode]: the comma-separated entries, trimmed. *)
Definition viewModes (a : BaseAction) : list views.ViewType :=
  map TrimSpace (Split (BaseAction.ViewMode a) ","%char).

(** [bootStrapWindowAction] makes the necessary updates to action
    definitions. In particular: add a few default values, add [View] to
    [Views] if not already present, add all views that are not specified.
    The action is the state: the result is the updated action or the
    panic with the action as it was left. *)
Definition bootStrapWindowAction (a : BaseAction) : outcome BaseAction unit :=
  let a1 :=
    BaseAction.mk (BaseAction.Type_ a) (BaseAction.Model a)
      (if bool_decide (BaseAction.Target a = "") then "current"
       else BaseAction.Target a)
      (negb (BaseAction.ManualSearch a)) (BaseAction.ManualSearch a)
      (if bool_decide (BaseAction.ActViewType a = "") then ActionViewTypeForm
       else BaseAction.ActViewType a)
      (BaseAction.View a) (BaseAction.Views a) (BaseAction.ViewMode a) in
  let present := viewPresent (BaseAction.View a1) (BaseAction.Views a1) in
  let withView :=
    match head (BaseAction.View a1) with
    | Some id =>
        if negb present && negb (bool_decide (id = "")) then
          match GetByID id with
          | Some view =>
              Some (BaseAction.set_Views
                      (BaseAction.Views a1
                       ++ [views.mkViewTuple id (views.view_Type view)])%list
                      a1)
          | None => None
          end
        else Some a1
    | None => Some a1
    end in
  match withView with
  | None => Panicked nilDereference a1
  | Some a2 =>
      match addViewsOfModes (BaseAction.Model a2) (viewModes a2)
              (BaseAction.Views a2) with
      | Returned _ l => Returned tt (fixViewModes (BaseAction.set_Views l a2))
      | Panicked msg l => Panicked msg (BaseAction.set_Views l a2)
      end
  end.

End Actions.

(** * Statements

    The notions the properties below are stated with. *)

(** The field as [checkFieldInfo] leaves it. *)
Definition checkedField (f : Field) : Field :=
  Field.set_stored (Field.stored f && Field.isComputedField f)
    (Field.set_embed
       (Field.embed f && fieldtype.IsFKRelationType (Field.fieldType f)) f).

(** The collection as [register] leaves it, for the validated field [f]
    at address [fInfo]. *)
Definition registerIn (fInfo : Ptr) (f : Field) (c : FieldsCollection)
    : FieldsCollection :=
  FieldsCollection.mk (FieldsCollection.model c)
    (<[Field.name f := fInfo]> (FieldsCollection.registryByName c))
    (<[Field.json f := fInfo]> (FieldsCollection.registryByJSON c))
    (if Field.isComputedField f && negb (Field.stored f)
     then (FieldsCollection.computedFields c ++ [fInfo])%list
     else FieldsCollection.computedFields c)
    (if Field.isComputedField f && Field.stored f
     then (FieldsCollection.computedStoredFields c ++ [fInfo])%list
     else FieldsCollection.computedStoredFields c)
    (if Field.isRelatedField f
     then (FieldsCollection.relatedFields c ++ [fInfo])%list
     else FieldsCollection.relatedFields c)
    (FieldsCollection.bootstrapped c).

(** The state after [checkFieldInfo fi] validated the field [f]. *)
Definition validated (fi : Ptr) (f : Field) (s : State) : State :=
  set_fieldHeap (<[fi := checkedField f]> (fieldHeap s)) s.

(** The fields of a collection: the fields its two registries and its
    three slices point to. *)
Definition fieldOf (c : FieldsCollection) (p : Ptr) : Prop :=
  (∃ n, FieldsCollection.registryByName c !! n = Some p)
  ∨ (∃ n, FieldsCollection.registryByJSON c !! n = Some p)
  ∨ p ∈ FieldsCollection.computedFields c
  ∨ p ∈ FieldsCollection.computedStoredFields c
  ∨ p ∈ FieldsCollection.relatedFields c.

(** The classification invariant of a collection: each of its fields is
    in a slice exactly when its members say so. *)
Definition classified (s : State) (c : FieldsCollection) : Prop :=
  ∀ p, fieldOf c p →
    ∃ f, fieldHeap s !! p = Some f
      ∧ (p ∈ FieldsCollection.computedStoredFields c
         ↔ Field.compute f ≠ "" ∧ Field.stored f = true)
      ∧ (p ∈ FieldsCollection.computedFields c
         ↔ Field.compute f ≠ "" ∧ Field.stored f = false)
      ∧ (p ∈ FieldsCollection.relatedFields c ↔ Field.relatedPath f ≠ "").

(** [built fc ps s]: in state [s] the collection at [fc] is the result of
    [newFieldsCollection] followed by the registration of the fields
    [ps], in this order, through [register] or [add]; in between the
    program may have run any code that leaves the collection alone and
    keeps the names of the fields. *)
Inductive built (fc : Ptr) : list Ptr → State → Prop :=
| built_new s0 s :
    newFieldsCollection s0 = Returned fc s → built fc [] s
| built_register ps fInfo s s' :
    built fc ps s → register fc fInfo s = Returned tt s' →
    built fc (ps ++ [fInfo]) s'
| built_add ps fInfo s s' :
    built fc ps s → add fc fInfo s = Returned tt s' →
    built fc (ps ++ [fInfo]) s'
| built_frame ps s s' :
    built fc ps s →
    collHeap s' !! fc = collHeap s !! fc →
    (∀ p f, fieldHeap s !! p = Some f →
       ∃ f', fieldHeap s' !! p = Some f'
             ∧ Field.name f' = Field.name f ∧ Field.json f' = Field.json f) →
    built fc ps s'.

(** [n] is the Go name, or the JSON name, of one of the fields [ps]. *)
Definition namesField (s : State) (ps : list Ptr) (n : string) : Prop :=
  ∃ p f, p ∈ ps ∧ fieldHeap s !! p = Some f
         ∧ (Field.name f = n ∨ Field.json f = n).

(** The registries of a built collection point to the registered fields,
    each under its own names. *)
Definition tracks (s : State) (c : FieldsCollection) (ps : list Ptr) : Prop :=
  (∀ n p, FieldsCollection.registryByName c !! n = Some p →
     p ∈ ps ∧ ∃ f, fieldHeap s !! p = Some f ∧ Field.name f = n)
  ∧ (∀ n p, FieldsCollection.registryByJSON c !! n = Some p →
       p ∈ ps ∧ ∃ f, fieldHeap s !! p = Some f ∧ Field.json f = n)
  ∧ (∀ p, p ∈ ps →
       ∃ f, fieldHeap s !! p = Some f
            ∧ is_Some (FieldsCollection.registryByName c !! Field.name f)
            ∧ is_Some (FieldsCollection.registryByJSON c !! Field.json f)).

(** ** The contract of compute methods *)

Section ComputeStatements.

Variable implementsFieldMapper : reflect.rtype → bool.

(** The compute method of the field at [fi] exists on the model and has
    the signature of the contract. *)
Definition computeMethodOk (s : State) (m : Model) (stored : bool)
    (fi : Ptr) : Prop :=
  ∃ f method,
    fieldHeap s !! fi = Some f
    ∧ Model.methods m !! Field.compute f = Some method
    ∧ computeSignatureOk implementsFieldMapper (Method.methodType method)
        stored.

(** The compute methods of the computed fields of the model at [mi] exist
    and have the signature of the contract. *)
Definition computeMethodsOk (s : State) (mi : Ptr) : Prop :=
  ∃ m c,
    modelHeap s !! mi = Some m
    ∧ collHeap s !! Model.fields m = Some c
    ∧ (∀ fi, fi ∈ FieldsCollection.computedFields c →
         computeMethodOk s m false fi)
    ∧ (∀ fi, fi ∈ FieldsCollection.computedStoredFields c →
         computeMethodOk s m true fi).

End ComputeStatements.

(** ** Back-edges of the dependency graph *)

(** [refField.dependencies = append(refField.dependencies, cd)]. *)
Definition appendDependency (refField : Ptr) (cd : computeData) (s : State)
    : State :=
  match fieldHeap s !! refField with
  | Some rf =>
      set_fieldHeap
        (<[refField := Field.set_dependencies
                         (Field.dependencies rf ++ [cd])%list rf]>
           (fieldHeap s)) s
  | None => s
  end.

Definition applyEdges (edges : list (Ptr * computeData)) (s : State) : State :=
  foldl (λ s e, appendDependency e.1 e.2 s) s edges.


Section BackEdges.

Variable jsonizeExpr : State → Ptr → list string → option (list string).
Variable getRelatedModelInfo : State → Ptr → string → option Ptr.
Variable rangeMap : mapOrder.

(** The helpers do not read the [dependencies] of the fields. *)
Definition ignoresDependencies {A B C} (h : State → A → B → C) : Prop :=
  ∀ refField cd s a b, h (appendDependency refField cd s) a b = h s a b.

(** The back-edge that the depends path [depString] of a field of the
    model [mi] with compute method [compute] asks for: the terminal field
    and the [computeData] to append to its dependencies. *)
Definition backEdge (s : State) (mi : Ptr) (compute depString : string)
    : option (Ptr * computeData) :=
  tokens ← jsonizeExpr s mi (Split depString ExprSep);
  refName ← last tokens;
  let path := Join (removelast tokens) ExprSep in
  refModelInfo ← getRelatedModelInfo s mi path;
  m ← modelHeap s !! refModelInfo;
  c ← collHeap s !! Model.fields m;
  refField ← get_ c refName;
  _ ← fieldHeap s !! refField;
  Some (refField, mkComputeData mi compute path).

(** The back-edges of a list of depends paths, of a field, of a model and
    of the whole registry, in the order of the loops: one for each
    non-empty depends path. *)
Definition backEdgesOfPaths (s : State) (mi : Ptr) (compute : string)
    (paths : list string) : list (Ptr * computeData) :=
  omap (λ depString,
          if bool_decide (depString = "") then None
          else backEdge s mi compute depString) paths.

Definition backEdgesOfField (s : State) (mi fInfo : Ptr)
    : list (Ptr * computeData) :=
  match fieldHeap s !! fInfo with
  | Some f => backEdgesOfPaths s mi (Field.compute f) (Field.depends f)
  | None => []
  end.

Definition backEdgesOfModel (s : State) (mi : Ptr)
    : list (Ptr * computeData) :=
  match modelHeap s !! mi with
  | Some m =>
      match collHeap s !! Model.fields m with
      | Some c =>
          flat_map (λ e, backEdgesOfField s mi e.2)
            (rangeMap (FieldsCollection.registryByJSON c))
      | None => []
      end
  | None => []
  end.

Definition backEdges (s : State) : list (Ptr * computeData) :=
  flat_map (λ e, backEdgesOfModel s e.2)
    (rangeMap (modelCollection.registryByTableName (Registry s))).

(** The depends paths of a field all resolve to a back-edge. *)
Definition pathsResolve (s : State) (mi : Ptr) (f : Field) : Prop :=
  ∀ depString, depString ∈ Field.depends f → depString ≠ "" →
    is_Some (backEdge s mi (Field.compute f) depString).

(** The fields of the JSON registry of a model all resolve their depends
    paths. *)
Definition modelResolves (s : State) (mi : Ptr) : Prop :=
  ∃ m c, modelHeap s !! mi = Some m
         ∧ collHeap s !! Model.fields m = Some c
         ∧ ∀ jn fInfo,
             FieldsCollection.registryByJSON c !! jn = Some fInfo →
             ∃ f, fieldHeap s !! fInfo = Some f ∧ pathsResolve s mi f.

End BackEdges.

(** ** Validation passes *)

(** The pointer [mp] of type [*Model] can be dereferenced. *)
Definition hasModel (s : State) (mp : option Ptr) : Prop :=
  ∃ p m, mp = Some p ∧ modelHeap s !! p = Some m.

(** The conditions under which [checkFieldInfo] goes through on the field
    [f]: a reverse relation names its foreign key; the related model of a
    field of Go type [RecordCollection] is there and has a name; and
    where a warning is logged, the model of the field, whose name the
    warning shows, is there. *)
Definition passesCheck (s : State) (f : Field) : Prop :=
  ¬ (fieldtype.IsReverseRelationType (Field.fieldType f) = true
     ∧ Field.reverseFK f = "")
  ∧ (Field.embed f = true →
     fieldtype.IsFKRelationType (Field.fieldType f) = false →
     hasModel s (Field.model f))
  ∧ (reflect.Type_ (Field.structField f) = Some reflect.RecordCollection →
     ∃ p m, Field.relatedModel f = Some p ∧ modelHeap s !! p = Some m
            ∧ Model.name m ≠ "")
  ∧ (Field.stored f = true → Field.compute f = "" →
     hasModel s (Field.model f)).

(** ** Frames

    What the functions leave alone. *)

(** The states that [checkFieldInfo fi] can leave behind when it starts
    with the field [f] at [fi]. *)
Definition flagsLowered (fi : Ptr) (f : Field) (s s' : State) : Prop :=
  ∃ e st,
    s' = set_fieldHeap
           (<[fi := Field.set_stored st (Field.set_embed e f)]> (fieldHeap s)) s
    ∧ (e = true → Field.embed f = true)
    ∧ (st = true → Field.stored f = true).

(** [processDepends] can only have appended to the [dependencies] of the
    fields between [s] and [s']. *)
Definition dependenciesGrown (s s' : State) : Prop :=
  collHeap s' = collHeap s ∧ modelHeap s' = modelHeap s
  ∧ Registry s' = Registry s
  ∧ ∀ p, match fieldHeap s !! p with
         | Some f =>
             ∃ l, fieldHeap s' !! p
                  = Some (Field.set_dependencies
                            (Field.dependencies f ++ l)%list f)
         | None => fieldHeap s' !! p = None
         end.

(** ** Listings *)

(** The field at [p] goes by the name [n], its Go name or its JSON
    name. *)
Definition named (s : State) (n : string) (p : Ptr) : bool :=
  match fieldHeap s !! p with
  | Some f => bool_decide (n = Field.name f) || bool_decide (n = Field.json f)
  | None => false
  end.

(** The fields that a registry or a slice points to are allocated. *)
Definition allocatedIn (s : State) (m : gmap string Ptr) : Prop :=
  ∀ n p, m !! n = Some p → is_Some (fieldHeap s !! p).

(** ** Window actions *)

Section ActionStatements.

Variable ActionViewTypeForm : string.
Variable GetByID : string → option views.View.

(** The action once [bootStrapWindowAction] has set the default values. *)
Definition withDefaults (a : BaseAction) : BaseAction :=
  BaseAction.mk (BaseAction.Type_ a) (BaseAction.Model a)
    (if bool_decide (BaseAction.Target a = "") then "current"
     else BaseAction.Target a)
    (negb (BaseAction.ManualSearch a)) (BaseAction.ManualSearch a)
    (if bool_decide (BaseAction.ActViewType a = "") then ActionViewTypeForm
     else BaseAction.ActViewType a)
    (BaseAction.View a) (BaseAction.Views a) (BaseAction.ViewMode a).

(** The views once [a.View[0]] has been added if it was not present; [None]
    when its lookup is a nil dereference. *)
Definition withView (a : BaseAction) : option (list views.ViewTuple) :=
  match head (BaseAction.View a) with
  | Some id =>
      if negb (viewPresent (BaseAction.View a) (BaseAction.Views a))
         && negb (bool_decide (id = ""))
      then view ← GetByID id;
           Some (BaseAction.Views a
                 ++ [views.mkViewTuple id (views.view_Type view)])%list
      else Some (BaseAction.Views a)
  | None => Some (BaseAction.Views a)
  end.

End ActionStatements.

(** ** Sample registries

    Concrete states on which the functions are run: a model [Partner] at
    address 1 with its collection at address 1, and one field at
    address 1. *)

Definition sampleField (name json : string) (typ : FieldType)
    (stored : bool) (compute relatedPath reverseFK : string)
    (depends : list string) : Field :=
  {| Field.model := Some 1%positive;
     Field.name := name;
     Field.json := json;
     Field.description := "";
     Field.help := "";
     Field.stored := stored;
     Field.required := false;
     Field.unique := false;
     Field.index := false;
     Field.compute := compute;
     Field.depends := depends;
     Field.relatedModelName := "";
     Field.relatedModel := None;
     Field.reverseFK := reverseFK;
     Field.m2mRelModel := None;
     Field.m2mOurField := None;
     Field.m2mTheirField := None;
     Field.fieldType := typ;
     Field.groupOperator := "";
     Field.size := 0;
     Field.structField := reflect.mkStructField name None;
     Field.relatedPath := relatedPath;
     Field.dependencies := [];
     Field.embed := false;
     Field.noCopy := false;
     Field.onDelete := "";
     Field.translate := false |}.

Definition sampleModel : Model :=
  Model.mk "Partner" "partner" 1%positive ∅ 0.

Definition sampleRegistry : modelCollection.t :=
  modelCollection.mk {["Partner" := 1%positive]} {["partner" := 1%positive]}.

Definition sampleState (f : Field) : State :=
  mkState {[1%positive := f]} {[1%positive := emptyFieldsCollection]}
    {[1%positive := sampleModel]} sampleRegistry.

(** A one2many field without foreign key, a related field flagged as
    stored, and a stored computed field. *)
Definition childrenField : Field :=
  sampleField "Children" "children_ids" fieldtype.One2Many false "" "" "" [].

Definition countryNameField : Field :=
  sampleField "CountryName" "country_name" fieldtype.Char true ""
    "Country.Name" "" [].

Definition displayNameField : Field :=
  sampleField "DisplayName" "display_name" fieldtype.Char true
    "computeDisplayName" "" "" ["Name"].

(** The sample state once [DisplayName] has been added to the
    collection. *)
Definition displayNameAdded : State :=
  final (add 1%positive 1%positive (sampleState displayNameField)).

(** A model with two fields, [DisplayName] (computed from [Name] and
    stored) and [Name], both added to its collection. *)
Definition nameField : Field :=
  sampleField "Name" "name" fieldtype.Char false "" "" "" [].

Definition twoFieldsStart : State :=
  mkState {[1%positive := displayNameField; 2%positive := nameField]}
    {[1%positive := emptyFieldsCollection]} {[1%positive := sampleModel]}
    sampleRegistry.

Definition twoFieldsAdded : State :=
  final (add 1%positive 2%positive
           (final (add 1%positive 1%positive twoFieldsStart))).

(** Helpers for depends paths that are written with the names under
    which the fields are registered and that stay on the model: the
    expression is kept as it is, and only the empty path is followed. *)
Definition keepExpr (s : State) (mi : Ptr) (exprs : list string)
    : option (list string) :=
  Some exprs.

Definition sameModel (s : State) (mi : Ptr) (path : string) : option Ptr :=
  if bool_decide (path = "") then Some mi else None.

(** The iteration order in which [map_to_list] lists a map. *)
Definition listOrder : mapOrder := λ m, map_to_list m.

(** The model [Partner] with the compute method of [DisplayName], of the
    given result types, and the field registered. *)
Definition partnerSet : reflect.rtype := reflect.Named "PartnerSet".
Definition partnerData : reflect.rtype := reflect.Named "PartnerData".

Definition isPartnerData (t : reflect.rtype) : bool :=
  bool_decide (t = partnerData).

Definition computeState (outs : list reflect.rtype) : State :=
  mkState {[1%positive := displayNameField]}
    {[1%positive := registerIn 1%positive displayNameField
                      emptyFieldsCollection]}
    {[1%positive :=
        Model.mk "Partner" "partner" 1%positive
          {["computeDisplayName" :=
              Method.mk "computeDisplayName" (Some 1%positive)
                (reflect.mkFuncType [partnerSet] outs)]} 0]}
    sampleRegistry.

(** Stand-ins for [strutils.SnakeCaseString] and the option
    [Many2ManyLinkModel] in the sample runs. *)
Definition sampleSnakeCase (n : string) : string := n.
Definition sampleLinkOption : Z := 4.

(** Record rules on a model whose records carry an active flag, an owner
    and a department: one global rule and two group rules, for reading. *)
Inductive sampleCondition : Type :=
| IsActive
| OwnerIsCurrentUser
| DepartmentIs (d : string).

Definition sampleRecord : Type := bool * nat * string.

Definition sampleSatisfies (uid : nat) (c : sampleCondition)
    (rec : sampleRecord) : bool :=
  match c with
  | IsActive => rec.1.1
  | OwnerIsCurrentUser => bool_decide (rec.1.2 = uid)
  | DepartmentIs d => bool_decide (rec.2 = d)
  end.

Definition sampleRules : gmap string (RecordRule sampleCondition) :=
  AddRecordRule (mkRecordRule "active" true None IsActive security.Read)
    (AddRecordRule
       (mkRecordRule "own" false (Some "G1") OwnerIsCurrentUser security.Read)
       (AddRecordRule
          (mkRecordRule "sales" false (Some "G2") (DepartmentIs "Sales")
             security.All)
          ∅)).

(** The state in which [newFieldsCollection] allocates the collection of
    the sample states. *)
Definition sampleStart (f : Field) : State :=
  mkState {[1%positive := f]} ∅ {[1%positive := sampleModel]} sampleRegistry.

(** The field [Name] with the embed flag set, which only makes sense on
    a many2one or one2one field. *)
Definition embeddedNameField : Field := Field.set_embed true nameField.

(** A computed field that is not stored, and the sample state once it has
    been added to the collection. *)
Definition ageField : Field :=
  sampleField "Age" "age" fieldtype.Char false "computeAge" "" "" [].

Definition ageAdded : State :=
  final (add 1%positive 1%positive (sampleState ageField)).

(** The sample state once the junction model [PartnerTagRel] of the models
    [Partner] and [Tag] has been created. *)
Definition junctionCreated : State :=
  final (createM2MRelModelInfo sampleSnakeCase sampleLinkOption listOrder
           "PartnerTagRel" "Partner" "Tag" (sampleState nameField)).

(** A field whose depends strings are all empty, and the sample state once
    it has been added to the collection. *)
Definition blankDependsField : Field :=
  sampleField "Name" "name" fieldtype.Char false "" "" "" [""; ""].

Definition blankDependsAdded : State :=
  final (add 1%positive 1%positive (sampleState blankDependsField)).

(** A view registry that knows the view [partner_form] and has a first
    view of every type for every model, and window actions to bootstrap:
    one that names [partner_form] and asks for the modes tree and form,
    one that has a tree view, and one that names an unknown view. Tree,
    list and form are the type names; the modes are written without
    spaces. *)
Definition sampleGetByID (id : string) : option views.View :=
  if bool_decide (id = "partner_form")
  then Some (views.mkView "partner_form" "form") else None.

Definition sampleFirstView (model : string) (t : views.ViewType)
    : option views.View :=
  Some (views.mkView (model ++ "_" ++ t) t).

Definition sampleBootStrap (a : BaseAction) : outcome BaseAction unit :=
  bootStrapWindowAction "form" "tree" "list" sampleGetByID sampleFirstView
    (λ m, m) a.

Definition sampleAction : BaseAction :=
  BaseAction.mk "ir.actions.act_window" "Partner" "" false false ""
    ["partner_form"] [] "tree,form".

Definition treeAction : BaseAction :=
  BaseAction.mk "ir.actions.act_window" "Partner" "current" true false "form"
    [] [views.mkViewTuple "partner_tree" "tree"] "tree".

Definition unknownViewAction : BaseAction :=
  BaseAction.mk "ir.actions.act_window" "Partner" "" false true ""
    ["partner_kanban"] [] "form".

(** Two models: [Partner] at address 1 with the fields [DisplayName],
    [Name], [Country] and [Label], and [Country] at address 2 with the
    field [Name]. [DisplayName] is computed from the partner's name and
    from the name of its country, [Label] from the name of its country. *)
Definition onModel (mp : Ptr) (f : Field) : Field :=
  Field.mk (Some mp) (Field.name f) (Field.json f) (Field.description f)
    (Field.help f) (Field.stored f) (Field.required f) (Field.unique f)
    (Field.index f) (Field.compute f) (Field.depends f)
    (Field.relatedModelName f) (Field.relatedModel f) (Field.reverseFK f)
    (Field.m2mRelModel f) (Field.m2mOurField f) (Field.m2mTheirField f)
    (Field.fieldType f) (Field.groupOperator f) (Field.size f)
    (Field.structField f) (Field.relatedPath f) (Field.dependencies f)
    (Field.embed f) (Field.noCopy f) (Field.onDelete f) (Field.translate f).

Definition fullNameField : Field :=
  sampleField "DisplayName" "display_name" fieldtype.Char true
    "computeDisplayName" "" "" ["Name"; "Country.Name"].

Definition countryField : Field :=
  sampleField "Country" "country_id" fieldtype.Many2One false "" "" "" [].

Definition labelField : Field :=
  sampleField "Label" "label" fieldtype.Char true "computeLabel" "" ""
    ["Country.Name"; ""].

Definition nameOfCountryField : Field := onModel 2%positive nameField.

Definition countryModel : Model :=
  Model.mk "Country" "country" 2%positive ∅ 0.

Definition twoModelsStart : State :=
  mkState
    {[1%positive := fullNameField; 2%positive := nameField;
      3%positive := countryField; 4%positive := labelField;
      5%positive := nameOfCountryField]}
    {[1%positive := emptyFieldsCollection;
      2%positive := emptyFieldsCollection]}
    {[1%positive := sampleModel; 2%positive := countryModel]}
    (modelCollection.mk
       {["Partner" := 1%positive; "Country" := 2%positive]}
       {["partner" := 1%positive; "country" := 2%positive]}).

Definition twoModelsAdded : State :=
  final (add 2%positive 5%positive
    (final (add 1%positive 4%positive
      (final (add 1%positive 3%positive
        (final (add 1%positive 2%positive
          (final (add 1%positive 1%positive twoModelsStart))))))))).

(** Helpers for these models: [jsonNames] rewrites the segments of a path
    to JSON names, and [followCountry] follows the path through the
    country of a partner, written either way. *)
Definition jsonNames (s : State) (mi : Ptr) (exprs : list string)
    : option (list string) :=
  Some (map (λ e, if bool_decide (e = "Country") then "country_id"
                  else if bool_decide (e = "Name") then "name" else e)
          exprs).

Definition followCountry (s : State) (mi : Ptr) (path : string)
    : option Ptr :=
  if bool_decide (path = "") then Some mi
  else if bool_decide (path = "Country") || bool_decide (path = "country_id")
       then Some 2%positive
       else None.

(** The iteration order opposite to [listOrder]. *)
Definition reverseOrder : mapOrder := λ m, reverse (map_to_list m).






(** * Properties *)

(** ** Computations *)

Lemma bind_unfold {A B} (c : M A) (k : A → M B) s :
  (c ≫= k) s =
  match c s with
  | Returned a s' => k a s'
  | Panicked msg s' => Panicked msg s'
  end.
Proof. reflexivity. Qed.

Lemma bind_Returned {A B} (c : M A) (k : A → M B) s a s' :
  c s = Returned a s' → (c ≫= k) s = k a s'.
Proof. intros H. by rewrite bind_unfold, H. Qed.

Lemma bind_inv {A B} (c : M A) (k : A → M B) s b s2 :
  (c ≫= k) s = Returned b s2 →
  ∃ a s1, c s = Returned a s1 ∧ k a s1 = Returned b s2.
Proof. rewrite bind_unfold. destruct (c s); [eauto | done]. Qed.

Lemma loadField_Some p f s :
  fieldHeap s !! p = Some f → loadField p s = Returned f s.
Proof. unfold loadField. by intros ->. Qed.

Lemma loadColl_Some p c s :
  collHeap s !! p = Some c → loadColl p s = Returned c s.
Proof. unfold loadColl. by intros ->. Qed.

Lemma loadModel_Some p m s :
  modelHeap s !! p = Some m → loadModel p s = Returned m s.
Proof. unfold loadModel. by intros ->. Qed.

Lemma loadField_inv p f s s' :
  loadField p s = Returned f s' → fieldHeap s !! p = Some f ∧ s' = s.
Proof. unfold loadField. destruct (_ !! _); naive_solver. Qed.

Lemma loadColl_inv p c s s' :
  loadColl p s = Returned c s' → collHeap s !! p = Some c ∧ s' = s.
Proof. unfold loadColl. destruct (_ !! _); naive_solver. Qed.

Lemma loadModel_inv p m s s' :
  loadModel p s = Returned m s' → modelHeap s !! p = Some m ∧ s' = s.
Proof. unfold loadModel. destruct (_ !! _); naive_solver. Qed.

Lemma modelName_final mp s : final (modelName mp s) = s.
Proof.
  destruct mp as [p|]; [|done]. unfold modelName.
  rewrite bind_unfold. unfold loadModel. by destruct (_ !! _).
Qed.

Lemma modelName_inv mp n s s' :
  modelName mp s = Returned n s' → s' = s.
Proof. intros H. by rewrite <- (modelName_final mp s), H. Qed.

(** ** Field validation *)

Lemma set_embed_id f b : Field.embed f = b → Field.set_embed b f = f.
Proof. intros <-. by destruct f. Qed.

Lemma set_stored_id f b : Field.stored f = b → Field.set_stored b f = f.
Proof. intros <-. by destruct f. Qed.

Lemma set_fieldHeap_id s : set_fieldHeap (fieldHeap s) s = s.
Proof. by destruct s. Qed.

Lemma logWarn_inv f s s' : logWarn f s = Returned tt s' → s' = s.
Proof.
  unfold logWarn. intros (n & s1 & ->%modelName_inv & H)%bind_inv.
  by inversion H.
Qed.

Lemma logPanic_panics {A} msg f s : panics (logPanic (A:=A) msg f s).
Proof.
  unfold logPanic. rewrite bind_unfold.
  by destruct (modelName (Field.model f) s).
Qed.

Lemma logPanic_final {A} msg f s : final (logPanic (A:=A) msg f s) = s.
Proof.
  unfold logPanic. rewrite bind_unfold.
  pose proof (modelName_final (Field.model f) s) as H.
  by destruct (modelName (Field.model f) s).
Qed.

Lemma logPanic_not_Returned {A} msg f s (a : A) s' :
  logPanic msg f s ≠ Returned a s'.
Proof.
  intros H. pose proof (logPanic_panics (A:=A) msg f s) as Hp.
  by rewrite H in Hp.
Qed.

Lemma checkFieldInfo_Returned fi s s' :
  checkFieldInfo fi s = Returned tt s' →
  ∃ f, fieldHeap s !! fi = Some f
       ∧ s' = validated fi f s
       ∧ (fieldtype.IsReverseRelationType (Field.fieldType f) = true →
          Field.reverseFK f ≠ "").
Proof.
  unfold checkFieldInfo. intros H.
  apply bind_inv in H as (f & s1 & [Hf ->]%loadField_inv & H).
  exists f. split; [done|]. unfold validated.
  apply bind_inv in H as ([] & s1 & H1 & H).
  apply bind_inv in H as ([] & s2 & H2 & H).
  apply bind_inv in H as (f2 & s3 & [Hf2 ->]%loadField_inv & H).
  apply bind_inv in H as ([] & s3 & H3 & H4).
  assert (s1 = s ∧ (fieldtype.IsReverseRelationType (Field.fieldType f) = true →
          Field.reverseFK f ≠ "")) as [-> Hrev].
  { unfold when in H1. destruct (fieldtype.IsReverseRelationType _); simpl in H1.
    - destruct (bool_decide (Field.reverseFK f = "")) eqn:Hfk;
        [by apply logPanic_not_Returned in H1|].
      apply bool_decide_eq_false in Hfk. inversion H1; done.
    - inversion H1; done. }
  split; [|done].
  assert (s3 = s2) as ->.
  { unfold when in H3. destruct (bool_decide (reflect.Type_ _ = _)); [|by inversion H3].
    apply bind_inv in H3 as (rn & s4 & ->%modelName_inv & H3).
    destruct (bool_decide (rn = "")); [by apply logPanic_not_Returned in H3|by inversion H3]. }
  assert (s2 = set_fieldHeap (<[fi := Field.set_embed
       (Field.embed f && fieldtype.IsFKRelationType (Field.fieldType f)) f]> (fieldHeap s)) s) as ->.
  { unfold when in H2. destruct (Field.embed f) eqn:He; simpl in *.
    - destruct (fieldtype.IsFKRelationType _); simpl in *.
      + inversion H2; subst. rewrite set_embed_id, insert_id, set_fieldHeap_id; done.
      + apply bind_inv in H2 as ([] & s4 & ->%logWarn_inv & H2). by inversion H2.
    - inversion H2; subst. rewrite set_embed_id, insert_id, set_fieldHeap_id; done. }
  simpl in Hf2. rewrite lookup_insert_eq in Hf2. inversion Hf2; subst f2; clear Hf2 H1 H2 H3.
  unfold checkedField.
  remember (Field.set_embed
              (Field.embed f && fieldtype.IsFKRelationType (Field.fieldType f)) f)
    as f1 eqn:Hf1.
  assert (Field.stored f = Field.stored f1) as -> by by subst.
  assert (Field.isComputedField f = Field.isComputedField f1) as -> by by subst.
  clear Hf1. unfold when in H4.
  destruct (Field.stored f1) eqn:Hs; simpl in *.
  - destruct (Field.isComputedField f1); simpl in *.
    + inversion H4; subst. by rewrite set_stored_id.
    + apply bind_inv in H4 as ([] & s4 & ->%logWarn_inv & H4). inversion H4.
      unfold set_fieldHeap; simpl. by rewrite insert_insert_eq.
  - inversion H4; subst. by rewrite set_stored_id.
Qed.

Lemma register_Returned fc fInfo s s' :
  register fc fInfo s = Returned tt s' →
  ∃ c f, collHeap s !! fc = Some c ∧ fieldHeap s !! fInfo = Some f
    ∧ checkFieldInfo fInfo s = Returned tt (validated fInfo f s)
    ∧ s' = set_collHeap
             (<[fc := registerIn fInfo (checkedField f) c]> (collHeap s))
             (validated fInfo f s).
Proof.
  unfold register. intros H.
  apply bind_inv in H as (c0 & s1 & [Hc0 ->]%loadColl_inv & H).
  apply bind_inv in H as ([] & s1 & H1 & H).
  destruct (checkFieldInfo_Returned _ _ _ H1) as (f & Hf & -> & _).
  apply bind_inv in H as (f1 & s2 & [Hf1 ->]%loadField_inv & H).
  apply bind_inv in H as (c & s2 & [Hc ->]%loadColl_inv & H).
  simpl in Hf1, Hc. rewrite lookup_insert_eq in Hf1.
  inversion Hf1; subst f1; clear Hf1.
  rewrite Hc0 in Hc. inversion Hc; subst c0; clear Hc.
  exists c, f. repeat split; try done. by inversion H.
Qed.

Lemma register_run fc fInfo c f s :
  collHeap s !! fc = Some c → fieldHeap s !! fInfo = Some f →
  returns (checkFieldInfo fInfo s) →
  register fc fInfo s =
  Returned tt
    (set_collHeap (<[fc := registerIn fInfo (checkedField f) c]> (collHeap s))
       (validated fInfo f s)).
Proof.
  intros Hc Hf Hr. destruct (checkFieldInfo fInfo s) as [[] s1|] eqn:H1; [|done].
  destruct (checkFieldInfo_Returned _ _ _ H1) as (f' & Hf' & -> & _).
  assert (f' = f) as -> by congruence.
  unfold register.
  rewrite (bind_Returned _ _ _ _ _ (loadColl_Some _ _ _ Hc)).
  rewrite (bind_Returned _ _ _ _ _ H1).
  erewrite bind_Returned; last by (apply loadField_Some; simpl; apply lookup_insert_eq).
  erewrite bind_Returned; last by (apply loadColl_Some; simpl; exact Hc).
  done.
Qed.

Lemma register_panics_of_check fc fInfo s :
  panics (checkFieldInfo fInfo s) → panics (register fc fInfo s).
Proof.
  intros Hp. unfold register. rewrite bind_unfold. unfold loadColl.
  destruct (collHeap s !! fc); [|done]. rewrite bind_unfold.
  by destruct (checkFieldInfo fInfo s).
Qed.

Lemma checkFieldInfo_missing_FK fi f s :
  fieldHeap s !! fi = Some f →
  fieldtype.IsReverseRelationType (Field.fieldType f) = true →
  Field.reverseFK f = "" →
  checkFieldInfo fi s = logPanic missingReverseFK f s.
Proof.
  intros Hf Hrev Hfk. unfold checkFieldInfo.
  rewrite (bind_Returned _ _ _ _ _ (loadField_Some _ _ _ Hf)).
  rewrite Hrev, Hfk. simpl. rewrite bind_unfold.
  pose proof (logPanic_panics (A:=()) missingReverseFK f s).
  by destruct (logPanic missingReverseFK f s).
Qed.

Lemma add_existing fc fInfo c f p s :
  collHeap s !! fc = Some c → fieldHeap s !! fInfo = Some f →
  FieldsCollection.registryByName c !! Field.name f = Some p →
  add fc fInfo s = logPanic alreadyExistingField f s.
Proof.
  intros Hc Hf Hp. unfold add.
  rewrite (bind_Returned _ _ _ _ _ (loadColl_Some _ _ _ Hc)).
  rewrite (bind_Returned _ _ _ _ _ (loadField_Some _ _ _ Hf)).
  by rewrite Hp.
Qed.

Lemma add_fresh fc fInfo c f s :
  collHeap s !! fc = Some c → fieldHeap s !! fInfo = Some f →
  FieldsCollection.registryByName c !! Field.name f = None →
  add fc fInfo s = register fc fInfo s.
Proof.
  intros Hc Hf Hp. unfold add.
  rewrite (bind_Returned _ _ _ _ _ (loadColl_Some _ _ _ Hc)).
  rewrite (bind_Returned _ _ _ _ _ (loadField_Some _ _ _ Hf)).
  by rewrite Hp.
Qed.

Lemma add_panics_of_check fc fInfo s :
  panics (checkFieldInfo fInfo s) → panics (add fc fInfo s).
Proof.
  intros Hp. unfold add. rewrite bind_unfold. unfold loadColl.
  destruct (collHeap s !! fc) as [c|] eqn:Hc; [|done].
  rewrite bind_unfold. unfold loadField.
  destruct (fieldHeap s !! fInfo) as [f|] eqn:Hf; [|done].
  destruct (_ !! Field.name f); [apply logPanic_panics|].
  by apply register_panics_of_check.
Qed.

(** C5. A field of a reverse-relation type (one2many or rev2one) that
    names no foreign key does not pass validation: [checkFieldInfo]
    panics on it and leaves the state as it is, and so do [register] and
    [add] on any collection, so that no such field is ever registered. *)
Theorem reverse_relation_without_FK_panics fi f s :
  fieldHeap s !! fi = Some f →
  fieldtype.IsReverseRelationType (Field.fieldType f) = true →
  Field.reverseFK f = "" →
  panics (checkFieldInfo fi s) ∧ final (checkFieldInfo fi s) = s
  ∧ ∀ fc, panics (register fc fi s) ∧ panics (add fc fi s).
Proof.
  intros Hf Hrev Hfk.
  assert (panics (checkFieldInfo fi s)) as Hp.
  { rewrite (checkFieldInfo_missing_FK _ _ _ Hf Hrev Hfk).
    apply logPanic_panics. }
  split; [done|]. split.
  - rewrite (checkFieldInfo_missing_FK _ _ _ Hf Hrev Hfk).
    apply logPanic_final.
  - intros fc. split; [by apply register_panics_of_check|].
    by apply add_panics_of_check.
Qed.

Lemma reverse_relation_without_FK_panics_witness :
  fieldHeap (sampleState childrenField) !! 1%positive = Some childrenField
  ∧ panics (checkFieldInfo 1%positive (sampleState childrenField))
  ∧ panics (add 1%positive 1%positive (sampleState childrenField)).
Proof.
  split; [reflexivity|].
  destruct (reverse_relation_without_FK_panics 1%positive childrenField
              (sampleState childrenField)) as (H1 & _ & H2);
    [reflexivity | reflexivity | reflexivity |].
  split; [exact H1 | exact (proj2 (H2 1%positive))].
Defined.

(** Every field that [register] files in a collection has passed the
    check: a registered field of a reverse-relation type names its
    foreign key. *)
Lemma registered_reverse_relation_has_FK fc fi s s' :
  register fc fi s = Returned tt s' →
  ∃ f, fieldHeap s' !! fi = Some f
       ∧ (fieldtype.IsReverseRelationType (Field.fieldType f) = true →
          Field.reverseFK f ≠ "").
Proof.
  intros (c & f & Hc & Hf & Hchk & ->)%register_Returned.
  destruct (checkFieldInfo_Returned _ _ _ Hchk) as (f' & Hf' & _ & Hrev).
  assert (f' = f) as -> by congruence.
  exists (checkedField f). split; [simpl; apply lookup_insert_eq|].
  exact Hrev.
Qed.

(** C7. After field validation the field is not stored without a compute
    method: when [checkFieldInfo] returns, a field whose stored flag is
    true has a non-empty compute method name. *)
Theorem checkFieldInfo_stored_has_compute fi s s' :
  checkFieldInfo fi s = Returned tt s' →
  ∃ f, fieldHeap s' !! fi = Some f
       ∧ (Field.stored f = true → Field.compute f ≠ "").
Proof.
  intros (f & Hf & -> & _)%checkFieldInfo_Returned.
  exists (checkedField f). split; [simpl; apply lookup_insert_eq|].
  unfold checkedField, Field.isComputedField. simpl.
  intros [_ Hc%negb_true_iff%bool_decide_eq_false]%andb_true_iff. done.
Qed.

Lemma checkFieldInfo_stored_has_compute_witness :
  checkFieldInfo 1%positive (sampleState displayNameField)
  = Returned tt (sampleState displayNameField)
  ∧ ∃ f, fieldHeap (sampleState displayNameField) !! 1%positive = Some f
         ∧ (Field.stored f = true → Field.compute f ≠ "").
Proof.
  split; [reflexivity|].
  apply (checkFieldInfo_stored_has_compute 1%positive
           (sampleState displayNameField)).
  reflexivity.
Defined.

(** C3, the failing inputs. A related field (non-empty related path, no
    compute method) declared with the store flag is a stored field for
    [isStored] as it is declared, unless its type is never stored. It
    does not remain one: when [checkFieldInfo] returns, it has reset the
    stored flag, the field is still a related field, and [isStored]
    reports false, whatever the non-stored relation types are; and
    [register] files the field among the related fields of the
    collection, not among the computed ones. *)
Theorem related_field_store_flag_is_reset IsNonStoredRelationType fi f s :
  fieldHeap s !! fi = Some f →
  Field.relatedPath f ≠ "" → Field.compute f = "" → Field.stored f = true →
  (IsNonStoredRelationType (Field.fieldType f) = false →
   isStored IsNonStoredRelationType f = true)
  ∧ (∀ s', checkFieldInfo fi s = Returned tt s' →
       ∃ f', fieldHeap s' !! fi = Some f'
             ∧ Field.relatedPath f' = Field.relatedPath f
             ∧ Field.stored f' = false
             ∧ isStored IsNonStoredRelationType f' = false)
  ∧ (∀ fc c s', collHeap s !! fc = Some c →
       register fc fi s = Returned tt s' →
       ∃ c', collHeap s' !! fc = Some c'
             ∧ FieldsCollection.computedStoredFields c'
               = FieldsCollection.computedStoredFields c
             ∧ FieldsCollection.computedFields c'
               = FieldsCollection.computedFields c
             ∧ FieldsCollection.relatedFields c'
               = (FieldsCollection.relatedFields c ++ [fi])%list).
Proof.
  intros Hf Hrel Hcomp Hst.
  assert (Field.isComputedField (checkedField f) = false) as Hnc.
  { unfold Field.isComputedField.
    change (Field.compute (checkedField f)) with (Field.compute f).
    by rewrite Hcomp. }
  assert (Field.isRelatedField (checkedField f) = true) as Hr.
  { unfold Field.isRelatedField.
    change (Field.relatedPath (checkedField f)) with (Field.relatedPath f).
    by rewrite bool_decide_eq_false_2. }
  split; [|split].
  - intros Htype. unfold isStored. by rewrite Htype, Hst, andb_false_r.
  - intros s' (f0 & Hf0 & -> & _)%checkFieldInfo_Returned.
    assert (f0 = f) as -> by congruence.
    exists (checkedField f). split; [simpl; apply lookup_insert_eq|].
    split; [done|].
    assert (Field.stored (checkedField f) = false) as Hs.
    { unfold checkedField, Field.isComputedField. simpl.
      rewrite Hcomp. apply andb_false_r. }
    split; [done|]. unfold isStored.
    destruct (IsNonStoredRelationType _); [done|].
    by rewrite Hs, Hr, orb_true_r.
  - intros fc c s' Hc (c0 & f0 & Hc0 & Hf0 & _ & ->)%register_Returned.
    assert (c0 = c) as -> by congruence.
    assert (f0 = f) as -> by congruence.
    exists (registerIn fi (checkedField f) c).
    split; [simpl; apply lookup_insert_eq|].
    unfold registerIn. simpl. by rewrite Hnc, Hr.
Qed.

Lemma related_field_store_flag_is_reset_witness :
  Field.relatedPath countryNameField ≠ ""
  ∧ Field.compute countryNameField = ""
  ∧ Field.stored countryNameField = true
  ∧ isStored (λ _, false) countryNameField = true
  ∧ ∃ f', fieldHeap (validated 1%positive countryNameField
                       (sampleState countryNameField)) !! 1%positive = Some f'
          ∧ Field.relatedPath f' = Field.relatedPath countryNameField
          ∧ Field.stored f' = false
          ∧ isStored (λ _, false) f' = false.
Proof.
  split; [discriminate|]. split; [reflexivity|]. split; [reflexivity|].
  destruct (related_field_store_flag_is_reset (λ _, false) 1%positive
              countryNameField (sampleState countryNameField))
    as (Hdeclared & Hchecked & _);
    [reflexivity | discriminate | reflexivity | reflexivity |].
  split; [exact (Hdeclared eq_refl)|].
  apply Hchecked. reflexivity.
Defined.

(** The failing input on the sample registry: the related field
    [CountryName], declared with the store flag, passes validation and
    comes out with the stored flag false, and [isStored] is false on
    it. *)
Example related_stored_field_sample_run :
  Field.isRelatedField countryNameField = true
  ∧ Field.isComputedField countryNameField = false
  ∧ Field.stored countryNameField = true
  ∧ ∃ s' f', checkFieldInfo 1%positive (sampleState countryNameField)
             = Returned tt s'
             ∧ fieldHeap s' !! 1%positive = Some f'
             ∧ Field.stored f' = false
             ∧ ∀ IsNonStoredRelationType,
                 isStored IsNonStoredRelationType f' = false.
Proof.
  split; [reflexivity|]. split; [reflexivity|]. split; [reflexivity|].
  exists (validated 1%positive countryNameField (sampleState countryNameField)),
         (checkedField countryNameField).
  split; [reflexivity|]. split; [reflexivity|]. split; [reflexivity|].
  intros P. unfold isStored. by destruct (P _).
Qed.

(** C9. [add] on a field whose name is already in the by-name registry
    panics and leaves the state, hence the collection, unchanged; on a
    field with a fresh name that passes validation it returns, and the
    field is then registered under both its Go name and its JSON name (a
    field with a fresh name that fails validation makes [add] panic). *)
Theorem add_duplicate_panics_fresh_registers fc fInfo c f s :
  collHeap s !! fc = Some c → fieldHeap s !! fInfo = Some f →
  (is_Some (FieldsCollection.registryByName c !! Field.name f) →
     panics (add fc fInfo s) ∧ final (add fc fInfo s) = s)
  ∧ (FieldsCollection.registryByName c !! Field.name f = None →
     (returns (checkFieldInfo fInfo s) →
        ∃ s' c', add fc fInfo s = Returned tt s'
          ∧ collHeap s' !! fc = Some c'
          ∧ FieldsCollection.registryByName c' !! Field.name f = Some fInfo
          ∧ FieldsCollection.registryByJSON c' !! Field.json f = Some fInfo)
     ∧ (panics (checkFieldInfo fInfo s) → panics (add fc fInfo s))).
Proof.
  intros Hc Hf. split.
  - intros [p Hp]. rewrite (add_existing _ _ _ _ _ _ Hc Hf Hp).
    split; [apply logPanic_panics | apply logPanic_final].
  - intros Hfresh. split; [|apply add_panics_of_check].
    intros Hchk. rewrite (add_fresh _ _ _ _ _ Hc Hf Hfresh).
    rewrite (register_run _ _ _ _ _ Hc Hf Hchk).
    eexists _, _. split; [done|]. simpl.
    split; [apply lookup_insert_eq|]. simpl.
    split; apply lookup_insert_eq.
Qed.

Lemma add_duplicate_panics_fresh_registers_witness :
  returns (add 1%positive 1%positive (sampleState displayNameField))
  ∧ panics (add 1%positive 1%positive displayNameAdded)
  ∧ final (add 1%positive 1%positive displayNameAdded) = displayNameAdded.
Proof.
  split.
  - destruct (add_duplicate_panics_fresh_registers 1%positive 1%positive
                emptyFieldsCollection displayNameField
                (sampleState displayNameField)) as [_ H];
      [reflexivity | reflexivity |].
    destruct H as [H _]; [reflexivity|].
    destruct H as (s' & c' & -> & _); [exact I|]. exact I.
  - destruct (add_duplicate_panics_fresh_registers 1%positive 1%positive
                (registerIn 1%positive displayNameField emptyFieldsCollection)
                displayNameField displayNameAdded) as [H _];
      [reflexivity | reflexivity |].
    apply H. by exists 1%positive.
Defined.

(** ** The classification invariant *)

Lemma classified_empty s : classified s emptyFieldsCollection.
Proof.
  intros p [[n Hn]|[[n Hn]|[H|[H|H]]]]; simpl in *;
    solve [by rewrite lookup_empty in Hn | by apply elem_of_nil in H].
Qed.

Lemma fieldOf_registerIn fInfo f c p :
  fieldOf (registerIn fInfo f c) p → p = fInfo ∨ fieldOf c p.
Proof.
  unfold fieldOf, registerIn. simpl.
  intros [[n Hn]|[[n Hn]|[H|[H|H]]]].
  - destruct (decide (Field.name f = n)) as [Heq|Hne].
    + subst n. rewrite lookup_insert_eq in Hn. left. congruence.
    + rewrite lookup_insert_ne in Hn by done. right. left. eauto.
  - destruct (decide (Field.json f = n)) as [Heq|Hne].
    + subst n. rewrite lookup_insert_eq in Hn. left. congruence.
    + rewrite lookup_insert_ne in Hn by done. right. right. left. eauto.
  - destruct (_ && _); [|by auto 6].
    apply elem_of_app in H as [H|H%list_elem_of_singleton]; auto 6.
  - destruct (_ && _); [|by auto 6].
    apply elem_of_app in H as [H|H%list_elem_of_singleton]; auto 6.
  - destruct (Field.isRelatedField f); [|by auto 6].
    apply elem_of_app in H as [H|H%list_elem_of_singleton]; auto 6.
Qed.

Lemma isComputedField_true f :
  Field.isComputedField f = true ↔ Field.compute f ≠ "".
Proof.
  unfold Field.isComputedField.
  rewrite negb_true_iff, bool_decide_eq_false. done.
Qed.

Lemma isRelatedField_true f :
  Field.isRelatedField f = true ↔ Field.relatedPath f ≠ "".
Proof.
  unfold Field.isRelatedField.
  rewrite negb_true_iff, bool_decide_eq_false. done.
Qed.

Lemma checkedField_stored_computed f :
  Field.compute f ≠ "" →
  Field.stored (checkedField f) = Field.stored f.
Proof.
  intros H%isComputedField_true. unfold checkedField. simpl.
  change (Field.stored f && Field.isComputedField f = Field.stored f).
  rewrite H. apply andb_true_r.
Qed.

(** C10. Registering a field preserves the classification invariant of the
    collection: if before the call every field of the collection is in
    [computedStoredFields] exactly when it has a compute method and is
    stored, in [computedFields] exactly when it has a compute method and
    is not stored, and in [relatedFields] exactly when it has a related
    path, then the same holds after [register] returns, the registered
    field included; and no field is in both computed slices. *)
Theorem register_preserves_classification fc fInfo c s s' :
  collHeap s !! fc = Some c → classified s c →
  register fc fInfo s = Returned tt s' →
  ∃ c', collHeap s' !! fc = Some c'
        ∧ fieldOf c' fInfo
        ∧ classified s' c'
        ∧ ∀ p, ¬ (p ∈ FieldsCollection.computedFields c'
                  ∧ p ∈ FieldsCollection.computedStoredFields c').
Proof.
  intros Hc Hcl (c0 & f & Hc0 & Hf & _ & ->)%register_Returned.
  assert (c0 = c) as -> by congruence.
  assert (Field.compute f ≠ "" →
          Field.stored (checkedField f) = Field.stored f) as Hst
    by apply checkedField_stored_computed.
  assert (Field.compute (checkedField f) = Field.compute f) as Hcomp by done.
  assert (Field.relatedPath (checkedField f) = Field.relatedPath f) as Hrel
    by done.
  unfold validated. remember (checkedField f) as f1 eqn:Hf1. clear Hf1.
  exists (registerIn fInfo f1 c).
  split; [simpl; apply lookup_insert_eq|].
  split; [left; exists (Field.name f1); simpl; apply lookup_insert_eq|].
  assert (classified
            (set_collHeap (<[fc:=registerIn fInfo f1 c]> (collHeap s))
               (set_fieldHeap (<[fInfo:=f1]> (fieldHeap s)) s))
            (registerIn fInfo f1 c)) as Hcl'.
  { intros p Hp. simpl.
    destruct (decide (p = fInfo)) as [->|Hne].
    - exists f1. split; [apply lookup_insert_eq|].
      assert (fInfo ∈ FieldsCollection.computedStoredFields c →
              Field.compute f1 ≠ "" ∧ Field.stored f1 = true) as Hin1.
      { intros Hin. destruct (Hcl fInfo) as (f' & Hf' & [H _] & _);
          [unfold fieldOf; auto 6|].
        assert (f' = f) as -> by congruence.
        destruct (H Hin) as [? ?]. rewrite Hcomp, Hst; done. }
      assert (fInfo ∈ FieldsCollection.computedFields c →
              Field.compute f1 ≠ "" ∧ Field.stored f1 = false) as Hin2.
      { intros Hin. destruct (Hcl fInfo) as (f' & Hf' & _ & [H _] & _);
          [unfold fieldOf; auto 6|].
        assert (f' = f) as -> by congruence.
        destruct (H Hin) as [? ?]. rewrite Hcomp, Hst; done. }
      assert (fInfo ∈ FieldsCollection.relatedFields c →
              Field.relatedPath f1 ≠ "") as Hin3.
      { intros Hin. destruct (Hcl fInfo) as (f' & Hf' & _ & _ & [H _]);
          [unfold fieldOf; auto 6|].
        assert (f' = f) as -> by congruence. rewrite Hrel. by apply H. }
      unfold registerIn; simpl.
      rewrite <- !isComputedField_true, <- isRelatedField_true in *.
      revert Hin1 Hin2 Hin3.
      generalize (Field.isComputedField f1) (Field.stored f1)
                 (Field.isRelatedField f1).
      intros [] [] [] Hin1 Hin2 Hin3; simpl;
        rewrite ?elem_of_app, ?list_elem_of_singleton;
        intuition (auto; congruence).
    - destruct (fieldOf_registerIn _ _ _ _ Hp) as [?|Hp']; [done|].
      destruct (Hcl p Hp') as (f' & Hf' & Hin1 & Hin2 & Hin3).
      exists f'. split; [by rewrite lookup_insert_ne|].
      unfold registerIn; simpl.
      generalize (Field.isComputedField f1) (Field.stored f1)
                 (Field.isRelatedField f1).
      intros [] [] []; simpl;
        rewrite ?elem_of_app, ?list_elem_of_singleton;
        intuition (auto; congruence). }
  split; [done|].
  intros p [Hp1 Hp2].
  destruct (Hcl' p) as (f' & _ & [Hin1 _] & [Hin2 _] & _);
    [unfold fieldOf; auto 6|].
  destruct (Hin1 Hp2) as [_ ?]. destruct (Hin2 Hp1) as [_ ?]. congruence.
Qed.

Lemma register_preserves_classification_witness :
  classified (sampleState displayNameField) emptyFieldsCollection
  ∧ ∃ c', collHeap displayNameAdded !! 1%positive = Some c'
          ∧ fieldOf c' 1%positive
          ∧ classified displayNameAdded c'
          ∧ ∀ p, ¬ (p ∈ FieldsCollection.computedFields c'
                    ∧ p ∈ FieldsCollection.computedStoredFields c').
Proof.
  split; [apply classified_empty|].
  apply (register_preserves_classification 1%positive 1%positive
           emptyFieldsCollection (sampleState displayNameField));
    [reflexivity | apply classified_empty | reflexivity].
Defined.

(** ** Lookup *)

Lemma MustGet_eval fc c n s :
  collHeap s !! fc = Some c →
  MustGet fc n s =
  match get_ c n with
  | Some p => Returned p s
  | None => Panicked unknownField s
  end.
Proof.
  intros Hc. unfold MustGet, get.
  rewrite bind_unfold, bind_unfold, (loadColl_Some _ _ _ Hc). simpl.
  by destruct (get_ c n).
Qed.

Lemma get__Some c n p :
  get_ c n = Some p ↔
  FieldsCollection.registryByName c !! n = Some p
  ∨ (FieldsCollection.registryByName c !! n = None
     ∧ FieldsCollection.registryByJSON c !! n = Some p).
Proof.
  unfold get_. destruct (_ !! n) as [q|]; split.
  - intros [= ->]. by left.
  - intros [H|[H _]]; done.
  - intros H. by right.
  - intros [H|[_ H]]; done.
Qed.

Lemma insert_keeps_Some (m : gmap string Ptr) k v k' :
  is_Some (m !! k') → is_Some (<[k := v]> m !! k').
Proof.
  intros H. destruct (decide (k = k')) as [->|Hne].
  - rewrite lookup_insert_eq. eauto.
  - by rewrite lookup_insert_ne.
Qed.

Lemma add_Returned fc fInfo s s' :
  add fc fInfo s = Returned tt s' → register fc fInfo s = Returned tt s'.
Proof.
  unfold add. intros H.
  apply bind_inv in H as (c & s1 & [Hc ->]%loadColl_inv & H).
  apply bind_inv in H as (f & s1 & [Hf ->]%loadField_inv & H).
  destruct (_ !! Field.name f); [by apply logPanic_not_Returned in H|done].
Qed.

Lemma tracks_register fc fInfo c ps s s' :
  collHeap s !! fc = Some c → tracks s c ps →
  register fc fInfo s = Returned tt s' →
  ∃ c', collHeap s' !! fc = Some c' ∧ tracks s' c' (ps ++ [fInfo]).
Proof.
  intros Hc (Hn & Hj & Hps) (c0 & f & Hc0 & Hf & _ & ->)%register_Returned.
  assert (c0 = c) as -> by congruence.
  exists (registerIn fInfo (checkedField f) c).
  split; [simpl; apply lookup_insert_eq|].
  assert (∀ p f', fieldHeap s !! p = Some f' →
            ∃ f'', <[fInfo := checkedField f]> (fieldHeap s) !! p = Some f''
                   ∧ Field.name f'' = Field.name f'
                   ∧ Field.json f'' = Field.json f') as Hkeep.
  { intros p f' Hp. destruct (decide (p = fInfo)) as [->|Hne].
    - exists (checkedField f). rewrite lookup_insert_eq.
      assert (f' = f) as -> by congruence. done.
    - exists f'. by rewrite lookup_insert_ne. }
  split; [|split]; simpl.
  - intros n p Hp. destruct (decide (Field.name (checkedField f) = n)) as [Heq|Hne].
    + subst n. rewrite lookup_insert_eq in Hp. inversion Hp; subst p.
      split; [apply elem_of_app; right; by apply list_elem_of_singleton|].
      exists (checkedField f). by rewrite lookup_insert_eq.
    + rewrite lookup_insert_ne in Hp by done.
      destruct (Hn n p Hp) as (Hin & f' & Hf' & Hname).
      split; [apply elem_of_app; by left|].
      destruct (Hkeep p f' Hf') as (f'' & ? & ? & ?).
      exists f''. split; [done|congruence].
  - intros n p Hp. destruct (decide (Field.json (checkedField f) = n)) as [Heq|Hne].
    + subst n. rewrite lookup_insert_eq in Hp. inversion Hp; subst p.
      split; [apply elem_of_app; right; by apply list_elem_of_singleton|].
      exists (checkedField f). by rewrite lookup_insert_eq.
    + rewrite lookup_insert_ne in Hp by done.
      destruct (Hj n p Hp) as (Hin & f' & Hf' & Hname).
      split; [apply elem_of_app; by left|].
      destruct (Hkeep p f' Hf') as (f'' & ? & ? & ?).
      exists f''. split; [done|congruence].
  - intros p [Hin|Hin%list_elem_of_singleton]%elem_of_app.
    + destruct (Hps p Hin) as (f' & Hf' & Hn' & Hj').
      destruct (Hkeep p f' Hf') as (f'' & ? & Hname & Hjson).
      exists f''. split; [done|]. rewrite Hname, Hjson.
      split; by apply insert_keeps_Some.
    + subst p. exists (checkedField f). rewrite lookup_insert_eq.
      split; [done|]. split; rewrite lookup_insert_eq; eauto.
Qed.

Lemma built_tracks fc ps s :
  built fc ps s → ∃ c, collHeap s !! fc = Some c ∧ tracks s c ps.
Proof.
  induction 1 as [s0 s Hnew|ps fInfo s s' _ (c & Hc & Ht) Hreg
                 |ps fInfo s s' _ (c & Hc & Ht) Hadd
                 |ps s s' _ (c & Hc & Hn & Hj & Hps) Hcoll Hnames].
  - unfold newFieldsCollection, newColl in Hnew. inversion Hnew; subst.
    exists emptyFieldsCollection. split; [simpl; apply lookup_insert_eq|].
    split; [|split]; simpl.
    + intros n p Hp. by rewrite lookup_empty in Hp.
    + intros n p Hp. by rewrite lookup_empty in Hp.
    + intros p Hp. by apply elem_of_nil in Hp.
  - by eapply tracks_register.
  - apply add_Returned in Hadd. by eapply tracks_register.
  - exists c. split; [congruence|]. split; [|split].
    + intros n p Hp. destruct (Hn n p Hp) as (Hin & f & Hf & Hname).
      split; [done|]. destruct (Hnames p f Hf) as (f' & ? & ? & ?).
      exists f'. split; [done|congruence].
    + intros n p Hp. destruct (Hj n p Hp) as (Hin & f & Hf & Hname).
      split; [done|]. destruct (Hnames p f Hf) as (f' & ? & ? & ?).
      exists f'. split; [done|congruence].
    + intros p Hin. destruct (Hps p Hin) as (f & Hf & Hn' & Hj').
      destruct (Hnames p f Hf) as (f' & ? & Hname & Hjson).
      exists f'. by rewrite Hname, Hjson.
Qed.

(** C8. On every collection built by registration, for every string [n]:
    [MustGet] leaves the state as it is; when it returns a field, that
    field is one of the registered fields and [n] is its Go name or its
    JSON name; it returns exactly when [n] is the Go name or the JSON name
    of a registered field, and panics exactly when [n] is neither; and
    when [n] is the Go name of a registered field, the field returned has
    the Go name [n], also when [n] is the JSON name of another field. *)
Theorem MustGet_finds_exactly_registered_names fc ps s n :
  built fc ps s →
  final (MustGet fc n s) = s
  ∧ (∀ p s', MustGet fc n s = Returned p s' →
       p ∈ ps ∧ ∃ f, fieldHeap s !! p = Some f
                     ∧ (Field.name f = n ∨ Field.json f = n))
  ∧ (returns (MustGet fc n s) ↔ namesField s ps n)
  ∧ (panics (MustGet fc n s) ↔ ¬ namesField s ps n)
  ∧ ((∃ p f, p ∈ ps ∧ fieldHeap s !! p = Some f ∧ Field.name f = n) →
     ∃ p f, MustGet fc n s = Returned p s
            ∧ fieldHeap s !! p = Some f ∧ Field.name f = n).
Proof.
  intros (c & Hc & Hn & Hj & Hps)%built_tracks.
  rewrite (MustGet_eval _ _ _ _ Hc).
  assert (∀ p, get_ c n = Some p →
            p ∈ ps ∧ ∃ f, fieldHeap s !! p = Some f
                          ∧ (Field.name f = n ∨ Field.json f = n)) as Hsound.
  { intros p [Hp|[_ Hp]]%get__Some.
    - destruct (Hn n p Hp) as (? & f & ? & ?). eauto 6.
    - destruct (Hj n p Hp) as (? & f & ? & ?). eauto 6. }
  assert (namesField s ps n → is_Some (get_ c n)) as Hcomplete.
  { intros (p & f & Hin & Hf & Hname).
    destruct (Hps p Hin) as (f' & Hf' & [q Hq] & [q' Hq']).
    assert (f' = f) as -> by congruence.
    unfold get_. destruct Hname as [<-|<-].
    - rewrite Hq. eauto.
    - destruct (FieldsCollection.registryByName c !! Field.json f);
        [eauto|]. rewrite Hq'. eauto. }
  split; [by destruct (get_ c n)|].
  split.
  { intros p s' H. destruct (get_ c n) as [q|] eqn:Hq; [|done].
    inversion H; subst. by apply Hsound. }
  split.
  { destruct (get_ c n) as [q|] eqn:Hq; simpl.
    - split; [intros _|done].
      destruct (Hsound q eq_refl) as (? & f & ? & ?). by exists q, f.
    - split; [done|]. intros [q Hq']%Hcomplete. done. }
  split.
  { destruct (get_ c n) as [q|] eqn:Hq; simpl.
    - split; [done|]. intros Hnot. apply Hnot.
      destruct (Hsound q eq_refl) as (? & f & ? & ?). by exists q, f.
    - split; [intros _|done]. intros [q Hq']%Hcomplete. done. }
  intros (p & f & Hin & Hf & Hname).
  destruct (Hps p Hin) as (f' & Hf' & [q Hq] & _).
  assert (f' = f) as -> by congruence. rewrite Hname in Hq.
  unfold get_. rewrite Hq.
  destruct (Hn n q Hq) as (_ & fq & Hfq & Hnq). by exists q, fq.
Qed.

Lemma MustGet_finds_exactly_registered_names_witness :
  built 1%positive [1%positive] displayNameAdded
  ∧ MustGet 1%positive "display_name" displayNameAdded
    = Returned 1%positive displayNameAdded
  ∧ panics (MustGet 1%positive "Name" displayNameAdded).
Proof.
  assert (built 1%positive [1%positive] displayNameAdded) as Hb.
  { apply (built_add 1%positive [] 1%positive (sampleState displayNameField)).
    - apply (built_new 1%positive (sampleStart displayNameField)). reflexivity.
    - reflexivity. }
  split; [exact Hb|].
  split; [reflexivity|].
  apply (MustGet_finds_exactly_registered_names 1%positive [1%positive]
           displayNameAdded "Name" Hb).
  intros (p & f & Hp%list_elem_of_singleton & Hf & Hname). subst p.
  vm_compute in Hf. inversion Hf; subst f.
  destruct Hname as [Hname|Hname]; discriminate Hname.
Defined.

(** ** The junction model of a many2many relation *)

Section M2MProperties.

Variable SnakeCaseString : string → string.
Variable Many2ManyLinkModel : Z.
Variable rangeMap : mapOrder.

Lemma fresh_not_allocated {A} (h : gmap Ptr A) : h !! fresh (dom h) = None.
Proof. apply not_elem_of_dom. apply is_fresh. Qed.

Lemma checkFieldInfo_m2mField p newMI target m s :
  fieldHeap s !! p = Some (m2mField SnakeCaseString newMI target) →
  modelHeap s !! newMI = Some m →
  checkFieldInfo p s = Returned tt s.
Proof.
  intros Hp Hm. unfold checkFieldInfo.
  rewrite (bind_Returned _ _ _ _ _ (loadField_Some _ _ _ Hp)). simpl.
  rewrite bind_unfold. simpl. rewrite bind_unfold. simpl.
  rewrite (bind_Returned _ _ _ _ _ (loadField_Some _ _ _ Hp)). simpl.
  done.
Qed.

Lemma add_m2mField fc c p newMI target m s :
  collHeap s !! fc = Some c →
  fieldHeap s !! p = Some (m2mField SnakeCaseString newMI target) →
  modelHeap s !! newMI = Some m →
  FieldsCollection.registryByName c !! target = None →
  add fc p s =
  Returned tt
    (set_collHeap
       (<[fc := registerIn p (m2mField SnakeCaseString newMI target) c]>
          (collHeap s)) s).
Proof.
  intros Hc Hp Hm Hfresh.
  rewrite (add_fresh _ _ _ _ _ Hc Hp) by done.
  rewrite (register_run _ _ _ _ _ Hc Hp)
    by by rewrite (checkFieldInfo_m2mField _ _ _ _ _ Hp Hm).
  unfold validated.
  replace (checkedField (m2mField SnakeCaseString newMI target))
    with (m2mField SnakeCaseString newMI target) by done.
  rewrite (insert_id (fieldHeap s) p) by done. by destruct s.
Qed.


Lemma findM2MFields_app model1 model2 l e :
  findM2MFields model1 model2 (l ++ [e]) =
  let acc := findM2MFields model1 model2 l in
  if bool_decide (e.1 = model1) then (Some e.2, acc.2)
  else if bool_decide (e.1 = model2) then (acc.1, Some e.2)
  else acc.
Proof. unfold findM2MFields. by rewrite foldl_app. Qed.

(** The loop finds the field filed under [model1], and the field filed
    under [model2] unless the two names are the same, in whatever order
    the entries come. *)
Lemma findM2MFields_lookup model1 model2 (m : gmap string Ptr) l :
  l ≡ₚ map_to_list m →
  findM2MFields model1 model2 l =
  (m !! model1, if bool_decide (model1 = model2) then None else m !! model2).
Proof.
  intros Hl.
  assert (NoDup l.*1) as Hnd by (rewrite Hl; apply NoDup_fst_map_to_list).
  assert (∀ k v, (k, v) ∈ l ↔ m !! k = Some v) as Hin.
  { intros k v. rewrite Hl. apply elem_of_map_to_list. }
  clear Hl. revert m Hin.
  induction l as [|e l IH] using rev_ind; intros m Hin.
  - assert (m = ∅) as ->.
    { apply map_eq. intros k. rewrite lookup_empty.
      destruct (m !! k) as [v|] eqn:Hk; [|done].
      apply Hin in Hk. by apply elem_of_nil in Hk. }
    rewrite !lookup_empty. by case_bool_decide.
  - destruct e as [k v]. rewrite fmap_app in Hnd.
    apply NoDup_app in Hnd as (Hnd & Hk & _).
    assert (k ∉ l.*1) as Hk'.
    { intros Hkl. apply (Hk k Hkl). simpl. apply list_elem_of_here. }
    rewrite findM2MFields_app.
    rewrite (IH Hnd (delete k m)); last first.
    { intros k' v'. rewrite lookup_delete_Some, <- Hin, elem_of_app,
        list_elem_of_singleton.
      split.
      - intros H. split; [|by left].
        intros <-. apply Hk'. apply list_elem_of_fmap. by exists (k, v').
      - intros [Hne [H|[= -> ->]]]; done. }
    assert (m !! k = Some v) as Hmk.
    { apply Hin. apply elem_of_app. right. by apply list_elem_of_singleton. }
    simpl. repeat case_bool_decide; simplify_eq;
      rewrite ?lookup_delete_eq, ?lookup_delete_ne by done; try done.
    all: by rewrite ?Hmk.
Qed.


Abbreviation createM2M :=
  (createM2MRelModelInfo SnakeCaseString Many2ManyLinkModel rangeMap).

Lemma Registry_Get_eval name s :
  Registry_Get name s
  = Returned (modelCollection.registryByName (Registry s) !! name) s.
Proof. reflexivity. Qed.

(** When the junction model exists it is returned as it is, with the
    fields its by-name registry files under [model1] and [model2]; the
    second field is nil when the two names are the same. *)
Lemma createM2MRelModelInfo_existing relModelName model1 model2 relMI m c s :
  enumerates rangeMap →
  modelCollection.registryByName (Registry s) !! relModelName = Some relMI →
  modelHeap s !! relMI = Some m →
  collHeap s !! Model.fields m = Some c →
  createM2M relModelName model1 model2 s =
  Returned
    (relMI,
     FieldsCollection.registryByName c !! model1,
     if bool_decide (model1 = model2) then None
     else FieldsCollection.registryByName c !! model2)
    s.
Proof.
  intros Hrange Hreg Hm Hc. unfold createM2MRelModelInfo.
  rewrite (bind_Returned _ _ _ _ _ (Registry_Get_eval _ _)), Hreg.
  rewrite (bind_Returned _ _ _ _ _ (loadModel_Some _ _ _ Hm)).
  rewrite (bind_Returned _ _ _ _ _ (loadColl_Some _ _ _ Hc)).
  by rewrite (findM2MFields_lookup model1 model2 _ _ (Hrange _)).
Qed.

(** The state after the junction model and its first field have been
    allocated and the field added. *)
Lemma createM2MRelModelInfo_first_add relModelName model1 s :
  let fc := fresh (dom (collHeap s)) in
  let newMI := fresh (dom (modelHeap s)) in
  let ourField := fresh (dom (fieldHeap s)) in
  let mi := Model.mk relModelName (SnakeCaseString relModelName) fc ∅
              Many2ManyLinkModel in
  let s3 := set_fieldHeap
              (<[ourField := m2mField SnakeCaseString newMI model1]>
                 (fieldHeap s))
              (set_modelHeap (<[newMI := mi]> (modelHeap s))
                 (set_collHeap (<[fc := emptyFieldsCollection]> (collHeap s))
                    s)) in
  add fc ourField s3 =
  Returned tt
    (set_collHeap
       (<[fc := registerIn ourField (m2mField SnakeCaseString newMI model1)
                  emptyFieldsCollection]> (collHeap s3)) s3).
Proof.
  intros fc newMI ourField mi s3.
  apply (add_m2mField _ _ _ _ _ mi); simpl; by rewrite ?lookup_insert_eq.
Qed.


Lemma logPanic_eval {A} msg f p m s :
  Field.model f = Some p → modelHeap s !! p = Some m →
  logPanic (A:=A) msg f s = Panicked msg s.
Proof.
  intros Hp Hm. unfold logPanic, modelName. rewrite Hp.
  rewrite bind_unfold, bind_unfold, (loadModel_Some _ _ _ Hm). done.
Qed.

(** C6, the failing input. For a relation of a model with itself
    ([model1] and [model2] are the same name) and a junction model that
    does not exist yet, [createM2MRelModelInfo] panics on the second [add],
    with the message of an already existing field: it returns no junction
    model and registers none. *)
Theorem createM2MRelModelInfo_self_relation_panics relModelName model s :
  modelCollection.registryByName (Registry s) !! relModelName = None →
  ∃ s', createM2M relModelName model model s
        = Panicked alreadyExistingField s'
        ∧ Registry s' = Registry s.
Proof.
  intros Hreg. unfold createM2MRelModelInfo.
  rewrite (bind_Returned _ _ _ _ _ (Registry_Get_eval _ _)), Hreg.
  unfold newFieldsCollection.
  rewrite bind_unfold. unfold newColl at 1. cbv beta zeta.
  rewrite bind_unfold. unfold newModel at 1. cbv beta zeta.
  rewrite bind_unfold. unfold newField at 1. cbv beta zeta.
  rewrite bind_unfold.
  pose proof (createM2MRelModelInfo_first_add relModelName model s) as Hadd.
  cbv zeta in Hadd. simpl in Hadd |- *. rewrite Hadd. clear Hadd.
  rewrite bind_unfold. unfold newField at 1. cbv beta zeta.
  rewrite bind_unfold.
  erewrite add_existing; cycle 1.
  { simpl. apply lookup_insert_eq. }
  { simpl. apply lookup_insert_eq. }
  { simpl. apply lookup_insert_eq. }
  erewrite logPanic_eval; [|reflexivity|simpl; apply lookup_insert_eq].
  eexists. split; reflexivity.
Qed.


(** For two different model names and a junction model that does not exist
    yet, [createM2MRelModelInfo] allocates the junction model, a link
    model with the given name, files it in the registry and returns it
    with its two fields: the collection of the model holds exactly the
    fields named [model1] and [model2], as [m2mField] describes them. *)
Lemma createM2MRelModelInfo_creates relModelName model1 model2 s :
  modelCollection.registryByName (Registry s) !! relModelName = None →
  model1 ≠ model2 →
  ∃ newMI ourField theirField fc c s',
    createM2M relModelName model1 model2 s
    = Returned (newMI, Some ourField, Some theirField) s'
    ∧ modelHeap s !! newMI = None
    ∧ modelCollection.registryByName (Registry s') !! relModelName
      = Some newMI
    ∧ modelHeap s' !! newMI
      = Some (Model.mk relModelName (SnakeCaseString relModelName) fc ∅
                Many2ManyLinkModel)
    ∧ collHeap s' !! fc = Some c
    ∧ FieldsCollection.registryByName c
      = {[model1 := ourField; model2 := theirField]}
    ∧ ourField ≠ theirField
    ∧ fieldHeap s' !! ourField
      = Some (m2mField SnakeCaseString newMI model1)
    ∧ fieldHeap s' !! theirField
      = Some (m2mField SnakeCaseString newMI model2).
Proof.
  intros Hreg Hne. unfold createM2MRelModelInfo.
  rewrite (bind_Returned _ _ _ _ _ (Registry_Get_eval _ _)), Hreg.
  unfold newFieldsCollection.
  rewrite bind_unfold. unfold newColl at 1. cbv beta zeta.
  rewrite bind_unfold. unfold newModel at 1. cbv beta zeta.
  rewrite bind_unfold. unfold newField at 1. cbv beta zeta.
  rewrite bind_unfold.
  pose proof (createM2MRelModelInfo_first_add relModelName model1 s) as Hadd.
  cbv zeta in Hadd. simpl in Hadd |- *. rewrite Hadd. clear Hadd.
  set (fc := fresh (dom (collHeap s))).
  set (newMI := fresh (dom (modelHeap s))).
  set (ourField := fresh (dom (fieldHeap s))).
  set (mi := Model.mk relModelName (SnakeCaseString relModelName) fc ∅
               Many2ManyLinkModel).
  rewrite bind_unfold. unfold newField at 1. cbv beta zeta. simpl.
  set (h1 := <[ourField := m2mField SnakeCaseString newMI model1]>
               (fieldHeap s)).
  set (theirField := fresh (dom h1)).
  assert (ourField ≠ theirField) as Hfields.
  { intros Heq. pose proof (fresh_not_allocated h1) as Hfresh.
    fold theirField in Hfresh. rewrite <- Heq in Hfresh. unfold h1 in Hfresh.
    by rewrite lookup_insert_eq in Hfresh. }
  rewrite bind_unfold.
  erewrite (add_m2mField fc _ theirField newMI model2 mi); cycle 1.
  { simpl. apply lookup_insert_eq. }
  { simpl. apply lookup_insert_eq. }
  { simpl. apply lookup_insert_eq. }
  { simpl. by rewrite lookup_insert_ne. }
  rewrite bind_unfold. unfold Registry_add.
  erewrite bind_Returned;
    last by (apply loadModel_Some; simpl; apply lookup_insert_eq).
  rewrite bind_unfold. simpl.
  eexists newMI, ourField, theirField, fc, _, _.
  split; [reflexivity|]. simpl.
  split; [apply fresh_not_allocated|].
  split; [apply lookup_insert_eq|].
  split; [apply lookup_insert_eq|].
  split; [apply lookup_insert_eq|].
  split.
  { simpl. rewrite <- (insert_empty model2).
    by rewrite insert_insert_ne by done. }
  split; [done|].
  split; [by unfold h1; rewrite lookup_insert_ne, lookup_insert_eq|].
  apply lookup_insert_eq.
Qed.

End M2MProperties.

(** ** Compute methods *)

Lemma panics_not_returns {S A} (o : outcome S A) : panics o ↔ ¬ returns o.
Proof. destruct o; simpl; tauto. Qed.

(** A loop whose body leaves the state alone returns exactly when the
    body returns for every element, and panics exactly when the body
    panics for some element. *)
Lemma forEach_readonly {A} (l : list A) (body : A → M unit) s :
  (∀ x, x ∈ l → final (body x s) = s) →
  final (forEach l body s) = s
  ∧ (returns (forEach l body s) ↔ ∀ x, x ∈ l → returns (body x s))
  ∧ (panics (forEach l body s) ↔ ∃ x, x ∈ l ∧ panics (body x s)).
Proof.
  induction l as [|x l IH]; intros Hro; simpl.
  - split; [done|]. split.
    + split; [|done]. intros _ x Hx. by apply elem_of_nil in Hx.
    + split; [intros []|]. intros (x & Hx & _). by apply elem_of_nil in Hx.
  - rewrite bind_unfold.
    pose proof (Hro x (list_elem_of_here _ _)) as Hx.
    destruct IH as (IH1 & IH2 & IH3).
    { intros y Hy. apply Hro. by apply list_elem_of_further. }
    destruct (body x s) as [[] s1|msg s1] eqn:Hb; simpl in Hx; subst s1.
    + split; [done|]. split.
      * rewrite IH2. split.
        -- intros H y [->|Hy]%elem_of_cons; [by rewrite Hb|by apply H].
        -- intros H y Hy. apply H. by apply list_elem_of_further.
      * rewrite IH3. split.
        -- intros (y & Hy & Hp). exists y. split; [|done].
           by apply list_elem_of_further.
        -- intros (y & [->|Hy]%elem_of_cons & Hp); [by rewrite Hb in Hp|].
           by exists y.
    + simpl. split; [done|]. split.
      * split; [intros []|].
        intros H. specialize (H x (list_elem_of_here _ _)). by rewrite Hb in H.
      * split; [|done]. intros _. exists x.
        split; [apply list_elem_of_here|by rewrite Hb].
Qed.

Section ComputeProperties.

Variable implementsFieldMapper : reflect.rtype → bool.
Variable rangeMap : mapOrder.
Hypothesis rangeMap_enumerates : enumerates rangeMap.

Lemma checkMethTypeMsg_ok methType stored :
  checkMethTypeMsg implementsFieldMapper methType stored = ""
  ↔ computeSignatureOk implementsFieldMapper methType stored.
Proof.
  unfold checkMethTypeMsg, computeSignatureOk, reflect.NumIn, reflect.NumOut,
    reflect.Out.
  destruct methType as [ins outs]. simpl.
  destruct (Nat.eqb_spec (length ins) 1) as [Hin|Hin]; simpl;
    [|split; [done|by intros [? _]]].
  destruct outs as [|o1 [|o2 [|o3 outs]]]; simpl.
  - split; [done|by intros [_ ?]].
  - destruct (implementsFieldMapper o1); simpl;
      [|split; [done|by intros [_ [? _]]]].
    destruct stored; simpl; [split; [done|by intros [_ [_ ?]]]|done].
  - destruct (implementsFieldMapper o1); simpl;
      [|split; [done|by intros [_ [? _]]]].
    case_bool_decide as Ho2; simpl.
    + inversion Ho2; subst. done.
    + split; [done|]. intros [_ [_ ->]]. done.
  - destruct (implementsFieldMapper o1); simpl; split; try done;
      by intros [_ ?].
Qed.


Lemma checkMethType_final method stored s :
  final (checkMethType implementsFieldMapper method stored s) = s.
Proof.
  unfold checkMethType, when. destruct (negb _); [|done].
  rewrite bind_unfold.
  pose proof (modelName_final (Method.model method) s) as H.
  by destruct (modelName (Method.model method) s).
Qed.

Lemma checkMethType_returns method stored s :
  returns (checkMethType implementsFieldMapper method stored s)
  ↔ computeSignatureOk implementsFieldMapper (Method.methodType method) stored.
Proof.
  rewrite <- checkMethTypeMsg_ok. unfold checkMethType, when.
  case_bool_decide as Hmsg; simpl; [done|].
  rewrite bind_unfold. by destruct (modelName (Method.model method) s).
Qed.

Lemma checkComputeField_final m stored fi s :
  final (checkComputeField implementsFieldMapper m stored fi s) = s.
Proof.
  unfold checkComputeField. rewrite bind_unfold. unfold loadField.
  destruct (fieldHeap s !! fi) as [f|]; [|done].
  rewrite bind_unfold. unfold methodsMustGet.
  destruct (Model.methods m !! Field.compute f) as [method|]; [|done].
  apply checkMethType_final.
Qed.

Lemma checkComputeField_returns m stored fi s :
  returns (checkComputeField implementsFieldMapper m stored fi s)
  ↔ computeMethodOk implementsFieldMapper s m stored fi.
Proof.
  unfold checkComputeField, computeMethodOk.
  rewrite bind_unfold. unfold loadField.
  destruct (fieldHeap s !! fi) as [f|]; [|split; [done|by intros (?&?&?&_)]].
  rewrite bind_unfold. unfold methodsMustGet.
  destruct (Model.methods m !! Field.compute f) as [method|] eqn:Hm.
  - simpl. rewrite checkMethType_returns. split.
    + intros H. by exists f, method.
    + intros (f' & method' & [= <-] & Hm' & H). congruence.
  - split; [done|]. intros (f' & method' & [= <-] & Hm' & _). congruence.
Qed.

Lemma checkComputeModel_spec mi s :
  final (checkComputeModel implementsFieldMapper mi s) = s
  ∧ (returns (checkComputeModel implementsFieldMapper mi s)
     ↔ computeMethodsOk implementsFieldMapper s mi).
Proof.
  unfold checkComputeModel, computeMethodsOk.
  rewrite bind_unfold. unfold loadModel.
  destruct (modelHeap s !! mi) as [m|]; last first.
  { simpl. split; [done|]. split; [intros []|]. by intros (? & ? & ? & _). }
  destruct (collHeap s !! Model.fields m) as [c|] eqn:Hc; last first.
  { rewrite bind_unfold. unfold loadColl. rewrite Hc. simpl.
    split; [done|]. split; [intros []|].
    intros (m' & c' & [= <-] & Hc' & _). congruence. }
  rewrite (bind_Returned _ _ _ _ _ (loadColl_Some _ _ _ Hc)).
  rewrite bind_unfold.
  destruct (forEach_readonly (FieldsCollection.computedFields c)
              (checkComputeField implementsFieldMapper m false) s)
    as (Hf1 & Hr1 & _).
  { intros x _. apply checkComputeField_final. }
  destruct (forEach_readonly (FieldsCollection.computedStoredFields c)
              (checkComputeField implementsFieldMapper m true) s)
    as (Hf2 & Hr2 & _).
  { intros x _. apply checkComputeField_final. }
  destruct (forEach (FieldsCollection.computedFields c) _ s)
    as [[] s1|msg s1] eqn:H1; simpl in Hf1; subst s1.
  - rewrite (bind_Returned _ _ _ _ _ (loadColl_Some _ _ _ Hc)).
    split; [done|]. rewrite Hr2. split.
    + intros H2. exists m, c. repeat split; try done.
      * intros fi Hfi. apply checkComputeField_returns. by apply Hr1.
      * intros fi Hfi. apply checkComputeField_returns. by apply H2.
    + intros (m' & c' & [= <-] & Hc' & _ & H2) fi Hfi.
      assert (c' = c) as -> by congruence.
      apply checkComputeField_returns. by apply H2.
  - simpl. split; [done|]. split; [intros []|].
    intros (m' & c' & [= <-] & Hc' & H1' & _).
    assert (c' = c) as -> by congruence.
    apply Hr1. intros fi Hfi. apply checkComputeField_returns. by apply H1'.
Qed.

(** C4. [checkComputeMethodsSignature] reads the registry and changes
    nothing; it returns when, and panics unless, on every registered
    model the compute method of every field of [computedFields] and of
    [computedStoredFields] exists and keeps the contract: one argument
    (the receiver), a first result that implements [FieldMapper], for the
    fields of [computedStoredFields] a second result, of type
    [[]FieldNamer] when there is one, and no third result. In particular
    the method of a stored computed field with a single result, and any
    method with more than two results or with a second result of another
    type, make it panic. *)
Theorem checkComputeMethodsSignature_validates s :
  final (checkComputeMethodsSignature implementsFieldMapper rangeMap s) = s
  ∧ (returns (checkComputeMethodsSignature implementsFieldMapper rangeMap s)
     ↔ ∀ n mi,
         modelCollection.registryByName (Registry s) !! n = Some mi →
         computeMethodsOk implementsFieldMapper s mi)
  ∧ (panics (checkComputeMethodsSignature implementsFieldMapper rangeMap s)
     ↔ ∃ n mi,
         modelCollection.registryByName (Registry s) !! n = Some mi
         ∧ ¬ computeMethodsOk implementsFieldMapper s mi)
  ∧ (∀ methType stored,
       (stored = true ∧ reflect.NumOut methType = 1)
       ∨ 2 < reflect.NumOut methType
       ∨ (reflect.NumOut methType = 2
          ∧ reflect.Out methType 1 ≠ Some reflect.FieldNamerSlice)
       ∨ reflect.NumIn methType ≠ 1
       ∨ reflect.NumOut methType = 0
       ∨ from_option implementsFieldMapper false (reflect.Out methType 0)
         = false →
       ¬ computeSignatureOk implementsFieldMapper methType stored).
Proof.
  unfold checkComputeMethodsSignature.
  rewrite bind_unfold. simpl.
  set (entries := rangeMap (modelCollection.registryByName (Registry s))).
  assert (∀ n mi, (n, mi) ∈ entries
                  ↔ modelCollection.registryByName (Registry s) !! n = Some mi)
    as Hentries.
  { intros n mi. unfold entries. rewrite (rangeMap_enumerates _).
    apply elem_of_map_to_list. }
  destruct (forEach_readonly entries
              (λ e, checkComputeModel implementsFieldMapper e.2) s)
    as (Hfin & Hret & Hpan).
  { intros e _. apply checkComputeModel_spec. }
  assert (returns (forEach entries
                     (λ e, checkComputeModel implementsFieldMapper e.2) s)
          ↔ ∀ n mi,
              modelCollection.registryByName (Registry s) !! n = Some mi →
              computeMethodsOk implementsFieldMapper s mi) as Hret'.
  { rewrite Hret. split.
    - intros H n mi Hn. apply (checkComputeModel_spec mi s).
      apply (H (n, mi)). by apply Hentries.
    - intros H [n mi] Hin. apply checkComputeModel_spec.
      apply (H n mi). by apply Hentries. }
  split; [done|]. split; [done|]. split.
  - rewrite Hpan. split.
    + intros ([n mi] & Hin & Hp). exists n, mi.
      split; [by apply Hentries|].
      apply panics_not_returns in Hp. intros Hok. apply Hp.
      by apply checkComputeModel_spec.
    + intros (n & mi & Hn & Hnot). exists (n, mi).
      split; [by apply Hentries|].
      apply panics_not_returns. intros Hr. apply Hnot.
      by apply (checkComputeModel_spec mi s).
  - intros [ins outs] stored. unfold computeSignatureOk, reflect.NumOut,
      reflect.NumIn, reflect.Out. simpl.
    intros H [Hin Hout].
    destruct outs as [|o1 [|o2 [|o3 outs]]]; simpl in *; try done.
    + destruct Hout as [Himpl ->].
      destruct H as [[? _]|[?|[[? _]|[?|[?|?]]]]]; try done; try lia; congruence.
    + destruct Hout as [Himpl ->].
      destruct H as [[_ ?]|[?|[[_ ?]|[?|[?|?]]]]]; try done; try lia; congruence.
Qed.

End ComputeProperties.

(** ** The dependency graph *)

Lemma appendDependency_collHeap R cd s :
  collHeap (appendDependency R cd s) = collHeap s.
Proof. unfold appendDependency. by destruct (_ !! _). Qed.

Lemma appendDependency_modelHeap R cd s :
  modelHeap (appendDependency R cd s) = modelHeap s.
Proof. unfold appendDependency. by destruct (_ !! _). Qed.

Lemma appendDependency_Registry R cd s :
  Registry (appendDependency R cd s) = Registry s.
Proof. unfold appendDependency. by destruct (_ !! _). Qed.

Lemma appendDependency_lookup R cd s p :
  fieldHeap (appendDependency R cd s) !! p =
  (λ f, if bool_decide (p = R)
        then Field.set_dependencies (Field.dependencies f ++ [cd])%list f
        else f) <$> fieldHeap s !! p.
Proof.
  unfold appendDependency.
  destruct (fieldHeap s !! R) as [rf|] eqn:HR; simpl.
  - case_bool_decide as Hp.
    + subst p. by rewrite lookup_insert_eq, HR.
    + rewrite lookup_insert_ne by done. by destruct (_ !! p).
  - case_bool_decide as Hp.
    + subst p. by rewrite HR.
    + by destruct (_ !! p).
Qed.

Lemma appendDependency_lookup_Some R cd s p f :
  fieldHeap s !! p = Some f →
  ∃ f', fieldHeap (appendDependency R cd s) !! p = Some f'
        ∧ Field.compute f' = Field.compute f
        ∧ Field.depends f' = Field.depends f
        ∧ Field.name f' = Field.name f
        ∧ Field.json f' = Field.json f.
Proof.
  intros Hp. rewrite appendDependency_lookup, Hp. simpl.
  eexists. split; [done|]. by case_bool_decide.
Qed.

Lemma omap_pointwise {A B} (f g : A → option B) (l : list A) :
  (∀ x, f x = g x) → omap f l = omap g l.
Proof.
  intros Hfg. apply list_omap_ext, Forall_Forall2_diag, Forall_forall.
  intros x _. apply Hfg.
Qed.

Lemma flat_map_pointwise {A B} (f g : A → list B) (l : list A) :
  (∀ x, f x = g x) → flat_map f l = flat_map g l.
Proof.
  intros Hfg. induction l as [|x l IH]; [done|]. simpl. by rewrite Hfg, IH.
Qed.

(** *** Paths: split and join *)














Section DependsProperties.

Variable jsonizeExpr : State → Ptr → list string → option (list string).
Variable getRelatedModelInfo : State → Ptr → string → option Ptr.
Variable rangeMap : mapOrder.

Hypothesis rangeMap_enumerates : enumerates rangeMap.
Hypothesis jsonizeExpr_frame : ignoresDependencies jsonizeExpr.
Hypothesis getRelatedModelInfo_frame : ignoresDependencies getRelatedModelInfo.

Abbreviation edge := (backEdge jsonizeExpr getRelatedModelInfo).
Abbreviation edgesOfPaths :=
  (backEdgesOfPaths jsonizeExpr getRelatedModelInfo).
Abbreviation edgesOfField :=
  (backEdgesOfField jsonizeExpr getRelatedModelInfo).
Abbreviation edgesOfModel :=
  (backEdgesOfModel jsonizeExpr getRelatedModelInfo rangeMap).
Abbreviation edges := (backEdges jsonizeExpr getRelatedModelInfo rangeMap).

Lemma backEdge_frame R cd s mi compute depString :
  edge (appendDependency R cd s) mi compute depString
  = edge s mi compute depString.
Proof.
  unfold backEdge.
  rewrite jsonizeExpr_frame.
  destruct (jsonizeExpr s mi _) as [tokens|]; [simpl|done].
  destruct (last tokens) as [refName|]; [simpl|done].
  rewrite getRelatedModelInfo_frame.
  destruct (getRelatedModelInfo s mi _) as [refModelInfo|]; [simpl|done].
  rewrite appendDependency_modelHeap, appendDependency_collHeap.
  destruct (modelHeap s !! refModelInfo) as [m|]; [simpl|done].
  destruct (collHeap s !! Model.fields m) as [c|]; [simpl|done].
  destruct (get_ c refName) as [refField|]; [simpl|done].
  rewrite appendDependency_lookup.
  by destruct (fieldHeap s !! refField).
Qed.

Lemma backEdgesOfPaths_frame R cd s mi compute paths :
  edgesOfPaths (appendDependency R cd s) mi compute paths
  = edgesOfPaths s mi compute paths.
Proof.
  apply omap_pointwise. intros p.
  case_bool_decide; [done|]. apply backEdge_frame.
Qed.

Lemma backEdgesOfField_frame R cd s mi fInfo :
  edgesOfField (appendDependency R cd s) mi fInfo
  = edgesOfField s mi fInfo.
Proof.
  unfold backEdgesOfField. rewrite appendDependency_lookup.
  destruct (fieldHeap s !! fInfo) as [f|]; [simpl|done].
  rewrite backEdgesOfPaths_frame. by case_bool_decide.
Qed.

Lemma backEdgesOfModel_frame R cd s mi :
  edgesOfModel (appendDependency R cd s) mi = edgesOfModel s mi.
Proof.
  unfold backEdgesOfModel.
  rewrite appendDependency_modelHeap, appendDependency_collHeap.
  destruct (modelHeap s !! mi) as [m|]; [|done].
  destruct (collHeap s !! Model.fields m) as [c|]; [|done].
  apply flat_map_pointwise. intros e. apply backEdgesOfField_frame.
Qed.


Lemma applyEdges_cons e l s :
  applyEdges (e :: l) s = applyEdges l (appendDependency e.1 e.2 s).
Proof. done. Qed.

Lemma applyEdges_app l1 l2 s :
  applyEdges (l1 ++ l2) s = applyEdges l2 (applyEdges l1 s).
Proof. unfold applyEdges. apply foldl_app. Qed.

Lemma applyEdges_collHeap l s : collHeap (applyEdges l s) = collHeap s.
Proof.
  revert s. induction l as [|e l IH]; intros s; [done|].
  by rewrite applyEdges_cons, IH, appendDependency_collHeap.
Qed.

Lemma applyEdges_modelHeap l s : modelHeap (applyEdges l s) = modelHeap s.
Proof.
  revert s. induction l as [|e l IH]; intros s; [done|].
  by rewrite applyEdges_cons, IH, appendDependency_modelHeap.
Qed.

Lemma applyEdges_lookup_Some l s p f :
  fieldHeap s !! p = Some f →
  ∃ f', fieldHeap (applyEdges l s) !! p = Some f'
        ∧ Field.compute f' = Field.compute f
        ∧ Field.depends f' = Field.depends f
        ∧ Field.name f' = Field.name f
        ∧ Field.json f' = Field.json f.
Proof.
  revert s f. induction l as [|e l IH]; intros s f Hp; [by exists f|].
  rewrite applyEdges_cons.
  destruct (appendDependency_lookup_Some e.1 e.2 s p f Hp)
    as (f1 & Hf1 & Hc1 & Hd1 & Hn1 & Hj1).
  destruct (IH _ _ Hf1) as (f' & Hf' & Hc' & Hd' & Hn' & Hj').
  exists f'. split; [done|]. repeat split; congruence.
Qed.

Lemma backEdgesOfField_applyEdges l s mi fInfo :
  edgesOfField (applyEdges l s) mi fInfo = edgesOfField s mi fInfo.
Proof.
  revert s. induction l as [|e l IH]; intros s; [done|].
  by rewrite applyEdges_cons, IH, backEdgesOfField_frame.
Qed.

Lemma backEdgesOfModel_applyEdges l s mi :
  edgesOfModel (applyEdges l s) mi = edgesOfModel s mi.
Proof.
  revert s. induction l as [|e l IH]; intros s; [done|].
  by rewrite applyEdges_cons, IH, backEdgesOfModel_frame.
Qed.

(** *** One depends path *)

Lemma call_inv {A} (h : State → option A) a s s' :
  call h s = Returned a s' → h s = Some a ∧ s' = s.
Proof. unfold call. destruct (h s); [|done]. by intros [= -> ->]. Qed.

Lemma lastToken_inv tokens t s s' :
  lastToken tokens s = Returned t s' → last tokens = Some t ∧ s' = s.
Proof.
  unfold lastToken. destruct (last tokens); [|done]. by intros [= -> ->].
Qed.

Lemma MustGet_inv fc n p s s' :
  MustGet fc n s = Returned p s' →
  ∃ c, collHeap s !! fc = Some c ∧ get_ c n = Some p ∧ s' = s.
Proof.
  unfold MustGet, get. intros H.
  apply bind_inv in H as (r & s1 & H1 & H).
  apply bind_inv in H1 as (c & s2 & [Hc ->]%loadColl_inv & H1).
  inversion H1; subst. exists c. split; [done|].
  destruct (get_ c n); [|done]. inversion H; by subst.
Qed.

Lemma processDepString_empty mi fInfo s :
  processDepString jsonizeExpr getRelatedModelInfo mi fInfo "" s
  = Returned tt s.
Proof. done. Qed.

Lemma processDepString_Returned mi fInfo f depString s s' :
  depString ≠ "" → fieldHeap s !! fInfo = Some f →
  processDepString jsonizeExpr getRelatedModelInfo mi fInfo depString s
  = Returned tt s' →
  ∃ e, edge s mi (Field.compute f) depString = Some e
       ∧ s' = appendDependency e.1 e.2 s.
Proof.
  intros Hne Hf. unfold processDepString.
  rewrite bool_decide_eq_false_2 by done. simpl. intros H.
  apply bind_inv in H as (tokens & s1 & [Htok ->]%call_inv & H).
  apply bind_inv in H as (refName & s1 & [Hlast ->]%lastToken_inv & H).
  apply bind_inv in H as (f' & s1 & [Hf' ->]%loadField_inv & H).
  assert (f' = f) as -> by congruence.
  apply bind_inv in H as (refModelInfo & s1 & [Hrel ->]%call_inv & H).
  apply bind_inv in H as (m & s1 & [Hm ->]%loadModel_inv & H).
  apply bind_inv in H as (refField & s1 & (c & Hc & Hget & ->)%MustGet_inv & H).
  apply bind_inv in H as (rf & s1 & [Hrf ->]%loadField_inv & H).
  inversion H; subst s'; clear H.
  eexists (refField, _). unfold backEdge.
  rewrite Htok. simpl. rewrite Hlast. simpl. rewrite Hrel. simpl.
  rewrite Hm. simpl. rewrite Hc. simpl. rewrite Hget. simpl.
  rewrite Hrf. simpl. split; [done|].
  unfold appendDependency. simpl. by rewrite Hrf.
Qed.


Lemma backEdge_applyEdges l s mi compute depString :
  edge (applyEdges l s) mi compute depString
  = edge s mi compute depString.
Proof.
  revert s. induction l as [|e l IH]; intros s; [done|].
  by rewrite applyEdges_cons, IH, backEdge_frame.
Qed.

Lemma applyEdges_lookup_Some_inv l s p f' :
  fieldHeap (applyEdges l s) !! p = Some f' →
  ∃ f, fieldHeap s !! p = Some f
       ∧ Field.compute f' = Field.compute f
       ∧ Field.depends f' = Field.depends f.
Proof.
  intros Hp. destruct (fieldHeap s !! p) as [f|] eqn:Hf.
  - destruct (applyEdges_lookup_Some l s p f Hf) as (f'' & Hf'' & ? & ? & _).
    exists f. split; [done|]. split; congruence.
  - exfalso. revert s Hp Hf. induction l as [|e l IH]; intros s Hp Hf.
    + simpl in Hp. congruence.
    + rewrite applyEdges_cons in Hp. apply (IH _ Hp).
      by rewrite appendDependency_lookup, Hf.
Qed.

(** *** The loops *)

Lemma forEach_paths mi fInfo paths f s s' :
  fieldHeap s !! fInfo = Some f →
  forEach paths (processDepString jsonizeExpr getRelatedModelInfo mi fInfo) s
  = Returned tt s' →
  s' = applyEdges (edgesOfPaths s mi (Field.compute f) paths) s
  ∧ ∀ depString, depString ∈ paths → depString ≠ "" →
      is_Some (edge s mi (Field.compute f) depString).
Proof.
  revert f s. induction paths as [|p paths IH]; intros f s Hf H.
  - inversion H. split; [done|]. intros p Hp. by apply elem_of_nil in Hp.
  - simpl in H. apply bind_inv in H as ([] & s1 & H1 & H).
    destruct (decide (p = "")) as [->|Hne].
    + rewrite processDepString_empty in H1. inversion H1; subst s1.
      destruct (IH _ _ Hf H) as [-> Hres]. split; [done|].
      intros p [->|Hp]%elem_of_cons Hp'; [done|by apply Hres].
    + destruct (processDepString_Returned _ _ _ _ _ _ Hne Hf H1)
        as (e & He & ->).
      destruct (appendDependency_lookup_Some e.1 e.2 s fInfo f Hf)
        as (f1 & Hf1 & Hc1 & _).
      destruct (IH _ _ Hf1 H) as [-> Hres]. rewrite Hc1 in *. split.
      * rewrite backEdgesOfPaths_frame.
        unfold backEdgesOfPaths at 2. cbn [omap list_omap].
        rewrite bool_decide_eq_false_2 by done. by rewrite He.
      * intros p' [->|Hp]%elem_of_cons Hp'; [by rewrite He|].
        rewrite <- (backEdge_frame e.1 e.2). by apply Hres.
Qed.

Lemma processDependsField_Returned mi fInfo s s' :
  processDependsField jsonizeExpr getRelatedModelInfo mi fInfo s
  = Returned tt s' →
  s' = applyEdges (edgesOfField s mi fInfo) s
  ∧ ∃ f, fieldHeap s !! fInfo = Some f ∧ pathsResolve jsonizeExpr getRelatedModelInfo s mi f.
Proof.
  unfold processDependsField. intros H.
  apply bind_inv in H as (f & s1 & [Hf ->]%loadField_inv & H).
  destruct (forEach_paths _ _ _ _ _ _ Hf H) as [-> Hres].
  unfold backEdgesOfField. rewrite Hf. split; [done|].
  by exists f.
Qed.

Lemma pathsResolve_applyEdges l s mi p f' :
  fieldHeap (applyEdges l s) !! p = Some f' →
  pathsResolve jsonizeExpr getRelatedModelInfo (applyEdges l s) mi f' →
  ∃ f, fieldHeap s !! p = Some f ∧ pathsResolve jsonizeExpr getRelatedModelInfo s mi f.
Proof.
  intros Hf' Hres.
  destruct (applyEdges_lookup_Some_inv _ _ _ _ Hf') as (f & Hf & Hc & Hd).
  exists f. split; [done|]. intros depString Hin Hne.
  rewrite <- Hc, <- (backEdge_applyEdges l). apply Hres; [|done].
  by rewrite Hd.
Qed.

Lemma forEach_fields mi (entries : list (string * Ptr)) s s' :
  forEach entries
    (λ e, processDependsField jsonizeExpr getRelatedModelInfo mi e.2) s
  = Returned tt s' →
  s' = applyEdges (flat_map (λ e, edgesOfField s mi e.2) entries) s
  ∧ ∀ e, e ∈ entries →
      ∃ f, fieldHeap s !! e.2 = Some f ∧ pathsResolve jsonizeExpr getRelatedModelInfo s mi f.
Proof.
  revert s. induction entries as [|e entries IH]; intros s H.
  - inversion H. split; [done|]. intros e He. by apply elem_of_nil in He.
  - simpl in H. apply bind_inv in H as ([] & s1 & H1 & H).
    apply processDependsField_Returned in H1 as [-> Hres1].
    destruct (IH _ H) as [-> Hres]. split.
    + simpl. rewrite applyEdges_app. f_equal.
      apply flat_map_pointwise. intros e'. apply backEdgesOfField_applyEdges.
    + intros e' [->|He']%elem_of_cons; [done|].
      destruct (Hres e' He') as (f' & Hf' & Hres').
      by eapply pathsResolve_applyEdges.
Qed.

Lemma processDependsModel_Returned mi s s' :
  processDependsModel jsonizeExpr getRelatedModelInfo rangeMap mi s
  = Returned tt s' →
  s' = applyEdges (edgesOfModel s mi) s ∧ modelResolves jsonizeExpr getRelatedModelInfo s mi.
Proof.
  unfold processDependsModel. intros H.
  apply bind_inv in H as (m & s1 & [Hm ->]%loadModel_inv & H).
  apply bind_inv in H as (c & s1 & [Hc ->]%loadColl_inv & H).
  apply forEach_fields in H as [-> Hres].
  unfold backEdgesOfModel. rewrite Hm, Hc. split; [done|].
  exists m, c. repeat split; try done.
  intros jn fInfo Hjn. apply (Hres (jn, fInfo)).
  rewrite (rangeMap_enumerates _). by apply elem_of_map_to_list.
Qed.

Lemma modelResolves_applyEdges l s mi :
  modelResolves jsonizeExpr getRelatedModelInfo (applyEdges l s) mi → modelResolves jsonizeExpr getRelatedModelInfo s mi.
Proof.
  intros (m & c & Hm & Hc & Hres).
  rewrite applyEdges_modelHeap in Hm. rewrite applyEdges_collHeap in Hc.
  exists m, c. repeat split; try done.
  intros jn fInfo Hjn. destruct (Hres jn fInfo Hjn) as (f' & Hf' & Hres').
  by eapply pathsResolve_applyEdges.
Qed.

Lemma forEach_models (entries : list (string * Ptr)) s s' :
  forEach entries
    (λ e, processDependsModel jsonizeExpr getRelatedModelInfo rangeMap e.2) s
  = Returned tt s' →
  s' = applyEdges (flat_map (λ e, edgesOfModel s e.2) entries) s
  ∧ ∀ e, e ∈ entries → modelResolves jsonizeExpr getRelatedModelInfo s e.2.
Proof.
  revert s. induction entries as [|e entries IH]; intros s H.
  - inversion H. split; [done|]. intros e He. by apply elem_of_nil in He.
  - simpl in H. apply bind_inv in H as ([] & s1 & H1 & H).
    apply processDependsModel_Returned in H1 as [-> Hres1].
    destruct (IH _ H) as [-> Hres]. split.
    + simpl. rewrite applyEdges_app. f_equal.
      apply flat_map_pointwise. intros e'. apply backEdgesOfModel_applyEdges.
    + intros e' [->|He']%elem_of_cons; [done|].
      eapply modelResolves_applyEdges. by apply Hres.
Qed.

Lemma processDepends_Returned s s' :
  processDepends jsonizeExpr getRelatedModelInfo rangeMap s = Returned tt s' →
  s' = applyEdges (edges s) s
  ∧ ∀ tn mi,
      modelCollection.registryByTableName (Registry s) !! tn = Some mi →
      modelResolves jsonizeExpr getRelatedModelInfo s mi.
Proof.
  unfold processDepends. intros H.
  apply bind_inv in H as (r & s1 & H1 & H). inversion H1; subst r s1.
  apply forEach_models in H as [-> Hres]. split; [done|].
  intros tn mi Htn. apply (Hres (tn, mi)).
  rewrite (rangeMap_enumerates _). by apply elem_of_map_to_list.
Qed.


(** *** The run returns when the paths resolve *)

Lemma call_Some {A} (h : State → option A) a s :
  h s = Some a → call h s = Returned a s.
Proof. unfold call. by intros ->. Qed.

Lemma processDepString_run mi fInfo f depString e s :
  depString ≠ "" → fieldHeap s !! fInfo = Some f →
  edge s mi (Field.compute f) depString = Some e →
  processDepString jsonizeExpr getRelatedModelInfo mi fInfo depString s
  = Returned tt (appendDependency e.1 e.2 s).
Proof.
  intros Hne Hf He. unfold backEdge in He.
  destruct (jsonizeExpr s mi _) as [tokens|] eqn:Htok; [simpl in He|done].
  destruct (last tokens) as [refName|] eqn:Hlast; [simpl in He|done].
  destruct (getRelatedModelInfo s mi _) as [refModelInfo|] eqn:Hrel;
    [simpl in He|done].
  destruct (modelHeap s !! refModelInfo) as [m|] eqn:Hm; [simpl in He|done].
  destruct (collHeap s !! Model.fields m) as [c|] eqn:Hc; [simpl in He|done].
  destruct (get_ c refName) as [refField|] eqn:Hget; [simpl in He|done].
  destruct (fieldHeap s !! refField) as [rf|] eqn:Hrf; [simpl in He|done].
  inversion He; subst e; clear He.
  unfold processDepString. rewrite bool_decide_eq_false_2 by done. simpl.
  rewrite (bind_Returned _ _ _ _ _ (call_Some _ _ _ Htok)).
  unfold lastToken. rewrite Hlast.
  rewrite bind_unfold. simpl.
  rewrite (bind_Returned _ _ _ _ _ (loadField_Some _ _ _ Hf)).
  rewrite (bind_Returned _ _ _ _ _ (call_Some _ _ _ Hrel)).
  rewrite (bind_Returned _ _ _ _ _ (loadModel_Some _ _ _ Hm)).
  assert (MustGet (Model.fields m) refName s = Returned refField s) as Hmg
    by (by rewrite (MustGet_eval _ _ _ _ Hc), Hget).
  rewrite (bind_Returned _ _ _ _ _ Hmg).
  rewrite (bind_Returned _ _ _ _ _ (loadField_Some _ _ _ Hrf)).
  unfold appendDependency, storeField. by rewrite Hrf.
Qed.

Lemma forEach_paths_run mi fInfo paths f s :
  fieldHeap s !! fInfo = Some f →
  (∀ depString, depString ∈ paths → depString ≠ "" →
     is_Some (edge s mi (Field.compute f) depString)) →
  forEach paths (processDepString jsonizeExpr getRelatedModelInfo mi fInfo) s
  = Returned tt (applyEdges (edgesOfPaths s mi (Field.compute f) paths) s).
Proof.
  revert f s. induction paths as [|p paths IH]; intros f s Hf Hres; [done|].
  simpl. destruct (decide (p = "")) as [->|Hne].
  - rewrite (bind_Returned _ _ _ _ _ (processDepString_empty _ _ _)).
    rewrite (IH f s Hf).
    + done.
    + intros p Hp. apply Hres. by apply list_elem_of_further.
  - destruct (Hres p (list_elem_of_here _ _) Hne) as [e He].
    rewrite (bind_Returned _ _ _ _ _
               (processDepString_run _ _ _ _ _ _ Hne Hf He)).
    destruct (appendDependency_lookup_Some e.1 e.2 s fInfo f Hf)
      as (f1 & Hf1 & Hc1 & _).
    rewrite (IH f1 _ Hf1).
    + rewrite Hc1, backEdgesOfPaths_frame.
      unfold backEdgesOfPaths at 2. cbn [omap list_omap].
      rewrite bool_decide_eq_false_2 by done. by rewrite He.
    + intros p' Hp' Hne'. rewrite Hc1, backEdge_frame.
      apply Hres; [|done]. by apply list_elem_of_further.
Qed.

Lemma processDependsField_run mi fInfo f s :
  fieldHeap s !! fInfo = Some f →
  pathsResolve jsonizeExpr getRelatedModelInfo s mi f →
  processDependsField jsonizeExpr getRelatedModelInfo mi fInfo s
  = Returned tt (applyEdges (edgesOfField s mi fInfo) s).
Proof.
  intros Hf Hres. unfold processDependsField.
  rewrite (bind_Returned _ _ _ _ _ (loadField_Some _ _ _ Hf)).
  rewrite (forEach_paths_run _ _ _ _ _ Hf Hres).
  unfold backEdgesOfField. by rewrite Hf.
Qed.

Lemma pathsResolve_applyEdges_run l s mi p f :
  fieldHeap s !! p = Some f →
  pathsResolve jsonizeExpr getRelatedModelInfo s mi f →
  ∃ f', fieldHeap (applyEdges l s) !! p = Some f'
        ∧ pathsResolve jsonizeExpr getRelatedModelInfo (applyEdges l s) mi f'.
Proof.
  intros Hf Hres.
  destruct (applyEdges_lookup_Some l s p f Hf) as (f' & Hf' & Hc & Hd & _).
  exists f'. split; [done|]. intros depString Hin Hne.
  rewrite Hc, backEdge_applyEdges. apply Hres; [|done]. by rewrite <- Hd.
Qed.

Lemma forEach_fields_run mi (entries : list (string * Ptr)) s :
  (∀ e, e ∈ entries →
     ∃ f, fieldHeap s !! e.2 = Some f
          ∧ pathsResolve jsonizeExpr getRelatedModelInfo s mi f) →
  forEach entries
    (λ e, processDependsField jsonizeExpr getRelatedModelInfo mi e.2) s
  = Returned tt
      (applyEdges (flat_map (λ e, edgesOfField s mi e.2) entries) s).
Proof.
  revert s. induction entries as [|e entries IH]; intros s Hres; [done|].
  simpl. destruct (Hres e (list_elem_of_here _ _)) as (f & Hf & Hpaths).
  rewrite (bind_Returned _ _ _ _ _ (processDependsField_run _ _ _ _ Hf Hpaths)).
  rewrite IH.
  - rewrite applyEdges_app. do 2 f_equal.
    apply flat_map_pointwise. intros e'. apply backEdgesOfField_applyEdges.
  - intros e' He'.
    destruct (Hres e' (list_elem_of_further _ _ _ He')) as (f' & Hf' & Hp').
    by apply (pathsResolve_applyEdges_run _ _ _ _ f').
Qed.

Lemma processDependsModel_run mi s :
  modelResolves jsonizeExpr getRelatedModelInfo s mi →
  processDependsModel jsonizeExpr getRelatedModelInfo rangeMap mi s
  = Returned tt (applyEdges (edgesOfModel s mi) s).
Proof.
  intros (m & c & Hm & Hc & Hres). unfold processDependsModel.
  rewrite (bind_Returned _ _ _ _ _ (loadModel_Some _ _ _ Hm)).
  rewrite (bind_Returned _ _ _ _ _ (loadColl_Some _ _ _ Hc)).
  rewrite forEach_fields_run.
  - unfold backEdgesOfModel. by rewrite Hm, Hc.
  - intros [jn fInfo] Hin. apply (Hres jn).
    apply elem_of_map_to_list. by rewrite <- (rangeMap_enumerates _).
Qed.

Lemma modelResolves_applyEdges_run l s mi :
  modelResolves jsonizeExpr getRelatedModelInfo s mi →
  modelResolves jsonizeExpr getRelatedModelInfo (applyEdges l s) mi.
Proof.
  intros (m & c & Hm & Hc & Hres). exists m, c.
  rewrite applyEdges_modelHeap, applyEdges_collHeap.
  repeat split; try done.
  intros jn fInfo Hjn. destruct (Hres jn fInfo Hjn) as (f & Hf & Hpaths).
  by apply (pathsResolve_applyEdges_run _ _ _ _ f).
Qed.

Lemma forEach_models_run (entries : list (string * Ptr)) s :
  (∀ e, e ∈ entries → modelResolves jsonizeExpr getRelatedModelInfo s e.2) →
  forEach entries
    (λ e, processDependsModel jsonizeExpr getRelatedModelInfo rangeMap e.2) s
  = Returned tt (applyEdges (flat_map (λ e, edgesOfModel s e.2) entries) s).
Proof.
  revert s. induction entries as [|e entries IH]; intros s Hres; [done|].
  simpl.
  rewrite (bind_Returned _ _ _ _ _
             (processDependsModel_run _ _ (Hres e (list_elem_of_here _ _)))).
  rewrite IH.
  - rewrite applyEdges_app. do 2 f_equal.
    apply flat_map_pointwise. intros e'. apply backEdgesOfModel_applyEdges.
  - intros e' He'. apply modelResolves_applyEdges_run.
    apply Hres. by apply list_elem_of_further.
Qed.

Lemma processDepends_run s :
  (∀ tn mi,
     modelCollection.registryByTableName (Registry s) !! tn = Some mi →
     modelResolves jsonizeExpr getRelatedModelInfo s mi) →
  processDepends jsonizeExpr getRelatedModelInfo rangeMap s
  = Returned tt (applyEdges (edges s) s).
Proof.
  intros Hres. unfold processDepends.
  rewrite bind_unfold. simpl. apply forEach_models_run.
  intros [tn mi] Hin. apply (Hres tn).
  apply elem_of_map_to_list. by rewrite <- (rangeMap_enumerates _).
Qed.

(** *** The dependencies after the run *)

Lemma applyEdges_dependencies l s refField rf :
  fieldHeap s !! refField = Some rf →
  ∃ rf', fieldHeap (applyEdges l s) !! refField = Some rf'
         ∧ Field.dependencies rf'
           = (Field.dependencies rf
              ++ (filter (λ e, e.1 = refField) l).*2)%list.
Proof.
  revert s rf. induction l as [|e l IH]; intros s rf Hrf.
  - exists rf. split; [done|]. simpl. by rewrite app_nil_r.
  - rewrite applyEdges_cons.
    pose proof (appendDependency_lookup e.1 e.2 s refField) as Hl.
    rewrite Hrf in Hl. simpl in Hl.
    destruct (IH _ _ Hl) as (rf' & Hrf' & Hdeps).
    exists rf'. split; [done|]. rewrite Hdeps.
    destruct (decide (e.1 = refField)) as [He|He].
    + rewrite filter_cons_True by done.
      rewrite bool_decide_eq_true_2 by done. simpl.
      by rewrite <- app_assoc.
    + rewrite filter_cons_False by done.
      rewrite bool_decide_eq_false_2 by congruence. done.
Qed.




End DependsProperties.

(** ** Record rules *)

Section RecordRuleProperties.

Variables Environment Record_ Condition : Type.
Variable satisfies : Environment → Condition → Record_ → bool.

Abbreviation Rule := (RecordRule Condition).

Lemma rule_in_registry (registry : gmap string Rule) (r : Rule) :
  r ∈ (map_to_list registry).*2 ↔ ∃ name, registry !! name = Some r.
Proof.
  rewrite list_elem_of_fmap. split.
  - intros ([name r'] & -> & Hin%elem_of_map_to_list). by exists name.
  - intros [name Hname]. exists (name, r). split; [done|].
    by apply elem_of_map_to_list.
Qed.

(** C2. A record is accessible under a permission exactly when it
    satisfies the condition of every global rule of the model that
    governs the permission and, in addition, either no group rule that
    governs the permission applies to one of the groups of the acting
    user, or the record satisfies the condition of at least one such
    group rule. *)
Theorem accessible_iff_global_and_group_rules env perm groups
    (registry : gmap string Rule) rec :
  accessible satisfies env perm groups registry rec = true
  ↔ (∀ name r, registry !! name = Some r →
       isGlobalRule perm r = true →
       satisfies env (Condition_ r) rec = true)
    ∧ ((∀ name r, registry !! name = Some r →
          isGroupRule perm groups r = false)
       ∨ (∃ name r, registry !! name = Some r
                    ∧ isGroupRule perm groups r = true
                    ∧ satisfies env (Condition_ r) rec = true)).
Proof.
  unfold accessible. cbv zeta.
  set (rules := (map_to_list registry).*2).
  assert (∀ r, r ∈ rules ↔ ∃ name, registry !! name = Some r) as Hrules
    by apply rule_in_registry.
  rewrite andb_true_iff, forallb_forall.
  assert (∀ applicable,
            applicable = List.filter (isGroupRule perm groups) rules →
            match applicable with
            | [] => true
            | r :: l =>
                existsb (λ r, satisfies env (Condition_ r) rec) (r :: l)
            end = true
            ↔ (∀ r, r ∈ rules → isGroupRule perm groups r = false)
              ∨ (∃ r, r ∈ rules ∧ isGroupRule perm groups r = true
                      ∧ satisfies env (Condition_ r) rec = true)) as Hgroup.
  { intros applicable Hf. destruct applicable as [|r0 l].
    - split; [intros _|done]. left. intros r Hr.
      destruct (isGroupRule perm groups r) eqn:Hg; [|done].
      assert (In r (List.filter (isGroupRule perm groups) rules)) as Hin
        by (apply filter_In; split; [by apply list_elem_of_In|done]).
      rewrite <- Hf in Hin. destruct Hin.
    - rewrite existsb_exists, Hf. split.
      + intros (r & [Hr Hg]%filter_In & Hsat). right. exists r.
        split; [by apply list_elem_of_In|done].
      + intros [Hnone|(r & Hr & Hg & Hsat)].
        * assert (In r0 (List.filter (isGroupRule perm groups) rules))
            as [Hr0 Hg0]%filter_In by (rewrite <- Hf; by left).
          apply list_elem_of_In in Hr0. rewrite (Hnone r0 Hr0) in Hg0. done.
        * exists r. split; [|done]. apply filter_In.
          split; [by apply list_elem_of_In|done]. }
  rewrite (Hgroup _ eq_refl). clear Hgroup. split.
  - intros [Hglobal Hg]. split.
    + intros name r Hname Hr. apply Hglobal. apply filter_In. split; [|done].
      apply list_elem_of_In, Hrules. by exists name.
    + destruct Hg as [Hnone|(r & [name Hname]%Hrules & Hg & Hsat)].
      * left. intros name r Hname. apply Hnone, Hrules. by exists name.
      * right. by exists name, r.
  - intros [Hglobal Hg]. split.
    + intros r [[name Hname]%list_elem_of_In%Hrules Hr]%filter_In.
      by apply (Hglobal name).
    + destruct Hg as [Hnone|(name & r & Hname & Hg & Hsat)].
      * left. intros r [name Hname]%Hrules. by apply (Hnone name).
      * right. exists r. split; [|done]. apply Hrules. by exists name.
Qed.

End RecordRuleProperties.

(** ** Runs on the sample registries *)

(** A user of both groups reads an active record of another owner and
    another department only if one of the group rules holds; a user of
    neither group is bound by the global rule alone. *)
Example accessible_sample_runs :
  accessible sampleSatisfies 7 security.Read {["G1"; "G2"]} sampleRules
    (true, 7, "Support") = true
  ∧ accessible sampleSatisfies 7 security.Read {["G1"; "G2"]} sampleRules
      (true, 8, "Sales") = true
  ∧ accessible sampleSatisfies 7 security.Read {["G1"; "G2"]} sampleRules
      (true, 8, "Support") = false
  ∧ accessible sampleSatisfies 7 security.Read {["G1"; "G2"]} sampleRules
      (false, 7, "Sales") = false
  ∧ accessible sampleSatisfies 7 security.Read ∅ sampleRules
      (true, 8, "Support") = true
  ∧ accessible sampleSatisfies 7 security.Read ∅ sampleRules
      (false, 7, "Sales") = false.
Proof. vm_compute. repeat split. Qed.

Lemma listOrder_enumerates : enumerates listOrder.
Proof. intros m. reflexivity. Qed.


Lemma sameModel_ignoresDependencies : ignoresDependencies sameModel.
Proof. intros refField cd s a b. reflexivity. Qed.

Lemma jsonNames_ignoresDependencies : ignoresDependencies jsonNames.
Proof. intros refField cd s a b. reflexivity. Qed.

Lemma followCountry_ignoresDependencies : ignoresDependencies followCountry.
Proof. intros refField cd s a b. reflexivity. Qed.

Lemma reverseOrder_enumerates : enumerates reverseOrder.
Proof. intros m. apply reverse_Permutation. Qed.



(** The run on the sample registry: [DisplayName] depends on [Name], and
    [Name] gets the one back-edge. *)
Example processDepends_sample_run :
  Field.dependencies
  <$> fieldHeap
        (final (processDepends keepExpr sameModel listOrder twoFieldsAdded))
      !! 2%positive
  = Some [mkComputeData 1%positive "computeDisplayName" ""].
Proof. vm_compute. reflexivity. Qed.

Example Split_Join_sample :
  Split "Profile.BestPost.Title" ExprSep = ["Profile"; "BestPost"; "Title"]
  ∧ Join (removelast (Split "Profile.BestPost.Title" ExprSep)) ExprSep
    = "Profile.BestPost"
  ∧ Join (removelast (Split "Name" ExprSep)) ExprSep = "".
Proof. repeat split. Qed.

Lemma checkComputeMethodsSignature_validates_witness :
  enumerates listOrder
  ∧ final (checkComputeMethodsSignature isPartnerData listOrder
             (computeState [partnerData]))
    = computeState [partnerData]
  ∧ panics (checkComputeMethodsSignature isPartnerData listOrder
              (computeState [partnerData])).
Proof.
  split; [exact listOrder_enumerates|].
  destruct (checkComputeMethodsSignature_validates isPartnerData listOrder
              listOrder_enumerates (computeState [partnerData]))
    as (Hfinal & _ & Hpanics & Hreject).
  split; [exact Hfinal|].
  apply Hpanics. exists "Partner", 1%positive. split; [reflexivity|].
  intros (m & c & Hm & Hc & _ & Hstored).
  vm_compute in Hm. inversion Hm; subst m; clear Hm.
  vm_compute in Hc. inversion Hc; subst c; clear Hc.
  destruct (Hstored 1%positive) as (f & method & Hf & Hmethod & Hok).
  { simpl. apply list_elem_of_here. }
  vm_compute in Hf. inversion Hf; subst f; clear Hf.
  vm_compute in Hmethod. inversion Hmethod; subst method; clear Hmethod.
  revert Hok. apply Hreject. left. split; reflexivity.
Defined.

Example checkComputeMethodsSignature_sample_runs :
  checkComputeMethodsSignature isPartnerData listOrder
    (computeState [partnerData])
  = Panicked
      "Compute methods for stored field must return fields to unset as second value"
      (computeState [partnerData])
  ∧ checkComputeMethodsSignature isPartnerData listOrder
      (computeState [partnerData; reflect.FieldNamerSlice])
    = Returned tt (computeState [partnerData; reflect.FieldNamerSlice])
  ∧ panics (checkComputeMethodsSignature isPartnerData listOrder
              (computeState [partnerData; partnerData]))
  ∧ panics (checkComputeMethodsSignature isPartnerData listOrder
              (computeState [partnerData; reflect.FieldNamerSlice;
                             reflect.FieldNamerSlice])).
Proof. vm_compute. repeat split. Qed.

Lemma createM2MRelModelInfo_self_relation_panics_witness :
  modelCollection.registryByName (Registry (sampleState nameField))
    !! "PartnerPartnerRel" = None
  ∧ ∃ s', createM2MRelModelInfo sampleSnakeCase sampleLinkOption listOrder
            "PartnerPartnerRel" "Partner" "Partner" (sampleState nameField)
          = Panicked alreadyExistingField s'
          ∧ Registry s' = Registry (sampleState nameField).
Proof.
  split; [reflexivity|].
  apply (createM2MRelModelInfo_self_relation_panics sampleSnakeCase
           sampleLinkOption listOrder "PartnerPartnerRel" "Partner"
           (sampleState nameField)).
  reflexivity.
Defined.

(** The junction model of two different models on the sample registry. *)
Example createM2MRelModelInfo_sample_run :
  ∃ s', createM2MRelModelInfo sampleSnakeCase sampleLinkOption listOrder
          "PartnerTagRel" "Partner" "Tag" (sampleState nameField)
        = Returned (2%positive, Some 2%positive, Some 3%positive) s'
        ∧ modelCollection.registryByName (Registry s') !! "PartnerTagRel"
          = Some 2%positive.
Proof. eexists. vm_compute. split; reflexivity. Qed.

(** * Further properties *)

(** ** Field validation: when it passes and what it writes *)

Lemma modelName_Returned_inv mp n s s' :
  modelName mp s = Returned n s' →
  ∃ p m, mp = Some p ∧ modelHeap s !! p = Some m ∧ n = Model.name m.
Proof.
  destruct mp as [p|]; [|done]. unfold modelName. intros H.
  apply bind_inv in H as (m & s1 & [Hm ->]%loadModel_inv & H).
  inversion H; subst. by exists p, m.
Qed.

Lemma modelName_hasModel mp s :
  hasModel s mp → ∃ n, modelName mp s = Returned n s.
Proof.
  intros (p & m & -> & Hm). exists (Model.name m). unfold modelName.
  by rewrite (bind_Returned _ _ _ _ _ (loadModel_Some _ _ _ Hm)).
Qed.

Lemma logWarn_hasModel f s :
  hasModel s (Field.model f) → logWarn f s = Returned tt s.
Proof.
  intros [n Hn]%modelName_hasModel. unfold logWarn.
  by rewrite (bind_Returned _ _ _ _ _ Hn).
Qed.

Lemma logWarn_Returned_inv f s s' :
  logWarn f s = Returned tt s' → hasModel s (Field.model f).
Proof.
  unfold logWarn. intros (n & s1 & Hn & _)%bind_inv.
  apply modelName_Returned_inv in Hn as (p & m & ? & ? & _). by exists p, m.
Qed.

Lemma checkFieldInfo_passes fi f s :
  fieldHeap s !! fi = Some f → passesCheck s f →
  checkFieldInfo fi s = Returned tt (validated fi f s).
Proof.
  intros Hf (Hrev & Hembed & Hstruct & Hstored).
  unfold checkFieldInfo.
  rewrite (bind_Returned _ _ _ _ _ (loadField_Some _ _ _ Hf)).
  assert (when (fieldtype.IsReverseRelationType (Field.fieldType f)
                && bool_decide (Field.reverseFK f = ""))
               (logPanic missingReverseFK f) s = Returned tt s) as H1.
  { destruct (fieldtype.IsReverseRelationType _) eqn:Hr; [|done].
    simpl. rewrite bool_decide_eq_false_2; [done|]. intros Hfk. by apply Hrev. }
  rewrite (bind_Returned _ _ _ _ _ H1).
  set (f1 := Field.set_embed
               (Field.embed f
                && fieldtype.IsFKRelationType (Field.fieldType f)) f).
  set (s1 := set_fieldHeap (<[fi := f1]> (fieldHeap s)) s).
  assert (when (Field.embed f
                && negb (fieldtype.IsFKRelationType (Field.fieldType f)))
               (logWarn f;; storeField fi (Field.set_embed false f)) s
          = Returned tt s1) as H2.
  { unfold s1, f1. destruct (Field.embed f) eqn:He; simpl.
    - destruct (fieldtype.IsFKRelationType _) eqn:Hfk; simpl.
      + rewrite set_embed_id by done. rewrite insert_id by done.
        by rewrite set_fieldHeap_id.
      + rewrite (bind_Returned _ _ _ _ _
                   (logWarn_hasModel _ _ (Hembed eq_refl eq_refl))).
        reflexivity.
    - rewrite set_embed_id by done. rewrite insert_id by done.
      by rewrite set_fieldHeap_id. }
  rewrite (bind_Returned _ _ _ _ _ H2).
  assert (fieldHeap s1 !! fi = Some f1) as Hf1
    by (simpl; apply lookup_insert_eq).
  rewrite (bind_Returned _ _ _ _ _ (loadField_Some _ _ _ Hf1)).
  assert (when (bool_decide (reflect.Type_ (Field.structField f1)
                             = Some reflect.RecordCollection))
               (rn ← modelName (Field.relatedModel f1);
                when (bool_decide (rn = ""))
                  (logPanic undefinedRelationModel f1)) s1
          = Returned tt s1) as H3.
  { destruct (bool_decide (reflect.Type_ _ = _)) eqn:Hty; [|reflexivity].
    apply bool_decide_eq_true in Hty. simpl.
    destruct (Hstruct Hty) as (p & m & Hp & Hm & Hname).
    assert (modelName (Field.relatedModel f1) s1 = Returned (Model.name m) s1)
      as Hmn.
    { change (Field.relatedModel f1) with (Field.relatedModel f).
      rewrite Hp. unfold modelName.
      by rewrite (bind_Returned _ _ _ _ _ (loadModel_Some p m s1 Hm)). }
    rewrite (bind_Returned _ _ _ _ _ Hmn).
    by rewrite bool_decide_eq_false_2. }
  rewrite (bind_Returned _ _ _ _ _ H3).
  unfold validated, checkedField. fold f1.
  change (Field.stored f) with (Field.stored f1).
  change (Field.isComputedField f) with (Field.isComputedField f1).
  destruct (Field.stored f1) eqn:Hs; simpl.
  - destruct (Field.isComputedField f1) eqn:Hc; simpl.
    + rewrite set_stored_id by done. reflexivity.
    + assert (hasModel s1 (Field.model f1)) as Hm.
      { apply Hstored; [done|].
        apply not_true_iff_false in Hc. rewrite isComputedField_true in Hc.
        by destruct (decide (Field.compute f = "")); [|exfalso; auto]. }
      rewrite (bind_Returned _ _ _ _ _ (logWarn_hasModel _ _ Hm)).
      unfold storeField, s1, set_fieldHeap. simpl.
      by rewrite insert_insert_eq.
  - rewrite set_stored_id by done. reflexivity.
Qed.

Lemma checkFieldInfo_Returned_passes fi s s' :
  checkFieldInfo fi s = Returned tt s' →
  ∃ f, fieldHeap s !! fi = Some f ∧ passesCheck s f.
Proof.
  intros H. pose proof H as H0.
  apply checkFieldInfo_Returned in H0 as (f & Hf & _ & Hrev).
  exists f. split; [done|].
  unfold checkFieldInfo in H.
  rewrite (bind_Returned _ _ _ _ _ (loadField_Some _ _ _ Hf)) in H.
  apply bind_inv in H as ([] & s1 & H1 & H).
  assert (s1 = s) as ->.
  { unfold when in H1. destruct (_ && _); [|by inversion H1].
    by apply logPanic_not_Returned in H1. }
  apply bind_inv in H as ([] & s2 & H2 & H).
  assert (modelHeap s2 = modelHeap s
          ∧ ∃ f1, fieldHeap s2 !! fi = Some f1
                  ∧ Field.relatedModel f1 = Field.relatedModel f
                  ∧ Field.structField f1 = Field.structField f
                  ∧ Field.stored f1 = Field.stored f
                  ∧ Field.compute f1 = Field.compute f
                  ∧ Field.model f1 = Field.model f) as (Hmh & f1 & Hf1 & Hf1').
  { unfold when in H2. destruct (_ && _).
    - apply bind_inv in H2 as ([] & s3 & ->%logWarn_inv & H2).
      inversion H2; subst s2. split; [done|]. eexists.
      split; [simpl; apply lookup_insert_eq|done].
    - inversion H2; subst s2. split; [done|]. by exists f. }
  destruct Hf1' as (Hrm & Hsf & Hst & Hcomp & Hmod).
  split; [intros [Hr Hfk]; by apply Hrev|].
  split.
  { intros He Hfk. unfold when in H2. rewrite He, Hfk in H2. simpl in H2.
    apply bind_inv in H2 as ([] & s3 & Hw & _).
    by apply logWarn_Returned_inv in Hw. }
  rewrite (bind_Returned _ _ _ _ _ (loadField_Some _ _ _ Hf1)) in H.
  apply bind_inv in H as ([] & s3 & H3 & H4).
  split.
  { intros Hty. unfold when in H3 at 1. rewrite Hsf in H3.
    rewrite bool_decide_eq_true_2 in H3 by done.
    apply bind_inv in H3 as (rn & s4 & Hrn & H3).
    pose proof (modelName_inv _ _ _ _ Hrn) as ->.
    apply modelName_Returned_inv in Hrn as (p & m & Hp & Hm & ->).
    exists p, m. rewrite <- Hrm, <- Hmh. split; [done|]. split; [done|].
    intros Hname. unfold when in H3. rewrite Hname in H3. simpl in H3.
    by apply logPanic_not_Returned in H3. }
  intros Hs Hc.
  assert (s3 = s2) as ->.
  { unfold when in H3. destruct (bool_decide _); [|by inversion H3].
    apply bind_inv in H3 as (rn & s4 & ->%modelName_inv & H3).
    destruct (bool_decide (rn = "")); [|by inversion H3].
    by apply logPanic_not_Returned in H3. }
  unfold when, Field.isComputedField in H4.
  rewrite Hst, Hs, Hcomp, Hc in H4. simpl in H4.
  apply bind_inv in H4 as ([] & s4 & Hw & _).
  apply logWarn_Returned_inv in Hw as (p & m & Hp & Hm).
  exists p, m. by rewrite <- Hmod, <- Hmh.
Qed.

Lemma passesCheck_checked fi f s :
  passesCheck s f → passesCheck (validated fi f s) (checkedField f).
Proof.
  intros (Hrev & _ & Hstruct & _). repeat split.
  - exact Hrev.
  - intros He Hfk. exfalso.
    change (Field.fieldType (checkedField f)) with (Field.fieldType f) in Hfk.
    unfold checkedField in He. simpl in He.
    apply andb_true_iff in He as [_ He]. congruence.
  - exact Hstruct.
  - intros Hs Hc. exfalso. unfold checkedField in Hs. simpl in Hs.
    change (Field.compute (checkedField f)) with (Field.compute f) in Hc.
    apply andb_true_iff in Hs as [_ Hs].
    apply isComputedField_true in Hs. done.
Qed.

Lemma checkedField_idempotent f :
  checkedField (checkedField f) = checkedField f.
Proof.
  destruct f as [? ? ? ? ? stored ? ? ? compute ? ? ? ? ? ? ? fieldType
                 ? ? ? ? ? embed ? ? ?].
  unfold checkedField, Field.isComputedField. simpl.
  by destruct stored, embed, (fieldtype.IsFKRelationType fieldType),
       (bool_decide (compute = "")).
Qed.

Lemma validated_validated fi f s :
  validated fi (checkedField f) (validated fi f s) = validated fi f s.
Proof.
  unfold validated, set_fieldHeap. simpl.
  by rewrite checkedField_idempotent, insert_insert_eq.
Qed.

Lemma checkFieldInfo_again fi s s' :
  checkFieldInfo fi s = Returned tt s' → checkFieldInfo fi s' = Returned tt s'.
Proof.
  intros H. pose proof (checkFieldInfo_Returned_passes _ _ _ H) as (f & Hf & Hp).
  rewrite (checkFieldInfo_passes _ _ _ Hf Hp) in H. inversion H; subst s'.
  rewrite (checkFieldInfo_passes fi (checkedField f)).
  - by rewrite validated_validated.
  - simpl. apply lookup_insert_eq.
  - by apply passesCheck_checked.
Qed.

Lemma returns_Returned {S A} (o : outcome S A) :
  returns o ↔ ∃ a s, o = Returned a s.
Proof.
  destruct o; simpl.
  - split; [eauto|done].
  - split; [done|]. by intros (? & ? & ?).
Qed.

Lemma modelName_cases mp s :
  (∃ n, modelName mp s = Returned n s) ∨ (∃ msg, modelName mp s = Panicked msg s).
Proof.
  destruct mp as [p|]; [|right; by eexists].
  unfold modelName. rewrite bind_unfold. unfold loadModel.
  destruct (modelHeap s !! p); [left|right]; by eexists.
Qed.

Lemma logWarn_cases f s :
  logWarn f s = Returned tt s ∨ ∃ msg, logWarn f s = Panicked msg s.
Proof.
  unfold logWarn. rewrite bind_unfold.
  destruct (modelName_cases (Field.model f) s) as [[n ->]|[msg ->]];
    [by left|right; by eexists].
Qed.

Lemma logPanic_cases {A} msg0 f s :
  ∃ msg, logPanic (A:=A) msg0 f s = Panicked msg s.
Proof.
  unfold logPanic. rewrite bind_unfold.
  destruct (modelName_cases (Field.model f) s) as [[n ->]|[msg ->]];
    by eexists.
Qed.


Lemma when_true c : when true c = c.
Proof. done. Qed.

Lemma relationCheck_cases f s :
  let c := when (bool_decide (reflect.Type_ (Field.structField f)
                              = Some reflect.RecordCollection))
             (rn ← modelName (Field.relatedModel f);
              when (bool_decide (rn = "")) (logPanic undefinedRelationModel f))
  in c s = Returned tt s ∨ ∃ msg, c s = Panicked msg s.
Proof.
  intros c. unfold c. clear c.
  destruct (bool_decide _); [|by left].
  rewrite !when_true, bind_unfold.
  destruct (modelName_cases (Field.relatedModel f) s) as [[n ->]|[msg ->]];
    [|right; by eexists].
  destruct (bool_decide (n = "")); [|by left].
  right. apply logPanic_cases.
Qed.

Lemma embedCheck_cases fi f s :
  let c := when (Field.embed f
                 && negb (fieldtype.IsFKRelationType (Field.fieldType f)))
             (logWarn f;; storeField fi (Field.set_embed false f)) in
  fieldHeap s !! fi = Some f →
  c s = Returned tt
          (set_fieldHeap
             (<[fi := Field.set_embed
                        (Field.embed f
                         && fieldtype.IsFKRelationType (Field.fieldType f)) f]>
                (fieldHeap s)) s)
  ∨ ∃ msg, c s = Panicked msg s.
Proof.
  intros c Hf. unfold c. clear c.
  destruct (Field.embed f) eqn:He.
  - destruct (fieldtype.IsFKRelationType _) eqn:Hfk.
    + left. simpl. rewrite set_embed_id by done. rewrite insert_id by done.
      by rewrite set_fieldHeap_id.
    + change (true && negb false) with true. rewrite !when_true, bind_unfold.
      destruct (logWarn_cases f s) as [->|[msg ->]];
        [by left|right; by eexists].
  - left. simpl. rewrite set_embed_id by done. rewrite insert_id by done.
    by rewrite set_fieldHeap_id.
Qed.

Lemma storedCheck_cases fi f s :
  let c := when (Field.stored f && negb (Field.isComputedField f))
             (logWarn f;; storeField fi (Field.set_stored false f)) in
  fieldHeap s !! fi = Some f →
  c s = Returned tt
          (set_fieldHeap
             (<[fi := Field.set_stored
                        (Field.stored f && Field.isComputedField f) f]>
                (fieldHeap s)) s)
  ∨ ∃ msg, c s = Panicked msg s.
Proof.
  intros c Hf. unfold c. clear c.
  destruct (Field.stored f) eqn:He.
  - destruct (Field.isComputedField f) eqn:Hfk.
    + left. simpl. rewrite set_stored_id by done. rewrite insert_id by done.
      by rewrite set_fieldHeap_id.
    + change (true && negb false) with true. rewrite !when_true, bind_unfold.
      destruct (logWarn_cases f s) as [->|[msg ->]];
        [by left|right; by eexists].
  - left. simpl. rewrite set_stored_id by done. rewrite insert_id by done.
    by rewrite set_fieldHeap_id.
Qed.

Lemma flagsLowered_refl fi f s :
  fieldHeap s !! fi = Some f → flagsLowered fi f s s.
Proof.
  intros Hf. exists (Field.embed f), (Field.stored f).
  rewrite (set_embed_id f) by done. rewrite set_stored_id by done.
  rewrite insert_id by done. by rewrite set_fieldHeap_id.
Qed.

Lemma checkFieldInfo_final fi f s :
  fieldHeap s !! fi = Some f →
  flagsLowered fi f s (final (checkFieldInfo fi s)).
Proof.
  intros Hf. unfold checkFieldInfo.
  rewrite (bind_Returned _ _ _ _ _ (loadField_Some _ _ _ Hf)).
  rewrite bind_unfold.
  destruct (fieldtype.IsReverseRelationType (Field.fieldType f)
            && bool_decide (Field.reverseFK f = "")).
  { unfold when.
    destruct (logPanic_cases (A:=unit) missingReverseFK f s) as [msg ->].
    by apply flagsLowered_refl. }
  unfold when at 1. unfold mret, M_ret. rewrite bind_unfold.
  destruct (embedCheck_cases fi f s Hf) as [->|[msg ->]].
  2: by apply flagsLowered_refl.
  remember (Field.set_embed
              (Field.embed f
               && fieldtype.IsFKRelationType (Field.fieldType f)) f)
    as f1 eqn:Ef1.
  remember (set_fieldHeap (<[fi := f1]> (fieldHeap s)) s) as s1 eqn:Es1.
  assert (flagsLowered fi f s s1) as Hs1.
  { exists (Field.embed f && fieldtype.IsFKRelationType (Field.fieldType f)),
      (Field.stored f).
    split; [|split; [by intros [? _]%andb_true_iff|done]].
    subst s1 f1. by rewrite (set_stored_id _ (Field.stored f)). }
  assert (fieldHeap s1 !! fi = Some f1) as Hf1
    by (subst s1; simpl; apply lookup_insert_eq).
  rewrite (bind_Returned _ _ _ _ _ (loadField_Some _ _ _ Hf1)).
  rewrite bind_unfold.
  destruct (relationCheck_cases f1 s1) as [->|[msg ->]]; [|done].
  destruct (storedCheck_cases fi f1 s1 Hf1) as [->|[msg ->]]; [|done].
  simpl.
  exists (Field.embed f && fieldtype.IsFKRelationType (Field.fieldType f)),
    (Field.stored f && Field.isComputedField f).
  split; [|split; by intros [? _]%andb_true_iff].
  subst s1 f1. unfold set_fieldHeap. simpl. by rewrite insert_insert_eq.
Qed.

Lemma checkFieldInfo_nil fi s :
  fieldHeap s !! fi = None → checkFieldInfo fi s = Panicked nilDereference s.
Proof.
  intros Hf. unfold checkFieldInfo. rewrite bind_unfold. unfold loadField.
  by rewrite Hf.
Qed.


(** X1. [checkFieldInfo] returns exactly on the fields that pass the
    checks: the field is allocated, a reverse relation names its foreign
    key, the related model of a [RecordCollection] field is there and has
    a name, and the model of the field is there wherever a warning is
    logged. In every other case it panics. *)
Theorem checkFieldInfo_returns_iff_passes fi s :
  (returns (checkFieldInfo fi s)
   ↔ ∃ f, fieldHeap s !! fi = Some f ∧ passesCheck s f)
  ∧ (panics (checkFieldInfo fi s)
     ↔ ¬ ∃ f, fieldHeap s !! fi = Some f ∧ passesCheck s f).
Proof.
  assert (returns (checkFieldInfo fi s)
          ↔ ∃ f, fieldHeap s !! fi = Some f ∧ passesCheck s f) as Hiff.
  { split.
    - intros ([] & s' & H)%returns_Returned.
      by apply checkFieldInfo_Returned_passes in H.
    - intros (f & Hf & Hp). by rewrite (checkFieldInfo_passes _ _ _ Hf Hp). }
  split; [exact Hiff|]. by rewrite panics_not_returns, Hiff.
Qed.

(** X2. [checkFieldInfo] is idempotent: a second run on a field that has
    been validated returns as well and changes nothing. *)
Theorem checkFieldInfo_idempotent fi s s' :
  checkFieldInfo fi s = Returned tt s' →
  checkFieldInfo fi s' = Returned tt s'.
Proof. apply checkFieldInfo_again. Qed.

Lemma checkFieldInfo_idempotent_witness :
  checkFieldInfo 1%positive (sampleState countryNameField)
  = Returned tt (validated 1%positive countryNameField
                   (sampleState countryNameField))
  ∧ checkFieldInfo 1%positive
      (validated 1%positive countryNameField (sampleState countryNameField))
    = Returned tt (validated 1%positive countryNameField
                     (sampleState countryNameField)).
Proof.
  split; [reflexivity|].
  apply (checkFieldInfo_idempotent 1%positive (sampleState countryNameField)).
  reflexivity.
Defined.

(** X3. Whatever its outcome, [checkFieldInfo] writes nothing but the
    members [embed] and [stored] of the field it is given, and it only
    ever lowers them: the collections, the models, the registry and the
    other fields are as before, also when it panics half-way. *)
Theorem checkFieldInfo_lowers_only_flags fi s :
  collHeap (final (checkFieldInfo fi s)) = collHeap s
  ∧ modelHeap (final (checkFieldInfo fi s)) = modelHeap s
  ∧ Registry (final (checkFieldInfo fi s)) = Registry s
  ∧ (∀ p, p ≠ fi →
       fieldHeap (final (checkFieldInfo fi s)) !! p = fieldHeap s !! p)
  ∧ match fieldHeap s !! fi with
    | Some f =>
        ∃ e st,
          fieldHeap (final (checkFieldInfo fi s)) !! fi
          = Some (Field.set_stored st (Field.set_embed e f))
          ∧ (e = true → Field.embed f = true)
          ∧ (st = true → Field.stored f = true)
    | None => checkFieldInfo fi s = Panicked nilDereference s
    end.
Proof.
  destruct (fieldHeap s !! fi) as [f|] eqn:Hf.
  - destruct (checkFieldInfo_final fi f s Hf) as (e & st & -> & He & Hst).
    simpl. repeat split; try done.
    + intros p Hp. by apply lookup_insert_ne.
    + exists e, st. split; [apply lookup_insert_eq|done].
  - rewrite (checkFieldInfo_nil _ _ Hf). by simpl.
Qed.

(** X4. A field that has passed [checkFieldInfo] is embedded only if it is
    a many2one or one2one field. *)
Theorem checkFieldInfo_embed_is_FK fi s s' :
  checkFieldInfo fi s = Returned tt s' →
  ∃ f, fieldHeap s' !! fi = Some f
       ∧ (Field.embed f = true
          → fieldtype.IsFKRelationType (Field.fieldType f) = true).
Proof.
  intros (f & Hf & -> & _)%checkFieldInfo_Returned.
  exists (checkedField f). split; [simpl; apply lookup_insert_eq|].
  unfold checkedField. simpl. by intros [_ ?]%andb_true_iff.
Qed.

Lemma checkFieldInfo_embed_is_FK_witness :
  Field.embed embeddedNameField = true
  ∧ ∃ f, fieldHeap (validated 1%positive embeddedNameField
                      (sampleState embeddedNameField)) !! 1%positive = Some f
         ∧ (Field.embed f = true
            → fieldtype.IsFKRelationType (Field.fieldType f) = true).
Proof.
  split; [reflexivity|].
  apply (checkFieldInfo_embed_is_FK 1%positive (sampleState embeddedNameField)).
  reflexivity.
Defined.

(** X5. On a field that has passed [checkFieldInfo], [isStored] is decided
    by the type, then by the store flag if the field is computed and by
    the related path if it is not: a field that is neither computed nor
    related is stored whatever its flag says, a related field without
    compute method never is. *)
Theorem isStored_of_validated IsNonStoredRelationType fi s s' :
  checkFieldInfo fi s = Returned tt s' →
  ∃ f, fieldHeap s' !! fi = Some f
       ∧ isStored IsNonStoredRelationType f
         = negb (IsNonStoredRelationType (Field.fieldType f))
           && (if Field.isComputedField f then Field.stored f
               else negb (Field.isRelatedField f)).
Proof.
  intros (f & Hf & -> & _)%checkFieldInfo_Returned.
  exists (checkedField f). split; [simpl; apply lookup_insert_eq|].
  unfold isStored, checkedField, Field.isComputedField, Field.isRelatedField.
  simpl.
  by destruct (IsNonStoredRelationType _), (bool_decide (Field.compute f = "")),
       (bool_decide (Field.relatedPath f = "")), (Field.stored f).
Qed.

Lemma isStored_of_validated_witness :
  ∃ f, fieldHeap (validated 1%positive countryNameField
                    (sampleState countryNameField)) !! 1%positive = Some f
       ∧ isStored (λ _, false) f
         = negb false
           && (if Field.isComputedField f then Field.stored f
               else negb (Field.isRelatedField f)).
Proof.
  apply (isStored_of_validated (λ _, false) 1%positive
           (sampleState countryNameField)).
  reflexivity.
Defined.

(** ** Registration: what it adds and what it keeps *)

Lemma register_Returned_after fc fInfo c s s' :
  collHeap s !! fc = Some c →
  register fc fInfo s = Returned tt s' →
  ∃ f, fieldHeap s !! fInfo = Some f
       ∧ fieldHeap s' !! fInfo = Some (checkedField f)
       ∧ collHeap s' !! fc = Some (registerIn fInfo (checkedField f) c)
       ∧ s' = set_collHeap
                (<[fc := registerIn fInfo (checkedField f) c]> (collHeap s))
                (validated fInfo f s).
Proof.
  intros Hc (c0 & f & Hc0 & Hf & _ & ->)%register_Returned.
  rewrite Hc in Hc0. inversion Hc0; subst c0.
  exists f. split; [done|]. split; [simpl; apply lookup_insert_eq|].
  split; [simpl; apply lookup_insert_eq|done].
Qed.

Lemma if_append {A} (b : bool) (l : list A) x :
  (if b then l ++ [x] else l)%list = (l ++ if b then [x] else [])%list.
Proof. destruct b; [done|by rewrite app_nil_r]. Qed.

Lemma passesCheck_modelHeap s s' f :
  modelHeap s' = modelHeap s → passesCheck s f → passesCheck s' f.
Proof.
  intros Hm (H1 & H2 & H3 & H4). unfold passesCheck, hasModel in *.
  rewrite Hm. done.
Qed.

Lemma validated_id fi f s :
  fieldHeap s !! fi = Some (checkedField f) →
  validated fi (checkedField f) s = s.
Proof.
  intros Hf. unfold validated. rewrite checkedField_idempotent.
  rewrite insert_id by done. apply set_fieldHeap_id.
Qed.

(** X6. A field that [register] has filed is found by [MustGet] under its
    Go name, and under its JSON name unless that name is the Go name of
    another field of the collection: the registry of Go names is looked up
    first, so that field is returned instead. *)
Theorem register_then_MustGet fc fInfo c s s' :
  collHeap s !! fc = Some c →
  register fc fInfo s = Returned tt s' →
  ∃ f, fieldHeap s' !! fInfo = Some f
       ∧ MustGet fc (Field.name f) s' = Returned fInfo s'
       ∧ MustGet fc (Field.json f) s'
         = Returned
             (if bool_decide (Field.json f = Field.name f) then fInfo
              else default fInfo
                     (FieldsCollection.registryByName c !! Field.json f))
             s'.
Proof.
  intros Hc Hr.
  destruct (register_Returned_after _ _ _ _ _ Hc Hr) as (f & _ & Hf' & Hc' & _).
  exists (checkedField f). split; [done|].
  rewrite !(MustGet_eval _ _ _ _ Hc'). unfold get_. simpl.
  rewrite lookup_insert_eq. split; [done|].
  destruct (bool_decide (Field.json f = Field.name f)) eqn:Hjn.
  - apply bool_decide_eq_true in Hjn. rewrite Hjn.
    by rewrite lookup_insert_eq.
  - apply bool_decide_eq_false in Hjn.
    rewrite lookup_insert_ne by done.
    destruct (FieldsCollection.registryByName c !! Field.json f); [done|].
    by rewrite lookup_insert_eq.
Qed.

Lemma register_then_MustGet_witness :
  ∃ f, fieldHeap displayNameAdded !! 1%positive = Some f
       ∧ MustGet 1%positive (Field.name f) displayNameAdded
         = Returned 1%positive displayNameAdded
       ∧ MustGet 1%positive (Field.json f) displayNameAdded
         = Returned
             (if bool_decide (Field.json f = Field.name f) then 1%positive
              else default 1%positive
                     (FieldsCollection.registryByName emptyFieldsCollection
                        !! Field.json f))
             displayNameAdded.
Proof.
  apply (register_then_MustGet 1%positive 1%positive emptyFieldsCollection
           (sampleState displayNameField)); reflexivity.
Defined.

(** X7. [register] only adds to the collection it is given: every other
    name of the two registries keeps its field, each of the three slices
    keeps its elements and their order, the other members are unchanged,
    and so are the other collections, the models and the registry of
    models. *)
Theorem register_only_grows fc fInfo c s s' :
  collHeap s !! fc = Some c →
  register fc fInfo s = Returned tt s' →
  ∃ c' f, collHeap s' !! fc = Some c' ∧ fieldHeap s' !! fInfo = Some f
    ∧ (∀ n, n ≠ Field.name f →
         FieldsCollection.registryByName c' !! n
         = FieldsCollection.registryByName c !! n)
    ∧ (∀ n, n ≠ Field.json f →
         FieldsCollection.registryByJSON c' !! n
         = FieldsCollection.registryByJSON c !! n)
    ∧ FieldsCollection.computedFields c
      `prefix_of` FieldsCollection.computedFields c'
    ∧ FieldsCollection.computedStoredFields c
      `prefix_of` FieldsCollection.computedStoredFields c'
    ∧ FieldsCollection.relatedFields c
      `prefix_of` FieldsCollection.relatedFields c'
    ∧ FieldsCollection.model c' = FieldsCollection.model c
    ∧ FieldsCollection.bootstrapped c' = FieldsCollection.bootstrapped c
    ∧ (∀ fc', fc' ≠ fc → collHeap s' !! fc' = collHeap s !! fc')
    ∧ modelHeap s' = modelHeap s
    ∧ Registry s' = Registry s.
Proof.
  intros Hc Hr.
  destruct (register_Returned_after _ _ _ _ _ Hc Hr) as (f & _ & Hf' & Hc' & ->).
  exists (registerIn fInfo (checkedField f) c), (checkedField f).
  split; [done|]. split; [done|]. simpl.
  split; [intros n Hn; by apply lookup_insert_ne|].
  split; [intros n Hn; by apply lookup_insert_ne|].
  split; [destruct (_ && _); [by apply prefix_app_r|done]|].
  split; [destruct (_ && _); [by apply prefix_app_r|done]|].
  split; [destruct (Field.isRelatedField _); [by apply prefix_app_r|done]|].
  repeat split; try done.
  intros fc' Hfc'. by apply lookup_insert_ne.
Qed.

Lemma register_only_grows_witness :
  ∃ c' f, collHeap displayNameAdded !! 1%positive = Some c'
    ∧ fieldHeap displayNameAdded !! 1%positive = Some f
    ∧ FieldsCollection.computedStoredFields emptyFieldsCollection
      `prefix_of` FieldsCollection.computedStoredFields c'.
Proof.
  destruct (register_only_grows 1%positive 1%positive emptyFieldsCollection
              (sampleState displayNameField) displayNameAdded)
    as (c' & f & Hc' & Hf & _ & _ & _ & Hp & _); [reflexivity|reflexivity|].
  by exists c', f.
Defined.

(** X8. [register] does not look for the field in the collection: filing
    the same field a second time goes through, leaves the fields and the
    two registries as they are, and appends the field once more to each
    slice it belongs to. *)
Theorem register_twice_repeats_slices fc fInfo c1 s s1 :
  register fc fInfo s = Returned tt s1 →
  collHeap s1 !! fc = Some c1 →
  ∃ s2 c2 f, register fc fInfo s1 = Returned tt s2
    ∧ collHeap s2 !! fc = Some c2
    ∧ fieldHeap s1 !! fInfo = Some f
    ∧ fieldHeap s2 = fieldHeap s1
    ∧ FieldsCollection.registryByName c2 = FieldsCollection.registryByName c1
    ∧ FieldsCollection.registryByJSON c2 = FieldsCollection.registryByJSON c1
    ∧ FieldsCollection.computedFields c2
      = (FieldsCollection.computedFields c1
         ++ if Field.isComputedField f && negb (Field.stored f)
            then [fInfo] else [])%list
    ∧ FieldsCollection.computedStoredFields c2
      = (FieldsCollection.computedStoredFields c1
         ++ if Field.isComputedField f && Field.stored f
            then [fInfo] else [])%list
    ∧ FieldsCollection.relatedFields c2
      = (FieldsCollection.relatedFields c1
         ++ if Field.isRelatedField f then [fInfo] else [])%list.
Proof.
  intros Hr Hc1.
  pose proof Hr as (c & f & Hc & Hf & Hchk & Hs1)%register_Returned.
  destruct (register_Returned_after _ _ _ _ _ Hc Hr)
    as (f0 & Hf0 & Hf' & Hc' & _).
  rewrite Hf in Hf0. inversion Hf0; subst f0. clear Hf0.
  assert (c1 = registerIn fInfo (checkedField f) c) as Ec1 by congruence.
  clear Hc'.
  pose proof (checkFieldInfo_Returned_passes _ _ _ Hchk) as (f0 & Hf0 & Hp).
  rewrite Hf in Hf0. inversion Hf0; subst f0. clear Hf0.
  assert (passesCheck s1 (checkedField f)) as Hp1.
  { apply (passesCheck_modelHeap (validated fInfo f s));
      [by subst s1|by apply passesCheck_checked]. }
  pose proof (checkFieldInfo_passes _ _ _ Hf' Hp1) as Hchk1.
  rewrite (validated_id _ _ _ Hf') in Hchk1.
  assert (returns (checkFieldInfo fInfo s1)) as Hret by (by rewrite Hchk1).
  pose proof (register_run _ _ _ _ _ Hc1 Hf' Hret) as Hr2.
  rewrite (validated_id _ _ _ Hf') in Hr2.
  rewrite checkedField_idempotent in Hr2.
  eexists _, _, (checkedField f). split; [exact Hr2|].
  split; [simpl; apply lookup_insert_eq|]. split; [done|].
  split; [done|]. simpl.
  assert (FieldsCollection.registryByName c1 !! Field.name f = Some fInfo)
    as Hn by (rewrite Ec1; simpl; apply lookup_insert_eq).
  assert (FieldsCollection.registryByJSON c1 !! Field.json f = Some fInfo)
    as Hj by (rewrite Ec1; simpl; apply lookup_insert_eq).
  split; [by apply insert_id|]. split; [by apply insert_id|].
  split; [apply if_append|]. split; [apply if_append|]. apply if_append.
Qed.

Lemma register_twice_repeats_slices_witness :
  ∃ s2 c2 f, register 1%positive 1%positive displayNameAdded = Returned tt s2
    ∧ collHeap s2 !! 1%positive = Some c2
    ∧ fieldHeap displayNameAdded !! 1%positive = Some f
    ∧ FieldsCollection.computedStoredFields c2
      = (FieldsCollection.computedStoredFields
           (registerIn 1%positive displayNameField emptyFieldsCollection)
         ++ if Field.isComputedField f && Field.stored f
            then [1%positive] else [])%list.
Proof.
  destruct (register_twice_repeats_slices 1%positive 1%positive
              (registerIn 1%positive displayNameField emptyFieldsCollection)
              (sampleState displayNameField) displayNameAdded)
    as (s2 & c2 & f & H1 & H2 & H3 & _ & _ & _ & _ & H4 & _);
    [reflexivity|reflexivity|].
  by exists s2, c2, f.
Defined.

(** X9. [newFieldsCollection] always returns, with a collection at an
    address that no collection had before: it shares nothing with the
    existing collections, which stay as they are, as do the fields, the
    models and the registry; and no name is found in it. *)
Theorem newFieldsCollection_fresh_and_empty s :
  ∃ fc s', newFieldsCollection s = Returned fc s'
    ∧ collHeap s !! fc = None
    ∧ (∀ p, p ≠ fc → collHeap s' !! p = collHeap s !! p)
    ∧ fieldHeap s' = fieldHeap s
    ∧ modelHeap s' = modelHeap s
    ∧ Registry s' = Registry s
    ∧ ∀ n, get fc n s' = Returned None s' ∧ panics (MustGet fc n s').
Proof.
  eexists _, _. split; [reflexivity|].
  split; [apply fresh_not_allocated|].
  split; [intros p Hp; simpl; by apply lookup_insert_ne|].
  repeat (split; [done|]).
  intros n.
  assert (get (fresh (dom (collHeap s))) n
            (set_collHeap
               (<[fresh (dom (collHeap s)) := emptyFieldsCollection]>
                  (collHeap s)) s)
          = Returned None
              (set_collHeap
                 (<[fresh (dom (collHeap s)) := emptyFieldsCollection]>
                    (collHeap s)) s)) as Hg.
  { unfold get. rewrite bind_unfold. unfold loadColl. simpl.
    by rewrite lookup_insert_eq. }
  split; [exact Hg|].
  unfold MustGet. rewrite bind_unfold, Hg. done.
Qed.

(** ** Listings *)

Lemma final_bind {A B} (c : M A) (k : A → M B) s :
  final ((c ≫= k) s)
  = match c s with
    | Returned a s' => final (k a s')
    | Panicked _ s' => s'
    end.
Proof. rewrite bind_unfold. by destruct (c s). Qed.

Lemma foldM_final {A B} (l : list A) (acc : B) (body : B → A → M B) s :
  (∀ acc x s, final (body acc x s) = s) →
  final (foldM l acc body s) = s.
Proof.
  intros Hb. revert acc. induction l as [|x l IH]; intros acc; [done|].
  simpl. rewrite final_bind. pose proof (Hb acc x s) as Hx.
  destruct (body acc x s) as [acc' s1|msg s1]; simpl in Hx; subst s1; [|done].
  apply IH.
Qed.

Lemma foldM_select {A B} (ptr : A → Ptr) (sel : A → Field → option B)
    (body : list B → A → M (list B)) l acc s :
  (∀ res x f s, fieldHeap s !! ptr x = Some f →
     body res x s
     = Returned (match sel x f with
                 | Some b => (res ++ [b])%list
                 | None => res
                 end) s) →
  (∀ x, x ∈ l → is_Some (fieldHeap s !! ptr x)) →
  foldM l acc body s
  = Returned (acc ++ omap (λ x, fieldHeap s !! ptr x ≫= sel x) l)%list s.
Proof.
  intros Hb. revert acc.
  induction l as [|x l IH]; intros acc Hl; simpl.
  - by rewrite app_nil_r.
  - destruct (Hl x) as [f Hf]; [by left|].
    rewrite bind_unfold, (Hb _ _ _ _ Hf).
    rewrite IH by (intros y Hy; apply Hl; by right).
    rewrite Hf. simpl. destruct (sel x f); [|done].
    by rewrite <- app_assoc.
Qed.

Lemma nameIn_true n l : nameIn n l = true ↔ n ∈ l.
Proof.
  induction l as [|x l IH]; simpl.
  - split; [done|]. by intros ?%elem_of_nil.
  - destruct (bool_decide (n = x)) eqn:Hn.
    + apply bool_decide_eq_true in Hn. subst. split; [left|done].
    + apply bool_decide_eq_false in Hn. rewrite IH. split; [by right|].
      intros [?|?]%elem_of_cons; done.
Qed.

Lemma NoDup_omap_keys {B} (g : string * B → option string)
    (l : list (string * B)) :
  (∀ e n, g e = Some n → n = e.1) → NoDup l.*1 → NoDup (omap g l).
Proof.
  intros Hg. induction l as [|e l IH]; simpl; [constructor|].
  intros [Hnotin Hnd]%NoDup_cons. destruct (g e) as [n|] eqn:He; [|by apply IH].
  apply NoDup_cons. split; [|by apply IH].
  intros (e' & He' & Hge')%list_elem_of_omap.
  apply Hg in He. apply Hg in Hge'. apply Hnotin.
  rewrite <- He, Hge'. by apply list_elem_of_fmap_2.
Qed.

Lemma foldM_flat {A B} (h : A → list B) (body : list B → A → M (list B))
    l acc s :
  (∀ res x, x ∈ l → body res x s = Returned (res ++ h x)%list s) →
  foldM l acc body s = Returned (acc ++ flat_map h l)%list s.
Proof.
  revert acc. induction l as [|x l IH]; intros acc Hb; simpl.
  - by rewrite app_nil_r.
  - rewrite bind_unfold, Hb by (by left).
    rewrite IH by (intros res y Hy; apply Hb; by right).
    by rewrite <- app_assoc.
Qed.

Lemma omap_cons_eq {A B} (f : A → option B) x l :
  omap f (x :: l)
  = match f x with Some y => y :: omap f l | None => omap f l end.
Proof. done. Qed.

Lemma omap_filter_allocated (test : Field → bool) (pred : Ptr → bool)
    (l : list Ptr) s :
  (∀ p f, fieldHeap s !! p = Some f → pred p = test f) →
  (∀ p, p ∈ l → is_Some (fieldHeap s !! p)) →
  omap (λ p, fieldHeap s !! p ≫= λ f, if test f then Some p else None) l
  = filter (λ p, pred p = true) l.
Proof.
  intros Hpred. induction l as [|p l IH]; intros Hl; [done|].
  rewrite filter_cons, omap_cons_eq.
  rewrite IH by (intros q Hq; apply Hl; by right).
  destruct (Hl p) as [f Hf]; [by left|]. rewrite Hf. simpl.
  rewrite (Hpred _ _ Hf).
  destruct (test f); [by rewrite decide_True|by rewrite decide_False].
Qed.

Lemma relatedNonStoredFieldNames_eval fc c s :
  collHeap s !! fc = Some c →
  (∀ p, p ∈ FieldsCollection.relatedFields c → is_Some (fieldHeap s !! p)) →
  relatedNonStoredFieldNames fc s
  = Returned
      (omap (λ p, fieldHeap s !! p
                  ≫= λ f, if negb (Field.stored f) then Some (Field.name f)
                          else None)
         (FieldsCollection.relatedFields c)) s.
Proof.
  intros Hc Ha. unfold relatedNonStoredFieldNames.
  rewrite (bind_Returned _ _ _ _ _ (loadColl_Some _ _ _ Hc)).
  rewrite (foldM_select id
             (λ _ f, if negb (Field.stored f) then Some (Field.name f)
                     else None)).
  - done.
  - intros res p f s0 Hf. unfold id in Hf.
    rewrite (bind_Returned _ _ _ _ _ (loadField_Some _ _ _ Hf)).
    by destruct (negb _).
  - exact Ha.
Qed.

(** X12. A related field without compute method that [register] has filed
    is the last name that [relatedNonStoredFieldNames] lists, whether or
    not it was flagged as stored: validation has reset the flag. *)
Theorem register_related_is_listed fc fInfo c f s s' :
  collHeap s !! fc = Some c → fieldHeap s !! fInfo = Some f →
  (∀ p, p ∈ FieldsCollection.relatedFields c → is_Some (fieldHeap s !! p)) →
  Field.relatedPath f ≠ "" → Field.compute f = "" →
  register fc fInfo s = Returned tt s' →
  ∃ l, relatedNonStoredFieldNames fc s' = Returned (l ++ [Field.name f])%list s'.
Proof.
  intros Hc Hf Ha Hrel Hcomp Hr.
  destruct (register_Returned_after _ _ _ _ _ Hc Hr)
    as (f0 & Hf0 & Hf' & Hc' & Hs').
  rewrite Hf in Hf0. inversion Hf0; subst f0. clear Hf0.
  assert (Field.isRelatedField (checkedField f) = true) as Hisrel
    by (by apply isRelatedField_true).
  assert (FieldsCollection.relatedFields
            (registerIn fInfo (checkedField f) c)
          = (FieldsCollection.relatedFields c ++ [fInfo])%list) as Hrf
    by (simpl; by rewrite Hisrel).
  rewrite (relatedNonStoredFieldNames_eval _ _ _ Hc').
  - rewrite Hrf, omap_app. eexists. f_equal. f_equal.
    simpl. rewrite Hf'. simpl.
    unfold Field.isComputedField. rewrite Hcomp. simpl.
    by rewrite andb_false_r.
  - rewrite Hrf. intros p [Hp| ->%list_elem_of_singleton]%elem_of_app;
      [|by eexists].
    destruct (Ha p Hp) as [fp Hfp]. subst s'. simpl.
    destruct (decide (p = fInfo)) as [->|Hne].
    + rewrite lookup_insert_eq. by eexists.
    + rewrite lookup_insert_ne by done. by eexists.
Qed.

Lemma register_related_is_listed_witness :
  Field.relatedPath countryNameField ≠ ""
  ∧ Field.stored countryNameField = true
  ∧ ∃ l, relatedNonStoredFieldNames 1%positive
           (final (register 1%positive 1%positive
                     (sampleState countryNameField)))
         = Returned (l ++ [Field.name countryNameField])%list
             (final (register 1%positive 1%positive
                       (sampleState countryNameField))).
Proof.
  split; [discriminate|]. split; [reflexivity|].
  apply (register_related_is_listed 1%positive 1%positive
           emptyFieldsCollection countryNameField
           (sampleState countryNameField));
    [reflexivity | reflexivity | by intros p ?%elem_of_nil | discriminate
    | reflexivity | reflexivity].
Defined.

(** X13. Without arguments [getComputedFields] returns the slice of the
    computed, non-stored fields itself, and reads none of the fields.
    With arguments it returns, for each argument in turn, the fields of
    the slice that go by this name, Go name or JSON name, in the order of
    the slice: a name that no field has adds nothing, and a field that is
    asked for under both of its names comes twice. *)
Theorem getComputedFields_selects fc c fields s :
  collHeap s !! fc = Some c →
  (fields = [] →
   getComputedFields fc fields s
   = Returned (FieldsCollection.computedFields c) s)
  ∧ (fields ≠ [] →
     (∀ p, p ∈ FieldsCollection.computedFields c →
        is_Some (fieldHeap s !! p)) →
     getComputedFields fc fields s
     = Returned
         (flat_map (λ n, filter (λ p, named s n p = true)
                           (FieldsCollection.computedFields c)) fields) s).
Proof.
  intros Hc. unfold getComputedFields.
  rewrite (bind_Returned _ _ _ _ _ (loadColl_Some _ _ _ Hc)).
  split; [by intros ->|].
  intros Hne Ha.
  destruct fields as [|n0 rest]; [done|].
  change (0 <? length (n0 :: rest))%nat with true. cbv iota.
  rewrite (foldM_flat
             (λ n, filter (λ p, named s n p = true)
                     (FieldsCollection.computedFields c))); [done|].
  intros res n _.
  rewrite (foldM_select id
             (λ p f, if bool_decide (n = Field.name f)
                        || bool_decide (n = Field.json f)
                     then Some p else None)).
  - f_equal. f_equal.
    apply (omap_filter_allocated
             (λ f, bool_decide (n = Field.name f)
                   || bool_decide (n = Field.json f))
             (named s n)); [|done].
    intros p f Hf. unfold named. by rewrite Hf.
  - intros res' p f s0 Hf. unfold id in Hf.
    rewrite (bind_Returned _ _ _ _ _ (loadField_Some _ _ _ Hf)).
    by destruct (_ || _).
  - exact Ha.
Qed.

Section ListingProperties.

Variable IsNonStoredRelationType : FieldType → bool.
Variable rangeMap : mapOrder.
Hypothesis rangeMap_enumerates : enumerates rangeMap.

Lemma rangeMap_NoDup m : NoDup (rangeMap m).*1.
Proof.
  rewrite (rangeMap_enumerates m). apply NoDup_fst_map_to_list.
Qed.

Lemma rangeMap_elem m e : e ∈ rangeMap m ↔ m !! e.1 = Some e.2.
Proof.
  rewrite (rangeMap_enumerates m). destruct e as [n p].
  apply elem_of_map_to_list.
Qed.

Lemma keyed_listing (sel : string → Field → bool) (m : gmap string Ptr)
    (body : list string → string * Ptr → M (list string)) s :
  (∀ res e f s, fieldHeap s !! e.2 = Some f →
     body res e s
     = Returned (if sel e.1 f then (res ++ [e.1])%list else res) s) →
  allocatedIn s m →
  ∃ l, foldM (rangeMap m) [] body s = Returned l s
       ∧ NoDup l
       ∧ ∀ n, n ∈ l
              ↔ ∃ p f, m !! n = Some p ∧ fieldHeap s !! p = Some f
                       ∧ sel n f = true.
Proof.
  intros Hb Ha.
  set (g := λ e : string * Ptr,
              fieldHeap s !! e.2
              ≫= λ f, if sel e.1 f then Some e.1 else None).
  exists (omap g (rangeMap m)). split; [|split].
  - rewrite (foldM_select snd
               (λ e f, if sel e.1 f then Some e.1 else None) body).
    + done.
    + intros res e f s0 Hf. rewrite (Hb _ _ _ _ Hf). by destruct (sel _ _).
    + intros [n p] Hx%rangeMap_elem. by apply (Ha n).
  - apply NoDup_omap_keys; [|apply rangeMap_NoDup].
    intros e n. unfold g. destruct (fieldHeap s !! e.2) as [f|]; [|done].
    simpl. destruct (sel _ _); [|done]. by intros [= <-].
  - intros n. rewrite list_elem_of_omap. split.
    + intros ([n' p] & He%rangeMap_elem & Hg). unfold g in Hg. simpl in *.
      destruct (fieldHeap s !! p) as [f|] eqn:Hf; [|done]. simpl in Hg.
      destruct (sel n' f) eqn:Hsel; [|done]. inversion Hg; subst n'.
      by exists p, f.
    + intros (p & f & Hm & Hf & Hsel). exists (n, p).
      split; [by apply rangeMap_elem|]. unfold g. simpl.
      rewrite Hf. simpl. by rewrite Hsel.
Qed.

(** X10. [storedFieldNames] lists, each once, the Go names of the fields
    of the collection that [isStored] reports as stored; with arguments it
    keeps those of them that are among the arguments. The arguments are
    compared with Go names only, and the order of iteration over the map
    does not matter for what is listed. *)
Theorem storedFieldNames_lists_stored fc c fieldNames s :
  collHeap s !! fc = Some c →
  allocatedIn s (FieldsCollection.registryByName c) →
  ∃ l, storedFieldNames IsNonStoredRelationType rangeMap fc fieldNames s
       = Returned l s
       ∧ NoDup l
       ∧ ∀ n, n ∈ l
              ↔ (fieldNames = [] ∨ n ∈ fieldNames)
                ∧ ∃ p f, FieldsCollection.registryByName c !! n = Some p
                         ∧ fieldHeap s !! p = Some f
                         ∧ isStored IsNonStoredRelationType f = true.
Proof.
  intros Hc Ha. unfold storedFieldNames.
  rewrite (bind_Returned _ _ _ _ _ (loadColl_Some _ _ _ Hc)).
  destruct (keyed_listing
              (λ n f, isStored IsNonStoredRelationType f
                      && (if (length fieldNames =? 0)%nat then true
                          else nameIn n fieldNames))
              (FieldsCollection.registryByName c)
              (λ res e,
                 let keepField :=
                   if (length fieldNames =? 0)%nat then true
                   else nameIn e.1 fieldNames in
                 fi ← loadField e.2;
                 if isStored IsNonStoredRelationType fi && keepField
                 then mret (res ++ [e.1])%list
                 else mret res) s) as (l & Hl & Hnd & Hin).
  - intros res e f s0 Hf. simpl.
    rewrite (bind_Returned _ _ _ _ _ (loadField_Some _ _ _ Hf)).
    by destruct (_ && _).
  - exact Ha.
  - exists l. split; [exact Hl|]. split; [exact Hnd|].
    intros n. rewrite Hin.
    assert ((if (length fieldNames =? 0)%nat then true
             else nameIn n fieldNames) = true
            ↔ fieldNames = [] ∨ n ∈ fieldNames) as Hkeep.
    { destruct fieldNames as [|x l']; simpl; [by intuition|].
      change (nameIn n (x :: l') = true ↔ x :: l' = [] ∨ n ∈ x :: l').
      rewrite nameIn_true. split; [by right|]. by intros [?|?]. }
    split.
    + intros (p & f & Hp & Hf & [Hst Hk]%andb_true_iff).
      split; [by apply Hkeep|]. by exists p, f.
    + intros [Hk (p & f & Hp & Hf & Hst)]. exists p, f.
      split; [done|]. split; [done|]. apply andb_true_iff.
      split; [done|]. by apply Hkeep.
Qed.

(** X11. [nonRelationFieldJSONNames] lists, each once, the JSON names of
    the fields of the collection whose [relatedModel] pointer is nil. It
    goes by that pointer, not by [relatedModelName]: a relation field
    whose related model has not been resolved yet is listed too. *)
Theorem nonRelationFieldJSONNames_lists_unresolved fc c s :
  collHeap s !! fc = Some c →
  allocatedIn s (FieldsCollection.registryByJSON c) →
  ∃ l, nonRelationFieldJSONNames rangeMap fc s = Returned l s
       ∧ NoDup l
       ∧ ∀ n, n ∈ l
              ↔ ∃ p f, FieldsCollection.registryByJSON c !! n = Some p
                       ∧ fieldHeap s !! p = Some f
                       ∧ Field.relatedModel f = None.
Proof.
  intros Hc Ha. unfold nonRelationFieldJSONNames.
  rewrite (bind_Returned _ _ _ _ _ (loadColl_Some _ _ _ Hc)).
  destruct (keyed_listing
              (λ n f, bool_decide (Field.relatedModel f = None))
              (FieldsCollection.registryByJSON c)
              (λ res e,
                 fi ← loadField e.2;
                 match Field.relatedModel fi with
                 | None => mret (res ++ [e.1])%list
                 | Some _ => mret res
                 end) s) as (l & Hl & Hnd & Hin).
  - intros res e f s0 Hf.
    rewrite (bind_Returned _ _ _ _ _ (loadField_Some _ _ _ Hf)).
    by destruct (Field.relatedModel f).
  - exact Ha.
  - exists l. split; [exact Hl|]. split; [exact Hnd|].
    intros n. rewrite Hin.
    split; intros (p & f & Hp & Hf & Hr); exists p, f;
      (split; [done|]); (split; [done|]).
    + by apply bool_decide_eq_true in Hr.
    + by apply bool_decide_eq_true.
Qed.

(** X14. The listings only read: whatever they return, and also when they
    panic on a nil pointer, the state is as before. *)
Theorem listings_read_only fc fieldNames s :
  final (storedFieldNames IsNonStoredRelationType rangeMap fc fieldNames s)
  = s
  ∧ final (relatedNonStoredFieldNames fc s) = s
  ∧ final (nonRelationFieldJSONNames rangeMap fc s) = s
  ∧ final (getComputedFields fc fieldNames s) = s
  ∧ final (getComputedStoredFields fc s) = s.
Proof.
  assert (∀ {B} (k : FieldsCollection → M B),
            (∀ c s, final (k c s) = s) →
            final ((loadColl fc ≫= k) s) = s) as Hload.
  { intros B k Hk. rewrite final_bind. unfold loadColl.
    destruct (collHeap s !! fc); [apply Hk|done]. }
  assert (∀ {B} p (k : Field → M B) s,
            (∀ f s, final (k f s) = s) →
            final ((loadField p ≫= k) s) = s) as Hfield.
  { intros B p k s0 Hk. rewrite final_bind. unfold loadField.
    destruct (fieldHeap s0 !! p); [apply Hk|done]. }
  repeat split.
  - apply Hload. intros c s0. apply foldM_final. intros acc x s1.
    apply Hfield. intros f s2. by destruct (_ && _).
  - apply Hload. intros c s0. apply foldM_final. intros acc x s1.
    apply Hfield. intros f s2. by destruct (negb _).
  - apply Hload. intros c s0. apply foldM_final. intros acc x s1.
    apply Hfield. intros f s2. by destruct (Field.relatedModel f).
  - apply Hload. intros c s0. destruct (0 <? length fieldNames)%nat; [|done].
    apply foldM_final. intros acc x s1. apply foldM_final. intros acc' y s2.
    apply Hfield. intros f s3. by destruct (_ || _).
  - apply Hload. by intros c s0.
Qed.

End ListingProperties.

Lemma displayNameAdded_allocatedIn_byName :
  allocatedIn displayNameAdded
    (FieldsCollection.registryByName
       (registerIn 1%positive displayNameField emptyFieldsCollection)).
Proof.
  intros n p H. simpl in H.
  apply lookup_insert_Some in H as [[_ <-]|[_ H]]; [|by rewrite lookup_empty in H].
  eexists. reflexivity.
Defined.

Lemma displayNameAdded_allocatedIn_byJSON :
  allocatedIn displayNameAdded
    (FieldsCollection.registryByJSON
       (registerIn 1%positive displayNameField emptyFieldsCollection)).
Proof.
  intros n p H. simpl in H.
  apply lookup_insert_Some in H as [[_ <-]|[_ H]]; [|by rewrite lookup_empty in H].
  eexists. reflexivity.
Defined.

Lemma storedFieldNames_lists_stored_witness :
  ∃ l, storedFieldNames (λ _, false) listOrder 1%positive ["DisplayName"]
         displayNameAdded
       = Returned l displayNameAdded
       ∧ NoDup l
       ∧ ∀ n, n ∈ l
              ↔ (["DisplayName"] = [] ∨ n ∈ ["DisplayName"])
                ∧ ∃ p f,
                    FieldsCollection.registryByName
                      (registerIn 1%positive displayNameField
                         emptyFieldsCollection) !! n = Some p
                    ∧ fieldHeap displayNameAdded !! p = Some f
                    ∧ isStored (λ _, false) f = true.
Proof.
  apply (storedFieldNames_lists_stored (λ _, false) listOrder
           listOrder_enumerates 1%positive
           (registerIn 1%positive displayNameField emptyFieldsCollection)
           ["DisplayName"] displayNameAdded);
    [reflexivity | exact displayNameAdded_allocatedIn_byName].
Defined.

Lemma nonRelationFieldJSONNames_lists_unresolved_witness :
  ∃ l, nonRelationFieldJSONNames listOrder 1%positive displayNameAdded
       = Returned l displayNameAdded
       ∧ NoDup l
       ∧ ∀ n, n ∈ l
              ↔ ∃ p f,
                  FieldsCollection.registryByJSON
                    (registerIn 1%positive displayNameField
                       emptyFieldsCollection) !! n = Some p
                  ∧ fieldHeap displayNameAdded !! p = Some f
                  ∧ Field.relatedModel f = None.
Proof.
  apply (nonRelationFieldJSONNames_lists_unresolved listOrder
           listOrder_enumerates 1%positive
           (registerIn 1%positive displayNameField emptyFieldsCollection)
           displayNameAdded);
    [reflexivity | exact displayNameAdded_allocatedIn_byJSON].
Defined.

Lemma getComputedFields_selects_witness :
  getComputedFields 1%positive [] ageAdded
  = Returned [1%positive] ageAdded
  ∧ getComputedFields 1%positive ["Age"; "Name"; "age"] ageAdded
    = Returned [1%positive; 1%positive] ageAdded.
Proof.
  destruct (getComputedFields_selects 1%positive
              (registerIn 1%positive ageField emptyFieldsCollection)
              [] ageAdded eq_refl) as [H1 _].
  destruct (getComputedFields_selects 1%positive
              (registerIn 1%positive ageField emptyFieldsCollection)
              ["Age"; "Name"; "age"] ageAdded eq_refl) as [_ H2].
  split; [exact (H1 eq_refl)|].
  apply H2; [discriminate|].
  intros p Hp. simpl in Hp. apply list_elem_of_singleton in Hp as ->.
  eexists. reflexivity.
Defined.

(** ** The junction model: lookup after creation, and what creation keeps *)

Section M2MFurther.

Variable SnakeCaseString : string → string.
Variable Many2ManyLinkModel : Z.
Variable rangeMap : mapOrder.
Hypothesis rangeMap_enumerates : enumerates rangeMap.

Abbreviation createRel :=
  (createM2MRelModelInfo SnakeCaseString Many2ManyLinkModel rangeMap).


Lemma createM2MRelModelInfo_existing_inv relModelName model1 model2 relMI r s s' :
  modelCollection.registryByName (Registry s) !! relModelName = Some relMI →
  createRel relModelName model1 model2 s = Returned r s' →
  ∃ m c, modelHeap s !! relMI = Some m ∧ collHeap s !! Model.fields m = Some c
         ∧ s' = s.
Proof.
  intros Hreg. unfold createM2MRelModelInfo.
  rewrite (bind_Returned _ _ _ _ _ (Registry_Get_eval _ _)), Hreg.
  intros (m & s1 & [Hm ->]%loadModel_inv & H)%bind_inv.
  apply bind_inv in H as (c & s2 & [Hc ->]%loadColl_inv & H).
  unfold mret, M_ret in H. inversion H; subst. by exists m, c.
Qed.

(** X15. When the junction model is registered, [createM2MRelModelInfo]
    changes nothing and returns it with the fields that the by-name
    registry of its collection files under [model1] and [model2], nil
    where there is none, whatever the order in which the map is
    iterated; when the two names are the same, the second field is nil. *)
Theorem createM2MRelModelInfo_returns_existing relModelName model1 model2
    relMI m c s :
  modelCollection.registryByName (Registry s) !! relModelName = Some relMI →
  modelHeap s !! relMI = Some m →
  collHeap s !! Model.fields m = Some c →
  createM2MRelModelInfo SnakeCaseString Many2ManyLinkModel rangeMap relModelName model1 model2 s =
  Returned
    (relMI,
     FieldsCollection.registryByName c !! model1,
     if bool_decide (model1 = model2) then None
     else FieldsCollection.registryByName c !! model2)
    s.
Proof. by apply createM2MRelModelInfo_existing. Qed.

(** X16. Once [createM2MRelModelInfo] has returned for two different model
    names, calling it again returns the same junction model and the same
    two fields and changes nothing; called from the other side of the
    relation, with the two names swapped, it returns the same model with
    the two fields swapped. *)
Theorem createM2MRelModelInfo_second_call relModelName model1 model2 r s s' :
  model1 ≠ model2 →
  createM2MRelModelInfo SnakeCaseString Many2ManyLinkModel rangeMap relModelName model1 model2 s = Returned r s' →
  createM2MRelModelInfo SnakeCaseString Many2ManyLinkModel rangeMap relModelName model1 model2 s' = Returned r s'
  ∧ createM2MRelModelInfo SnakeCaseString Many2ManyLinkModel rangeMap relModelName model2 model1 s' = Returned (r.1.1, r.2, r.1.2) s'.
Proof.
  intros Hne Hcall.
  assert (model2 ≠ model1) as Hne' by (by intros ->).
  destruct (modelCollection.registryByName (Registry s) !! relModelName)
    as [relMI|] eqn:Hreg.
  - destruct (createM2MRelModelInfo_existing_inv _ _ _ _ _ _ _ Hreg Hcall)
      as (m & c & Hm & Hc & ->).
    split; [done|].
    rewrite (createM2MRelModelInfo_existing SnakeCaseString
               Many2ManyLinkModel rangeMap relModelName model1 model2 _ _ _ _
               rangeMap_enumerates Hreg Hm Hc) in Hcall.
    rewrite (createM2MRelModelInfo_existing SnakeCaseString
               Many2ManyLinkModel rangeMap relModelName model2 model1 _ _ _ _
               rangeMap_enumerates Hreg Hm Hc).
    rewrite bool_decide_eq_false_2 in Hcall by done.
    rewrite bool_decide_eq_false_2 by done.
    inversion Hcall. done.
  - destruct (createM2MRelModelInfo_creates SnakeCaseString
                Many2ManyLinkModel rangeMap relModelName model1 model2 s
                Hreg Hne)
      as (newMI & ourField & theirField & fc & c & s0 & Hrun & _ & Hreg'
          & Hm' & Hc' & Hby & _).
    rewrite Hrun in Hcall. inversion Hcall; subst r s0. clear Hcall.
    rewrite (createM2MRelModelInfo_existing SnakeCaseString
               Many2ManyLinkModel rangeMap relModelName model1 model2 _ _ _ _
               rangeMap_enumerates Hreg' Hm' Hc').
    rewrite (createM2MRelModelInfo_existing SnakeCaseString
               Many2ManyLinkModel rangeMap relModelName model2 model1 _ _ _ _
               rangeMap_enumerates Hreg' Hm' Hc').
    rewrite Hby. rewrite !bool_decide_eq_false_2 by done.
    repeat first [rewrite lookup_insert_eq
                 |rewrite lookup_singleton_eq
                 |rewrite lookup_insert_ne by done].
    done.
Qed.


End M2MFurther.

Lemma createM2MRelModelInfo_returns_existing_witness :
  createM2MRelModelInfo sampleSnakeCase sampleLinkOption listOrder
    "Partner" "DisplayName" "Name" displayNameAdded
  = Returned (1%positive, Some 1%positive, None) displayNameAdded.
Proof.
  apply (createM2MRelModelInfo_returns_existing sampleSnakeCase
           sampleLinkOption listOrder listOrder_enumerates
           "Partner" "DisplayName" "Name" 1%positive sampleModel
           (registerIn 1%positive displayNameField emptyFieldsCollection)
           displayNameAdded); reflexivity.
Defined.

Lemma createM2MRelModelInfo_second_call_witness :
  createM2MRelModelInfo sampleSnakeCase sampleLinkOption listOrder
    "PartnerTagRel" "Partner" "Tag" junctionCreated
  = Returned (2%positive, Some 2%positive, Some 3%positive) junctionCreated
  ∧ createM2MRelModelInfo sampleSnakeCase sampleLinkOption listOrder
      "PartnerTagRel" "Tag" "Partner" junctionCreated
    = Returned (2%positive, Some 3%positive, Some 2%positive) junctionCreated.
Proof.
  apply (createM2MRelModelInfo_second_call sampleSnakeCase sampleLinkOption
           listOrder listOrder_enumerates "PartnerTagRel" "Partner" "Tag"
           (2%positive, Some 2%positive, Some 3%positive)
           (sampleState nameField) junctionCreated);
    [discriminate | vm_compute; reflexivity].
Defined.


(** ** The dependency graph: what a run keeps, and a second run *)

Lemma set_dependencies_id f : Field.set_dependencies (Field.dependencies f) f = f.
Proof. by destruct f. Qed.

Lemma dependenciesGrown_refl s : dependenciesGrown s s.
Proof.
  repeat split. intros p. destruct (fieldHeap s !! p) as [f|] eqn:Hf; [|done].
  exists []. by rewrite app_nil_r, set_dependencies_id.
Qed.

Lemma dependenciesGrown_trans s1 s2 s3 :
  dependenciesGrown s1 s2 → dependenciesGrown s2 s3 → dependenciesGrown s1 s3.
Proof.
  intros (Hc1 & Hm1 & Hr1 & Hf1) (Hc2 & Hm2 & Hr2 & Hf2).
  split; [congruence|]. split; [congruence|]. split; [congruence|].
  intros p. specialize (Hf1 p). specialize (Hf2 p).
  destruct (fieldHeap s1 !! p) as [f|].
  - destruct Hf1 as [l1 Hf1]. rewrite Hf1 in Hf2. destruct Hf2 as [l2 Hf2].
    exists (l1 ++ l2)%list. rewrite Hf2. f_equal. simpl.
    destruct f. unfold Field.set_dependencies. simpl. by rewrite app_assoc.
  - by rewrite Hf1 in Hf2.
Qed.

Lemma dependenciesGrown_append refField cd s :
  dependenciesGrown s (appendDependency refField cd s).
Proof.
  split; [apply appendDependency_collHeap|].
  split; [apply appendDependency_modelHeap|].
  split; [apply appendDependency_Registry|].
  intros p. rewrite appendDependency_lookup.
  destruct (fieldHeap s !! p) as [f|]; [|done]. simpl.
  case_bool_decide.
  - by exists [cd].
  - exists []. by rewrite app_nil_r, set_dependencies_id.
Qed.

Lemma forEach_final_rel {A} (R : State → State → Prop) (l : list A)
    (body : A → M unit) s :
  (∀ s, R s s) → (∀ s1 s2 s3, R s1 s2 → R s2 s3 → R s1 s3) →
  (∀ x s, R s (final (body x s))) →
  R s (final (forEach l body s)).
Proof.
  intros Hrefl Htrans Hb. revert s.
  induction l as [|x l IH]; intros s; [apply Hrefl|].
  simpl. rewrite bind_unfold. pose proof (Hb x s) as Hx.
  destruct (body x s) as [[] s1|msg s1]; simpl in Hx; [|done].
  by apply (Htrans _ s1).
Qed.

Lemma forEach_noop {A} (l : list A) (body : A → M unit) s :
  (∀ x, x ∈ l → body x s = Returned tt s) →
  forEach l body s = Returned tt s.
Proof.
  induction l as [|x l IH]; intros Hb; [done|].
  simpl. rewrite bind_unfold, Hb by (by left).
  apply IH. intros y Hy. apply Hb. by right.
Qed.

Lemma applyEdges_Registry l s : Registry (applyEdges l s) = Registry s.
Proof.
  revert s. induction l as [|e l IH]; intros s; [done|].
  rewrite applyEdges_cons, IH. apply appendDependency_Registry.
Qed.

Section DependsFurther.

Variable jsonizeExpr : State → Ptr → list string → option (list string).
Variable getRelatedModelInfo : State → Ptr → string → option Ptr.
Variable rangeMap : mapOrder.

Lemma processDepString_grows mi fInfo depString s :
  dependenciesGrown s
    (final (processDepString jsonizeExpr getRelatedModelInfo mi fInfo
              depString s)).
Proof.
  unfold processDepString.
  destruct (negb (bool_decide (depString = ""))); [|apply dependenciesGrown_refl].
  rewrite when_true.
  rewrite bind_unfold. unfold call at 1.
  destruct (jsonizeExpr s mi (Split depString ExprSep)) as [tokens|];
    [|apply dependenciesGrown_refl].
  rewrite bind_unfold. unfold lastToken.
  destruct (last tokens) as [refName|]; [|apply dependenciesGrown_refl].
  unfold mret, M_ret.
  rewrite bind_unfold. unfold loadField at 1.
  destruct (fieldHeap s !! fInfo) as [f|]; [|apply dependenciesGrown_refl].
  rewrite bind_unfold. unfold call at 1.
  destruct (getRelatedModelInfo s mi _) as [refModelInfo|];
    [|apply dependenciesGrown_refl].
  rewrite bind_unfold. unfold loadModel at 1.
  destruct (modelHeap s !! refModelInfo) as [m|]; [|apply dependenciesGrown_refl].
  rewrite bind_unfold.
  destruct (MustGet (Model.fields m) refName s) as [refField s1|msg s1] eqn:Hg.
  2: { unfold MustGet, get in Hg. rewrite !bind_unfold in Hg.
       unfold loadColl in Hg.
       destruct (collHeap s !! Model.fields m) as [c|]; simpl in Hg.
       - destruct (get_ c refName); inversion Hg; apply dependenciesGrown_refl.
       - inversion Hg; apply dependenciesGrown_refl. }
  apply MustGet_inv in Hg as (c & Hc & Hget & ->).
  rewrite bind_unfold. unfold loadField at 1.
  destruct (fieldHeap s !! refField) as [rf|] eqn:Hrf;
    [|apply dependenciesGrown_refl].
  simpl.
  pose proof (dependenciesGrown_append refField
                (mkComputeData mi (Field.compute f)
                   (Join (removelast tokens) ExprSep)) s) as H.
  unfold appendDependency in H. by rewrite Hrf in H.
Qed.

Lemma processDepends_grows s :
  dependenciesGrown s
    (final (processDepends jsonizeExpr getRelatedModelInfo rangeMap s)).
Proof.
  unfold processDepends. rewrite bind_unfold. simpl.
  apply forEach_final_rel;
    [apply dependenciesGrown_refl|apply dependenciesGrown_trans|].
  intros e s0. unfold processDependsModel.
  rewrite bind_unfold. unfold loadModel.
  destruct (modelHeap s0 !! e.2) as [m|]; [|apply dependenciesGrown_refl].
  rewrite bind_unfold. unfold loadColl.
  destruct (collHeap s0 !! Model.fields m) as [c|];
    [|apply dependenciesGrown_refl].
  apply forEach_final_rel;
    [apply dependenciesGrown_refl|apply dependenciesGrown_trans|].
  intros e' s1. unfold processDependsField.
  rewrite bind_unfold. unfold loadField.
  destruct (fieldHeap s1 !! e'.2) as [f|]; [|apply dependenciesGrown_refl].
  apply forEach_final_rel;
    [apply dependenciesGrown_refl|apply dependenciesGrown_trans|].
  intros d s2. apply processDepString_grows.
Qed.

(** X18. Whatever the helpers do and whatever its outcome,
    [processDepends] writes nothing but the [dependencies] of fields, and
    there it only appends: the collections, the models and the registry
    are as before, no field is allocated or freed, and every field keeps
    its other members and its earlier dependencies as a prefix, also when
    the run panics half-way. *)
Theorem processDepends_only_appends s :
  collHeap (final (processDepends jsonizeExpr getRelatedModelInfo rangeMap s))
  = collHeap s
  ∧ modelHeap
      (final (processDepends jsonizeExpr getRelatedModelInfo rangeMap s))
    = modelHeap s
  ∧ Registry
      (final (processDepends jsonizeExpr getRelatedModelInfo rangeMap s))
    = Registry s
  ∧ ∀ p, match fieldHeap s !! p with
         | Some f =>
             ∃ l, fieldHeap
                    (final (processDepends jsonizeExpr getRelatedModelInfo
                              rangeMap s)) !! p
                  = Some (Field.set_dependencies
                            (Field.dependencies f ++ l)%list f)
         | None =>
             fieldHeap
               (final (processDepends jsonizeExpr getRelatedModelInfo
                         rangeMap s)) !! p = None
         end.
Proof. exact (processDepends_grows s). Qed.

(** X19. Empty depends strings are skipped: on a registry whose models,
    collections and fields are allocated and whose fields have no
    depends string but empty ones, [processDepends] returns and changes
    nothing, without calling a helper. *)
Theorem processDepends_skips_empty_strings s :
  enumerates rangeMap →
  (∀ tn mi,
     modelCollection.registryByTableName (Registry s) !! tn = Some mi →
     ∃ m c, modelHeap s !! mi = Some m
       ∧ collHeap s !! Model.fields m = Some c
       ∧ ∀ jn fInfo,
           FieldsCollection.registryByJSON c !! jn = Some fInfo →
           ∃ f, fieldHeap s !! fInfo = Some f
                ∧ ∀ depString, depString ∈ Field.depends f → depString = "") →
  processDepends jsonizeExpr getRelatedModelInfo rangeMap s = Returned tt s.
Proof.
  intros Hrange Hall. unfold processDepends. rewrite bind_unfold. simpl.
  apply forEach_noop. intros [tn mi] He.
  rewrite (Hrange _) in He. apply elem_of_map_to_list in He.
  destruct (Hall tn mi He) as (m & c & Hm & Hc & Hfields). simpl.
  unfold processDependsModel.
  rewrite (bind_Returned _ _ _ _ _ (loadModel_Some _ _ _ Hm)).
  rewrite (bind_Returned _ _ _ _ _ (loadColl_Some _ _ _ Hc)).
  apply forEach_noop. intros [jn fInfo] He'.
  rewrite (Hrange _) in He'. apply elem_of_map_to_list in He'.
  destruct (Hfields jn fInfo He') as (f & Hf & Hdeps). simpl.
  unfold processDependsField.
  rewrite (bind_Returned _ _ _ _ _ (loadField_Some _ _ _ Hf)).
  apply forEach_noop. intros d Hd. rewrite (Hdeps d Hd).
  reflexivity.
Qed.

Hypothesis rangeMap_enumerates : enumerates rangeMap.
Hypothesis jsonizeExpr_frame : ignoresDependencies jsonizeExpr.
Hypothesis getRelatedModelInfo_frame : ignoresDependencies getRelatedModelInfo.

Lemma backEdges_applyEdges (order : mapOrder) l s :
  backEdges jsonizeExpr getRelatedModelInfo order (applyEdges l s)
  = backEdges jsonizeExpr getRelatedModelInfo order s.
Proof.
  unfold backEdges. rewrite applyEdges_Registry.
  apply flat_map_pointwise. intros e.
  by apply backEdgesOfModel_applyEdges.
Qed.

Lemma flat_map_Permutation {A B} (f g : A → list B) l1 l2 :
  l1 ≡ₚ l2 → (∀ x, f x ≡ₚ g x) → flat_map f l1 ≡ₚ flat_map g l2.
Proof.
  intros Hl Hfg. rewrite Hl. clear l1 Hl.
  induction l2 as [|x l IH]; [done|]. simpl. by rewrite (Hfg x), IH.
Qed.

(** The back-edges of two iteration orders are the same up to their
    order. *)
Lemma backEdges_order (order1 order2 : mapOrder) s :
  enumerates order1 → enumerates order2 →
  backEdges jsonizeExpr getRelatedModelInfo order1 s
  ≡ₚ backEdges jsonizeExpr getRelatedModelInfo order2 s.
Proof.
  intros H1 H2. unfold backEdges.
  apply flat_map_Permutation; [by rewrite (H1 _), (H2 _)|].
  intros e. unfold backEdgesOfModel.
  destruct (modelHeap s !! e.2) as [m|]; [|done].
  destruct (collHeap s !! Model.fields m) as [c|]; [|done].
  apply flat_map_Permutation; [by rewrite (H1 _), (H2 _)|done].
Qed.

Lemma processDepends_again (rangeMap2 : mapOrder) s s' :
  enumerates rangeMap2 →
  processDepends jsonizeExpr getRelatedModelInfo rangeMap s = Returned tt s' →
  processDepends jsonizeExpr getRelatedModelInfo rangeMap2 s'
  = Returned tt
      (applyEdges
         (backEdges jsonizeExpr getRelatedModelInfo rangeMap s
          ++ backEdges jsonizeExpr getRelatedModelInfo rangeMap2 s) s).
Proof.
  intros Hrange2 Hrun.
  destruct (processDepends_Returned _ _ _ rangeMap_enumerates
              jsonizeExpr_frame getRelatedModelInfo_frame _ _ Hrun)
    as [-> Hres].
  rewrite (processDepends_run _ _ _ Hrange2
             jsonizeExpr_frame getRelatedModelInfo_frame).
  - by rewrite backEdges_applyEdges, applyEdges_app.
  - intros tn mi Hmi. rewrite applyEdges_Registry in Hmi.
    apply modelResolves_applyEdges_run; [done|done|]. by apply (Hres tn).
Qed.

(** X20. [processDepends] is to be run once: when a run has returned, a
    second run returns as well, in whatever order it iterates the maps,
    and appends every back-edge a second time, so that each field then
    holds the dependencies it had at the start, followed by its
    back-edges as the first run met them, followed by the same
    back-edges as the second run met them. *)
Theorem processDepends_second_run_repeats (rangeMap2 : mapOrder) s s' :
  enumerates rangeMap2 →
  processDepends jsonizeExpr getRelatedModelInfo rangeMap s = Returned tt s' →
  ∃ s'',
    processDepends jsonizeExpr getRelatedModelInfo rangeMap2 s'
    = Returned tt s''
    ∧ ∀ refField rf,
        fieldHeap s !! refField = Some rf →
        ∃ rf'' first second,
          fieldHeap s'' !! refField = Some rf''
          ∧ Field.dependencies rf''
            = (Field.dependencies rf ++ first ++ second)%list
          ∧ first
            ≡ₚ (filter (λ e, e.1 = refField)
                  (backEdges jsonizeExpr getRelatedModelInfo rangeMap s)).*2
          ∧ second
            ≡ₚ (filter (λ e, e.1 = refField)
                  (backEdges jsonizeExpr getRelatedModelInfo rangeMap s)).*2.
Proof.
  intros Hrange2 Hrun. eexists. split; [by apply processDepends_again|].
  intros refField rf Hrf.
  destruct (applyEdges_dependencies
              (backEdges jsonizeExpr getRelatedModelInfo rangeMap s
               ++ backEdges jsonizeExpr getRelatedModelInfo rangeMap2 s)
              s refField rf Hrf) as (rf'' & Hrf'' & Hdeps).
  exists rf'',
    (filter (λ e, e.1 = refField)
       (backEdges jsonizeExpr getRelatedModelInfo rangeMap s)).*2,
    (filter (λ e, e.1 = refField)
       (backEdges jsonizeExpr getRelatedModelInfo rangeMap2 s)).*2.
  split; [done|]. split; [by rewrite Hdeps, filter_app, fmap_app|].
  split; [done|]. by rewrite (backEdges_order rangeMap2 rangeMap s).
Qed.

End DependsFurther.

Lemma processDepends_skips_empty_strings_witness :
  processDepends (λ _ _ _, None) (λ _ _ _, None) listOrder blankDependsAdded
  = Returned tt blankDependsAdded.
Proof.
  apply (processDepends_skips_empty_strings (λ _ _ _, None) (λ _ _ _, None)
           listOrder blankDependsAdded listOrder_enumerates).
  intros tn mi H. vm_compute in H.
  exists sampleModel,
    (registerIn 1%positive blankDependsField emptyFieldsCollection).
  assert (mi = 1%positive) as ->.
  { change (({["partner" := 1%positive]} : gmap string Ptr) !! tn = Some mi)
      in H.
    by apply lookup_singleton_Some in H as [_ <-]. }
  split; [reflexivity|]. split; [reflexivity|].
  intros jn fInfo Hj. simpl in Hj.
  apply lookup_insert_Some in Hj as [[_ <-]|[_ Hj]];
    [|by rewrite lookup_empty in Hj].
  exists blankDependsField. split; [reflexivity|].
  intros d Hd. simpl in Hd.
  apply elem_of_cons in Hd as [->|Hd]; [done|].
  apply elem_of_cons in Hd as [->|Hd]; [done|].
  by apply elem_of_nil in Hd.
Defined.

Lemma processDepends_second_run_repeats_witness :
  ∃ s'',
    processDepends jsonNames followCountry reverseOrder
      (final (processDepends jsonNames followCountry listOrder
                twoModelsAdded))
    = Returned tt s''
    ∧ (∃ rf'' first second,
         fieldHeap s'' !! 5%positive = Some rf''
         ∧ Field.dependencies rf''
           = (Field.dependencies nameOfCountryField ++ first ++ second)%list
         ∧ first
           ≡ₚ [mkComputeData 1%positive "computeLabel" "country_id";
               mkComputeData 1%positive "computeDisplayName" "country_id"]
         ∧ second
           ≡ₚ [mkComputeData 1%positive "computeLabel" "country_id";
               mkComputeData 1%positive "computeDisplayName" "country_id"])
    ∧ Field.dependencies <$> (fieldHeap s'' !! 5%positive)
      = Some [mkComputeData 1%positive "computeLabel" "country_id";
              mkComputeData 1%positive "computeDisplayName" "country_id";
              mkComputeData 1%positive "computeDisplayName" "country_id";
              mkComputeData 1%positive "computeLabel" "country_id"].
Proof.
  destruct (processDepends_second_run_repeats jsonNames followCountry
              listOrder listOrder_enumerates jsonNames_ignoresDependencies
              followCountry_ignoresDependencies reverseOrder twoModelsAdded
              (final (processDepends jsonNames followCountry listOrder
                        twoModelsAdded))
              reverseOrder_enumerates ltac:(vm_compute; reflexivity))
    as (s'' & Hrun & Hdeps).
  exists s''. split; [exact Hrun|]. split.
  - destruct (Hdeps 5%positive nameOfCountryField
                ltac:(vm_compute; reflexivity))
      as (rf'' & first & second & Hrf'' & Hd & Hfirst & Hsecond).
    exists rf'', first, second. split; [exact Hrf''|]. split; [exact Hd|].
    split; [rewrite Hfirst|rewrite Hsecond]; vm_compute; reflexivity.
  - vm_compute in Hrun. injection Hrun as <-. vm_compute. reflexivity.
Defined.

(** ** Window actions *)

Section ActionProperties.

Variable ActionViewTypeForm : string.
Variables VIEW_TYPE_TREE VIEW_TYPE_LIST : views.ViewType.
Variable GetByID : string → option views.View.
Variable GetFirstViewForModel : string → views.ViewType → option views.View.
Variable TrimSpace : string → string.

Abbreviation fixMode := (fixViewMode VIEW_TYPE_TREE VIEW_TYPE_LIST).
Abbreviation fixModes :=
  (fixViewModes ActionViewTypeForm VIEW_TYPE_TREE VIEW_TYPE_LIST).
Abbreviation addModes := (addViewsOfModes GetFirstViewForModel).
Abbreviation bootStrap :=
  (bootStrapWindowAction ActionViewTypeForm VIEW_TYPE_TREE VIEW_TYPE_LIST
     GetByID GetFirstViewForModel TrimSpace).

Lemma bootStrapWindowAction_unfold a :
  bootStrap a
  = match withView GetByID (withDefaults ActionViewTypeForm a) with
    | None => Panicked nilDereference (withDefaults ActionViewTypeForm a)
    | Some l0 =>
        match addModes (BaseAction.Model a) (viewModes TrimSpace a) l0 with
        | Returned _ l =>
            Returned tt
              (fixModes
                 (BaseAction.set_Views l (withDefaults ActionViewTypeForm a)))
        | Panicked msg l =>
            Panicked msg
              (BaseAction.set_Views l (withDefaults ActionViewTypeForm a))
        end
    end.
Proof.
  unfold bootStrapWindowAction, withView, withDefaults. simpl.
  destruct (head (BaseAction.View a)) as [id|]; [|done].
  destruct (negb _ && negb _); [|done].
  by destruct (GetByID id).
Qed.

Lemma fixViewMode_idempotent v : fixMode (fixMode v) = fixMode v.
Proof.
  unfold fixViewMode. simpl. f_equal.
  destruct (bool_decide (views.Type_ v = VIEW_TYPE_TREE)) eqn:Hv; [|by rewrite Hv].
  by destruct (bool_decide (VIEW_TYPE_LIST = VIEW_TYPE_TREE)).
Qed.

(** X21. [fixViewModes] is idempotent, and it keeps the views of the
    action in place: the same ids in the same order, and every other
    member of the action as it was. *)
Theorem fixViewModes_idempotent_keeps_ids a :
  fixViewModes ActionViewTypeForm VIEW_TYPE_TREE VIEW_TYPE_LIST (fixViewModes ActionViewTypeForm VIEW_TYPE_TREE VIEW_TYPE_LIST a) = fixViewModes ActionViewTypeForm VIEW_TYPE_TREE VIEW_TYPE_LIST a
  ∧ views.ID <$> BaseAction.Views (fixViewModes ActionViewTypeForm VIEW_TYPE_TREE VIEW_TYPE_LIST a)
    = views.ID <$> BaseAction.Views a
  ∧ BaseAction.set_Views (BaseAction.Views a) (fixViewModes ActionViewTypeForm VIEW_TYPE_TREE VIEW_TYPE_LIST a) = a.
Proof.
  unfold fixViewModes.
  destruct (bool_decide (BaseAction.ActViewType a = ActionViewTypeForm))
    eqn:Hform.
  - split; [|split].
    + simpl. rewrite Hform. unfold BaseAction.set_Views. simpl. f_equal.
      rewrite <- list_fmap_compose. apply list_fmap_ext.
      intros i v _. apply fixViewMode_idempotent.
    + simpl. rewrite <- list_fmap_compose. by apply list_fmap_ext.
    + by destruct a.
  - rewrite Hform. split; [done|]. split; [done|]. by destruct a.
Qed.

Lemma fixViewModes_no_tree a v :
  VIEW_TYPE_TREE ≠ VIEW_TYPE_LIST →
  BaseAction.ActViewType a = ActionViewTypeForm →
  v ∈ BaseAction.Views (fixModes a) → views.Type_ v ≠ VIEW_TYPE_TREE.
Proof.
  intros Hne Hform. unfold fixViewModes.
  rewrite bool_decide_eq_true_2 by done. simpl.
  intros (v0 & -> & _)%list_elem_of_fmap. unfold fixViewMode. simpl.
  case_bool_decide; [by intros ?|done].
Qed.

(** X22. When the type names of tree and list views differ,
    [fixViewModes] leaves no tree view in an action of view type form,
    and leaves an action of another view type untouched. *)
Theorem fixViewModes_removes_tree a :
  VIEW_TYPE_TREE ≠ VIEW_TYPE_LIST →
  (BaseAction.ActViewType a = ActionViewTypeForm →
   ∀ v, v ∈ BaseAction.Views (fixViewModes ActionViewTypeForm VIEW_TYPE_TREE VIEW_TYPE_LIST a) → views.Type_ v ≠ VIEW_TYPE_TREE)
  ∧ (BaseAction.ActViewType a ≠ ActionViewTypeForm → fixViewModes ActionViewTypeForm VIEW_TYPE_TREE VIEW_TYPE_LIST a = a).
Proof.
  intros Hne. split.
  - intros Hform v. by apply fixViewModes_no_tree.
  - intros Hform. unfold fixViewModes. by rewrite bool_decide_eq_false_2.
Qed.

Lemma hasViewOfType_true mode l :
  hasViewOfType mode l = true ↔ ∃ v, v ∈ l ∧ views.Type_ v = mode.
Proof.
  induction l as [|v l IH]; simpl.
  - split; [done|]. by intros (v & ?%elem_of_nil & _).
  - case_bool_decide as Hv.
    + split; [|done]. intros _. exists v. split; [left|done].
    + rewrite IH. split.
      * intros (v' & Hv' & Ht). exists v'. split; [by right|done].
      * intros (v' & [->|Hv']%elem_of_cons & Ht); [done|]. by exists v'.
Qed.

Lemma addViewsOfModes_final model modes l :
  l `prefix_of` final (addModes model modes l).
Proof.
  revert l. induction modes as [|mode modes IH]; intros l; simpl; [done|].
  destruct (hasViewOfType mode l); [apply IH|].
  destruct (GetFirstViewForModel model mode) as [view|]; [|done].
  etrans; [|apply IH]. by apply prefix_app_r.
Qed.

Lemma addViewsOfModes_covers model modes l l' :
  (∀ m t v, GetFirstViewForModel m t = Some v → views.view_Type v = t) →
  addModes model modes l = Returned tt l' →
  ∀ mode, mode ∈ modes → ∃ v, v ∈ l' ∧ views.Type_ v = mode.
Proof.
  intros Htype. revert l.
  induction modes as [|mode0 modes IH]; intros l Hrun mode Hmode;
    [by apply elem_of_nil in Hmode|].
  simpl in Hrun.
  assert (∀ l1, (∃ v, v ∈ l1 ∧ views.Type_ v = mode0) →
                addModes model modes l1 = Returned tt l' →
                ∃ v, v ∈ l' ∧ views.Type_ v = mode) as Hstep.
  { intros l1 (v & Hv & Ht) Hrun1.
    apply elem_of_cons in Hmode as [->|Hmode]; [|by apply (IH l1)].
    exists v. split; [|done].
    pose proof (addViewsOfModes_final model modes l1) as Hpre.
    rewrite Hrun1 in Hpre. simpl in Hpre.
    destruct Hpre as [k ->]. apply elem_of_app. by left. }
  destruct (hasViewOfType mode0 l) eqn:Hhas.
  - apply (Hstep l); [by apply hasViewOfType_true|done].
  - destruct (GetFirstViewForModel model mode0) as [view|] eqn:Hview; [|done].
    apply (Hstep (l ++ [views.mkViewTuple (views.view_ID view)
                               (views.view_Type view)])%list); [|exact Hrun].
    eexists. split; [apply elem_of_app; right; by apply list_elem_of_singleton|].
    simpl. by apply (Htype model).
Qed.

Lemma addViewsOfModes_returns model modes l :
  (∀ mode, mode ∈ modes → is_Some (GetFirstViewForModel model mode)) →
  ∃ l', addModes model modes l = Returned tt l'.
Proof.
  revert l. induction modes as [|mode modes IH]; intros l Hall; simpl;
    [by eexists|].
  assert (∀ mode, mode ∈ modes → is_Some (GetFirstViewForModel model mode))
    as Hrest by (intros m Hm; apply Hall; by right).
  destruct (hasViewOfType mode l); [by apply IH|].
  destruct (Hall mode) as [view ->]; [by left|]. by apply IH.
Qed.

Lemma viewPresent_true view l :
  viewPresent view l = true →
  ∃ v, v ∈ l ∧ Some (views.ID v) = head view.
Proof.
  induction l as [|v l IH]; simpl; [done|].
  destruct (_ && _ && bool_decide (Some (views.ID v) = head view)) eqn:Hv.
  - intros _. exists v. split; [left|].
    apply andb_true_iff in Hv as [_ Hv]. by apply bool_decide_eq_true in Hv.
  - intros (v' & Hv' & Hid)%IH. exists v'. split; [by right|done].
Qed.

Lemma viewPresent_false view l id :
  head view = Some id → id ≠ "" →
  (∀ v, v ∈ l → views.ID v ≠ id) → viewPresent view l = false.
Proof.
  intros Hhead Hid. induction l as [|v l IH]; intros Hl; simpl; [done|].
  rewrite (bool_decide_eq_false_2 (Some (views.ID v) = head view)).
  - rewrite andb_false_r. apply IH. intros v' Hv'. apply Hl. by right.
  - rewrite Hhead. intros [= Heq]. apply (Hl v); [left|done].
Qed.

Lemma withView_prefix a l0 :
  withView GetByID a = Some l0 → BaseAction.Views a `prefix_of` l0.
Proof.
  unfold withView. destruct (head (BaseAction.View a)) as [id|];
    [|by intros [= <-]].
  destruct (negb _ && negb _); [|by intros [= <-]].
  destruct (GetByID id) as [view|]; [|done]. simpl.
  intros [= <-]. by apply prefix_app_r.
Qed.

Lemma fixViewModes_IDs a :
  views.ID <$> BaseAction.Views (fixModes a) = views.ID <$> BaseAction.Views a.
Proof.
  unfold fixViewModes. destruct (bool_decide _); [|done]. simpl.
  rewrite <- list_fmap_compose. by apply list_fmap_ext.
Qed.

Lemma fixViewModes_members a :
  BaseAction.Type_ (fixModes a) = BaseAction.Type_ a
  ∧ BaseAction.Model (fixModes a) = BaseAction.Model a
  ∧ BaseAction.Target (fixModes a) = BaseAction.Target a
  ∧ BaseAction.AutoSearch (fixModes a) = BaseAction.AutoSearch a
  ∧ BaseAction.ManualSearch (fixModes a) = BaseAction.ManualSearch a
  ∧ BaseAction.ActViewType (fixModes a) = BaseAction.ActViewType a
  ∧ BaseAction.View (fixModes a) = BaseAction.View a
  ∧ BaseAction.ViewMode (fixModes a) = BaseAction.ViewMode a.
Proof. unfold fixViewModes. by destruct (bool_decide _). Qed.

(** The action that [bootStrapWindowAction] leaves, whatever the outcome:
    the defaults are set, and the views are the earlier views followed by
    those that were added, with tree views renamed if the run got as far
    as [fixViewModes]. *)
Lemma bootStrapWindowAction_final a :
  ∃ l, BaseAction.Views a `prefix_of` l
       ∧ (final (bootStrap a)
          = BaseAction.set_Views l (withDefaults ActionViewTypeForm a)
          ∨ final (bootStrap a)
            = fixModes
                (BaseAction.set_Views l (withDefaults ActionViewTypeForm a))).
Proof.
  rewrite bootStrapWindowAction_unfold.
  destruct (withView GetByID (withDefaults ActionViewTypeForm a))
    as [l0|] eqn:Hl0.
  - apply withView_prefix in Hl0. simpl in Hl0.
    pose proof (addViewsOfModes_final (BaseAction.Model a)
                  (viewModes TrimSpace a) l0) as Hpre.
    destruct (addModes (BaseAction.Model a) (viewModes TrimSpace a) l0)
      as [[] l|msg l]; simpl in Hpre; exists l;
      (split; [by etrans|]); [by right|by left].
  - exists (BaseAction.Views a). split; [done|]. left. by destruct a.
Qed.

Lemma bootStrapWindowAction_keeps_model_and_modes a a' :
  final (bootStrap a) = a' →
  BaseAction.Model a' = BaseAction.Model a
  ∧ BaseAction.ViewMode a' = BaseAction.ViewMode a.
Proof.
  intros <-. destruct (bootStrapWindowAction_final a) as (l & _ & [->| ->]).
  - done.
  - destruct (fixViewModes_members
                (BaseAction.set_Views l (withDefaults ActionViewTypeForm a)))
      as (_ & -> & _ & _ & _ & _ & _ & ->).
    done.
Qed.

(** X23. Whatever its outcome, [bootStrapWindowAction] leaves the action
    with the default values set ([Target] is [current] if it was empty,
    [AutoSearch] is the negation of [ManualSearch], [ActViewType] is the
    form type if it was empty), with the other members as they were, and
    with every view it had, in the same order: views are only appended. *)
Theorem bootStrapWindowAction_defaults_and_views a a' :
  final (bootStrapWindowAction ActionViewTypeForm VIEW_TYPE_TREE
      VIEW_TYPE_LIST GetByID GetFirstViewForModel TrimSpace a) = a' →
  BaseAction.Target a'
  = (if bool_decide (BaseAction.Target a = "") then "current"
     else BaseAction.Target a)
  ∧ BaseAction.AutoSearch a' = negb (BaseAction.ManualSearch a)
  ∧ BaseAction.ActViewType a'
    = (if bool_decide (BaseAction.ActViewType a = "") then ActionViewTypeForm
       else BaseAction.ActViewType a)
  ∧ BaseAction.Type_ a' = BaseAction.Type_ a
  ∧ BaseAction.Model a' = BaseAction.Model a
  ∧ BaseAction.ManualSearch a' = BaseAction.ManualSearch a
  ∧ BaseAction.View a' = BaseAction.View a
  ∧ BaseAction.ViewMode a' = BaseAction.ViewMode a
  ∧ views.ID <$> BaseAction.Views a `prefix_of` views.ID <$> BaseAction.Views a'.
Proof.
  intros <-. destruct (bootStrapWindowAction_final a) as (l & [k ->] & [->| ->]).
  - simpl. repeat (split; [done|]). rewrite fmap_app. by apply prefix_app_r.
  - rewrite fixViewModes_IDs.
    destruct (fixViewModes_members
                (BaseAction.set_Views (BaseAction.Views a ++ k)
                   (withDefaults ActionViewTypeForm a)))
      as (-> & -> & -> & -> & -> & -> & -> & ->).
    simpl. repeat (split; [done|]). rewrite fmap_app. by apply prefix_app_r.
Qed.

Lemma bootStrapWindowAction_Returned a a' :
  bootStrap a = Returned tt a' →
  ∃ l0 l, withView GetByID (withDefaults ActionViewTypeForm a) = Some l0
    ∧ addModes (BaseAction.Model a) (viewModes TrimSpace a) l0 = Returned tt l
    ∧ a' = fixModes
             (BaseAction.set_Views l (withDefaults ActionViewTypeForm a)).
Proof.
  rewrite bootStrapWindowAction_unfold.
  destruct (withView GetByID (withDefaults ActionViewTypeForm a))
    as [l0|]; [|done].
  destruct (addModes (BaseAction.Model a) (viewModes TrimSpace a) l0)
    as [[] l|msg l] eqn:Hrun; [|done].
  intros [= <-]. by exists l0, l.
Qed.

(** X24. If the view registry answers a request for the first view of a
    type with a view of this type, then after [bootStrapWindowAction] has
    returned the action has a view for every mode of its [ViewMode]: a
    view of the type of the mode, or of the list type for the tree mode
    of an action of view type form. *)
Theorem bootStrapWindowAction_covers_modes a a' :
  (∀ m t v, GetFirstViewForModel m t = Some v → views.view_Type v = t) →
  bootStrapWindowAction ActionViewTypeForm VIEW_TYPE_TREE
      VIEW_TYPE_LIST GetByID GetFirstViewForModel TrimSpace a = Returned tt a' →
  ∀ mode, mode ∈ viewModes TrimSpace a →
    ∃ v, v ∈ BaseAction.Views a'
         ∧ views.Type_ v
           = if bool_decide (BaseAction.ActViewType a' = ActionViewTypeForm)
                && bool_decide (mode = VIEW_TYPE_TREE)
             then VIEW_TYPE_LIST else mode.
Proof.
  intros Htype (l0 & l & _ & Hrun & ->)%bootStrapWindowAction_Returned mode Hmode.
  destruct (addViewsOfModes_covers _ _ _ _ Htype Hrun mode Hmode)
    as (v & Hv & Ht).
  destruct (fixViewModes_members
              (BaseAction.set_Views l (withDefaults ActionViewTypeForm a)))
    as (_ & _ & _ & _ & _ & -> & _).
  unfold fixViewModes.
  destruct (bool_decide
              (BaseAction.ActViewType
                 (BaseAction.set_Views l (withDefaults ActionViewTypeForm a))
               = ActionViewTypeForm)); simpl.
  - exists (fixMode v). split; [by apply list_elem_of_fmap_2|].
    unfold fixViewMode. simpl. by rewrite Ht.
  - by exists v.
Qed.

(** X25. After [bootStrapWindowAction] has returned, the view that the
    action names first in [View], if its id is not empty, is one of the
    views of the action. *)
Theorem bootStrapWindowAction_adds_view a a' id :
  bootStrapWindowAction ActionViewTypeForm VIEW_TYPE_TREE
      VIEW_TYPE_LIST GetByID GetFirstViewForModel TrimSpace a = Returned tt a' →
  head (BaseAction.View a) = Some id → id ≠ "" →
  id ∈ views.ID <$> BaseAction.Views a'.
Proof.
  intros (l0 & l & Hl0 & Hrun & ->)%bootStrapWindowAction_Returned Hhead Hid.
  rewrite fixViewModes_IDs. simpl.
  pose proof (addViewsOfModes_final (BaseAction.Model a)
                (viewModes TrimSpace a) l0) as [k Hk].
  rewrite Hrun in Hk. simpl in Hk. subst l.
  rewrite fmap_app. apply elem_of_app. left.
  unfold withView in Hl0. simpl in Hl0. rewrite Hhead in Hl0.
  destruct (viewPresent (BaseAction.View a) (BaseAction.Views a)) eqn:Hpres.
  - simpl in Hl0. inversion Hl0; subst l0.
    apply viewPresent_true in Hpres as (v & Hv & Hvid).
    rewrite Hhead in Hvid. inversion Hvid. by apply list_elem_of_fmap_2.
  - rewrite bool_decide_eq_false_2 in Hl0 by done. simpl in Hl0.
    destruct (GetByID id) as [view|]; [|done]. simpl in Hl0.
    inversion Hl0. rewrite fmap_app. apply elem_of_app. right.
    by apply list_elem_of_singleton.
Qed.

(** X26. [bootStrapWindowAction] returns when the view registry knows the
    view that the action names first and has a first view of the model
    for every mode of the action. *)
Theorem bootStrapWindowAction_returns a :
  (∀ id, head (BaseAction.View a) = Some id → is_Some (GetByID id)) →
  (∀ mode, mode ∈ viewModes TrimSpace a →
     is_Some (GetFirstViewForModel (BaseAction.Model a) mode)) →
  returns (bootStrapWindowAction ActionViewTypeForm VIEW_TYPE_TREE
      VIEW_TYPE_LIST GetByID GetFirstViewForModel TrimSpace a).
Proof.
  intros Hview Hmodes. rewrite bootStrapWindowAction_unfold.
  assert (∃ l0, withView GetByID (withDefaults ActionViewTypeForm a) = Some l0)
    as [l0 ->].
  { unfold withView. simpl.
    destruct (head (BaseAction.View a)) as [id|]; [|by eexists].
    destruct (negb _ && negb _); [|by eexists].
    destruct (Hview id) as [view ->]; [done|]. by eexists. }
  destruct (addViewsOfModes_returns (BaseAction.Model a)
              (viewModes TrimSpace a) l0 Hmodes) as [l ->].
  done.
Qed.

(** X27. When the action names first a view that is not among its views
    and that the view registry does not know, [bootStrapWindowAction]
    panics on the nil view, after it has set the default values and
    before it has added any view. *)
Theorem bootStrapWindowAction_unknown_view_panics a id :
  head (BaseAction.View a) = Some id → id ≠ "" →
  (∀ v, v ∈ BaseAction.Views a → views.ID v ≠ id) →
  GetByID id = None →
  bootStrapWindowAction ActionViewTypeForm VIEW_TYPE_TREE
      VIEW_TYPE_LIST GetByID GetFirstViewForModel TrimSpace a = Panicked nilDereference (withDefaults ActionViewTypeForm a).
Proof.
  intros Hhead Hid Hviews Hget. rewrite bootStrapWindowAction_unfold.
  unfold withView. simpl. rewrite Hhead.
  rewrite (viewPresent_false _ _ _ Hhead Hid Hviews).
  rewrite bool_decide_eq_false_2 by done. simpl. by rewrite Hget.
Qed.

Lemma addViewsOfModes_adds model modes l l' :
  (∀ m t v, GetFirstViewForModel m t = Some v → views.view_Type v = t) →
  VIEW_TYPE_TREE ∈ modes →
  (∀ v, v ∈ l → views.Type_ v ≠ VIEW_TYPE_TREE) →
  addModes model modes l = Returned tt l' →
  length l < length l'.
Proof.
  intros Htype. revert l.
  induction modes as [|mode modes IH]; intros l Hin Hl Hrun;
    [by apply elem_of_nil in Hin|].
  simpl in Hrun. destruct (hasViewOfType mode l) eqn:Hhas.
  - apply hasViewOfType_true in Hhas as (v & Hv & Ht).
    apply elem_of_cons in Hin as [->|Hin]; [by destruct (Hl v Hv)|].
    by apply IH.
  - destruct (GetFirstViewForModel model mode) as [view|]; [|done].
    pose proof (addViewsOfModes_final model modes
                  (l ++ [views.mkViewTuple (views.view_ID view)
                           (views.view_Type view)])%list) as [k Hk].
    rewrite Hrun in Hk. simpl in Hk. subst l'.
    rewrite !length_app. simpl. lia.
Qed.

Lemma fixViewModes_length a :
  length (BaseAction.Views (fixModes a)) = length (BaseAction.Views a).
Proof.
  unfold fixViewModes. destruct (bool_decide _); [|done]. simpl.
  apply length_fmap.
Qed.

(** X28. [bootStrapWindowAction] is to be run once on an action: for an
    action of view type form with the tree mode, the first run renames
    the tree view to a list view, so that a second run finds no view for
    the tree mode and adds one more. *)
Theorem bootStrapWindowAction_second_run_adds_view a a' a'' :
  VIEW_TYPE_TREE ≠ VIEW_TYPE_LIST →
  (∀ m t v, GetFirstViewForModel m t = Some v → views.view_Type v = t) →
  bootStrapWindowAction ActionViewTypeForm VIEW_TYPE_TREE
      VIEW_TYPE_LIST GetByID GetFirstViewForModel TrimSpace a = Returned tt a' →
  BaseAction.ActViewType a' = ActionViewTypeForm →
  VIEW_TYPE_TREE ∈ viewModes TrimSpace a →
  bootStrapWindowAction ActionViewTypeForm VIEW_TYPE_TREE
      VIEW_TYPE_LIST GetByID GetFirstViewForModel TrimSpace a' = Returned tt a'' →
  length (BaseAction.Views a') < length (BaseAction.Views a'').
Proof.
  intros Hne Htype Hrun1 Hform Hin Hrun2.
  assert (∀ v, v ∈ BaseAction.Views a' → views.Type_ v ≠ VIEW_TYPE_TREE)
    as Hnotree.
  { pose proof Hrun1 as (l0 & l & _ & _ & Ha')%bootStrapWindowAction_Returned.
    rewrite Ha'. intros v. apply fixViewModes_no_tree; [done|].
    destruct (fixViewModes_members
                (BaseAction.set_Views l (withDefaults ActionViewTypeForm a)))
      as (_ & _ & _ & _ & _ & <- & _).
    by rewrite <- Ha'. }
  assert (BaseAction.Model a' = BaseAction.Model a
          ∧ viewModes TrimSpace a' = viewModes TrimSpace a) as [Hmodel Hmodes].
  { destruct (bootStrapWindowAction_keeps_model_and_modes a a')
      as (Hm & Hvm); [by rewrite Hrun1|].
    split; [done|]. unfold viewModes. by rewrite Hvm. }
  apply bootStrapWindowAction_Returned in Hrun2 as (l0 & l & Hl0 & Hrun2 & ->).
  rewrite fixViewModes_length. simpl.
  rewrite Hmodel, Hmodes in Hrun2.
  pose proof (addViewsOfModes_final (BaseAction.Model a)
                (viewModes TrimSpace a) l0) as Hpre.
  rewrite Hrun2 in Hpre. simpl in Hpre.
  unfold withView in Hl0. simpl in Hl0.
  assert (l0 = BaseAction.Views a'
          ∨ ∃ x, l0 = (BaseAction.Views a' ++ [x])%list) as [->|[x ->]].
  { destruct (head (BaseAction.View a')) as [id|]; [|left; congruence].
    destruct (negb _ && negb _); [|left; congruence].
    destruct (GetByID id) as [view|]; [|done]. simpl in Hl0.
    right. eexists. by inversion Hl0. }
  - by apply (addViewsOfModes_adds _ _ _ _ Htype Hin Hnotree Hrun2).
  - destruct Hpre as [k ->]. rewrite !length_app. simpl. lia.
Qed.

End ActionProperties.

Lemma sampleFirstView_type m t v :
  sampleFirstView m t = Some v → views.view_Type v = t.
Proof. by intros [= <-]. Qed.

Lemma fixViewModes_removes_tree_witness :
  "tree" ≠ "list"
  ∧ ∀ v, v ∈ BaseAction.Views (fixViewModes "form" "tree" "list" treeAction) →
         views.Type_ v ≠ "tree".
Proof.
  split; [discriminate|].
  apply (fixViewModes_removes_tree "form" "tree" "list" treeAction);
    [discriminate | reflexivity].
Defined.

Lemma bootStrapWindowAction_defaults_and_views_witness :
  BaseAction.Target (final (sampleBootStrap sampleAction)) = "current"
  ∧ BaseAction.AutoSearch (final (sampleBootStrap sampleAction)) = true
  ∧ BaseAction.ActViewType (final (sampleBootStrap sampleAction)) = "form".
Proof.
  destruct (bootStrapWindowAction_defaults_and_views "form" "tree" "list"
              sampleGetByID sampleFirstView (λ m, m) sampleAction
              (final (sampleBootStrap sampleAction)) eq_refl)
    as (H1 & H2 & H3 & _).
  split; [exact H1|]. split; [exact H2|exact H3].
Defined.

Lemma bootStrapWindowAction_covers_modes_witness :
  sampleBootStrap sampleAction
  = Returned tt (final (sampleBootStrap sampleAction))
  ∧ ∃ v, v ∈ BaseAction.Views (final (sampleBootStrap sampleAction))
         ∧ views.Type_ v = "list".
Proof.
  split; [reflexivity|].
  apply (bootStrapWindowAction_covers_modes "form" "tree" "list"
           sampleGetByID sampleFirstView (λ m, m) sampleAction
           (final (sampleBootStrap sampleAction)) sampleFirstView_type
           eq_refl "tree").
  left.
Defined.

Lemma bootStrapWindowAction_adds_view_witness :
  "partner_form"
  ∈ views.ID <$> BaseAction.Views (final (sampleBootStrap sampleAction)).
Proof.
  apply (bootStrapWindowAction_adds_view "form" "tree" "list"
           sampleGetByID sampleFirstView (λ m, m) sampleAction
           (final (sampleBootStrap sampleAction)) "partner_form");
    [reflexivity | reflexivity | discriminate].
Defined.

Lemma bootStrapWindowAction_returns_witness :
  returns (sampleBootStrap sampleAction).
Proof.
  apply (bootStrapWindowAction_returns "form" "tree" "list"
           sampleGetByID sampleFirstView (λ m, m) sampleAction).
  - intros id [= <-]. by eexists.
  - intros mode _. by eexists.
Defined.

Lemma bootStrapWindowAction_unknown_view_panics_witness :
  sampleBootStrap unknownViewAction
  = Panicked nilDereference (withDefaults "form" unknownViewAction).
Proof.
  apply (bootStrapWindowAction_unknown_view_panics "form" "tree" "list"
           sampleGetByID sampleFirstView (λ m, m) unknownViewAction
           "partner_kanban");
    [reflexivity | discriminate | by intros v ?%elem_of_nil | reflexivity].
Defined.

Lemma bootStrapWindowAction_second_run_adds_view_witness :
  length (BaseAction.Views (final (sampleBootStrap sampleAction)))
  < length
      (BaseAction.Views
         (final (sampleBootStrap (final (sampleBootStrap sampleAction))))).
Proof.
  apply (bootStrapWindowAction_second_run_adds_view "form" "tree" "list"
           sampleGetByID sampleFirstView (λ m, m) sampleAction
           (final (sampleBootStrap sampleAction))
           (final (sampleBootStrap (final (sampleBootStrap sampleAction)))));
    [discriminate | exact sampleFirstView_type | reflexivity | reflexivity
    | left | reflexivity].
Defined.
